(** * Multi-queue task scheduler (App.js): shallow embedding and properties

    The React component [App] keeps its scheduler state in [useState] cells
    and changes it from event handlers, timers and [useEffect] hooks.  Each
    handler, timer callback and effect is embedded as a function on a record
    of the state cells.  A JavaScript [TypeError] (reading a property of
    [undefined], as in [sq[name].reduce] for a name with no entry) is the
    result [None].

    State updates.  A handler or an effect reads the state of its render
    and queues updater functions, which React applies in order to the
    current value of the cell.  A handler runs on a settled state, so there
    the two coincide.  The effects of one render all read that render;
    their functions take it as [snap] and the state their updaters run on
    as [cur].  Every updater is applied once.  Arrays are values: the
    in-place [pop] of [redistributeTasks] acts on the copy the updater
    returns.

    Numbers.  A JavaScript number is a binary64 number.  The state holds
    for each number the exact rational [Q] it stands for, and [===] on
    numbers is [Qeq_bool]: task values are integers, the code itself rounds
    every progress value to two decimals, and every value the component
    holds is the double nearest to a multiple of 0.2 (the countdown on
    doubles is compared with the exact one for every value the buttons
    generate).  The sums of pending values that the selection loops compare
    are not rounded by the code; they are computed on binary64 numbers, as
    [reduce] does: from 0, adding the double of each value in list order. *)

From Stdlib Require Import QArith Qround Lqa Floats Uint63.
From Stdlib Require Qcanon.
From stdpp Require Import gmap strings list pretty.

Local Open Scope Q_scope.

(** ** JavaScript arithmetic used by the component *)

(** [a < b] on numbers. *)
Definition Qltb (a b : Q) : bool := negb (Qle_bool b a).

(** [Math.round]: nearest integer, halves towards positive infinity. *)
Definition Math_round (x : Q) : Z := Qfloor (x + (1 # 2)).

(** [Math.max(a, b)]. *)
Definition Math_max (a b : Q) : Q := if Qle_bool a b then b else a.

(** [Math.round(x * 100) / 100]; the quotient is kept in lowest terms, as a
    number has one representation. *)
Definition round2 (x : Q) : Q := Qred (inject_Z (Math_round (x * 100)) / 100).

(** The double nearest to a non-negative rational with numerator and
    denominator below 2^53: the binary64 number that stands for it. *)
Definition f64_of_Q (q : Q) : float :=
  PrimFloat.div (PrimFloat.of_uint63 (Uint63.of_Z (Qnum q)))
                (PrimFloat.of_uint63 (Uint63.of_Z (Zpos (Qden q)))).

(** [arr.reduce((sum, taskValue) => sum + taskValue, 0)] on the doubles of
    the values. *)
Definition f64_sumOf (l : list Q) : float :=
  fold_left (λ sum taskValue, PrimFloat.add sum (f64_of_Q taskValue)) l 0%float.

(** [a < b] and [a > b] on the computed sums. *)
Definition f64_lt (a b : float) : bool := PrimFloat.ltb a b.
Definition f64_gt (a b : float) : bool := PrimFloat.ltb b a.

(** [x > 0] and [x === 0] for a property read [obj[q]], which is
    [undefined] ([None]) when the key is absent: both are then false. *)
Definition gt0 (x : option Q) : bool :=
  match x with Some v => Qltb 0 v | None => false end.
Definition is0 (x : option Q) : bool :=
  match x with Some v => Qeq_bool v 0 | None => false end.

(** ** State *)

Inductive TaskType := high | normal.

Record Task := { value : Q; type : TaskType }.

Record State := {
  decrementPaused : bool;
  queue : list Task;
  highPriorityQueues : list string;
  regularPriorityQueues : list string;
  newlyCreatedQueues : gset string;
  subQueues : gmap string (list Q);
  progress : gmap string Q;
  initialDuration : gmap string Q
}.

Definition set_decrementPaused (b : bool) (s : State) : State :=
  {| decrementPaused := b; queue := queue s;
     highPriorityQueues := highPriorityQueues s;
     regularPriorityQueues := regularPriorityQueues s;
     newlyCreatedQueues := newlyCreatedQueues s;
     subQueues := subQueues s; progress := progress s;
     initialDuration := initialDuration s |}.

Definition set_queue (q : list Task) (s : State) : State :=
  {| decrementPaused := decrementPaused s; queue := q;
     highPriorityQueues := highPriorityQueues s;
     regularPriorityQueues := regularPriorityQueues s;
     newlyCreatedQueues := newlyCreatedQueues s;
     subQueues := subQueues s; progress := progress s;
     initialDuration := initialDuration s |}.

Definition set_highPriorityQueues (g : list string) (s : State) : State :=
  {| decrementPaused := decrementPaused s; queue := queue s;
     highPriorityQueues := g;
     regularPriorityQueues := regularPriorityQueues s;
     newlyCreatedQueues := newlyCreatedQueues s;
     subQueues := subQueues s; progress := progress s;
     initialDuration := initialDuration s |}.

Definition set_regularPriorityQueues (g : list string) (s : State) : State :=
  {| decrementPaused := decrementPaused s; queue := queue s;
     highPriorityQueues := highPriorityQueues s;
     regularPriorityQueues := g;
     newlyCreatedQueues := newlyCreatedQueues s;
     subQueues := subQueues s; progress := progress s;
     initialDuration := initialDuration s |}.

Definition set_newlyCreatedQueues (n : gset string) (s : State) : State :=
  {| decrementPaused := decrementPaused s; queue := queue s;
     highPriorityQueues := highPriorityQueues s;
     regularPriorityQueues := regularPriorityQueues s;
     newlyCreatedQueues := n;
     subQueues := subQueues s; progress := progress s;
     initialDuration := initialDuration s |}.

Definition set_subQueues (m : gmap string (list Q)) (s : State) : State :=
  {| decrementPaused := decrementPaused s; queue := queue s;
     highPriorityQueues := highPriorityQueues s;
     regularPriorityQueues := regularPriorityQueues s;
     newlyCreatedQueues := newlyCreatedQueues s;
     subQueues := m; progress := progress s;
     initialDuration := initialDuration s |}.

Definition set_progress (m : gmap string Q) (s : State) : State :=
  {| decrementPaused := decrementPaused s; queue := queue s;
     highPriorityQueues := highPriorityQueues s;
     regularPriorityQueues := regularPriorityQueues s;
     newlyCreatedQueues := newlyCreatedQueues s;
     subQueues := subQueues s; progress := m;
     initialDuration := initialDuration s |}.

Definition set_initialDuration (m : gmap string Q) (s : State) : State :=
  {| decrementPaused := decrementPaused s; queue := queue s;
     highPriorityQueues := highPriorityQueues s;
     regularPriorityQueues := regularPriorityQueues s;
     newlyCreatedQueues := newlyCreatedQueues s;
     subQueues := subQueues s; progress := progress s;
     initialDuration := m |}.

(** The [useState] initial values of the component. *)
Definition initialState : State :=
  {| decrementPaused := false;
     queue := [];
     highPriorityQueues := ["high1"];
     regularPriorityQueues := ["regular1"; "regular2"; "regular3"; "regular4"];
     newlyCreatedQueues := ∅;
     subQueues :=
       list_to_map ((λ n, (n, [])) <$>
         ["high1"; "regular1"; "regular2"; "regular3"; "regular4"]);
     progress :=
       list_to_map ((λ n, (n, 0)) <$>
         ["high1"; "high2"; "regular1"; "regular2"; "regular3"; "regular4"]);
     initialDuration :=
       list_to_map ((λ n, (n, 0)) <$>
         ["high1"; "high2"; "regular1"; "regular2"; "regular3"; "regular4"]) |}.

(** [[...highPriorityQueues, ...regularPriorityQueues]]. *)
Definition allQueues (s : State) : list string :=
  highPriorityQueues s ++ regularPriorityQueues s.

(** ** Selection by sum of pending values

    The same loop occurs five times in the source (twice in [admitTask],
    once in each of the two remove functions, once in [redistributeTasks]):
    start from the first name and its sum, then walk the whole list and
    switch whenever the sum of the visited queue is strictly better.
    [better] is [<] for the least loaded queue and [>] for the busiest. *)
Definition scanStep (better : float → float → bool)
    (sq : gmap string (list Q)) (acc : option (string * float))
    (name : string) : option (string * float) :=
  '(best, bestSum) ← acc;
  l ← sq !! name;
  let queueSum := f64_sumOf l in
  Some (if better queueSum bestSum then (name, queueSum) else (best, bestSum)).

Definition scanQueues (better : float → float → bool) (names : list string)
    (sq : gmap string (list Q)) : option (string * float) :=
  first ← head names;
  l ← sq !! first;
  fold_left (scanStep better sq) names (Some (first, f64_sumOf l)).

Definition leastLoaded (names : list string) (sq : gmap string (list Q))
    : option string :=
  fst <$> scanQueues f64_lt names sq.

(** ** Admission: [admitTask] *)

Definition groupOf (s : State) (ty : TaskType) : list string :=
  match ty with
  | high => highPriorityQueues s
  | normal => regularPriorityQueues s
  end.

Definition admitTask (s : State) : option State :=
  match queue s with
  | [] => Some s
  | task :: _ =>
      minQueue ← leastLoaded (groupOf s (type task)) (subQueues s);
      l ← subQueues s !! minQueue;
      Some (set_decrementPaused true
             (set_queue (tail (queue s))
               (set_subQueues (<[minQueue := l ++ [value task]]> (subQueues s)) s)))
  end.

(** The timer started by [admitTask]: [setDecrementPaused(false)]. *)
Definition unpause (s : State) : State := set_decrementPaused false s.

(** The three ADD TASK buttons: [setQueue(q => [...q, { value, type }])]. *)
Definition enqueueTask (t : Task) (s : State) : State :=
  set_queue (queue s ++ [t]) s.

(** ** Growing and shrinking a group *)

(** The part shared by [addHighPriorityQueue] and [addRegularPriorityQueue]:
    an empty queue with zero progress, marked as newly created. *)
Definition registerQueue (newQueueName : string) (s : State) : State :=
  set_newlyCreatedQueues ({[newQueueName]} ∪ newlyCreatedQueues s)
    (set_initialDuration (<[newQueueName := 0]> (initialDuration s))
      (set_progress (<[newQueueName := 0]> (progress s))
        (set_subQueues (<[newQueueName := []]> (subQueues s)) s))).

Definition addHighPriorityQueue (s : State) : State :=
  let newQueueName := "high" +:+ pretty (length (highPriorityQueues s) + 1)%nat in
  set_highPriorityQueues (highPriorityQueues s ++ [newQueueName])
    (registerQueue newQueueName s).

Definition addRegularPriorityQueue (s : State) : State :=
  let newQueueName := "regular" +:+ pretty (length (regularPriorityQueues s) + 1)%nat in
  set_regularPriorityQueues (regularPriorityQueues s ++ [newQueueName])
    (registerQueue newQueueName s).

(** The timer started by the two add functions, one second later. *)
Definition graceExpired (newQueueName : string) (s : State) : State :=
  set_newlyCreatedQueues (newlyCreatedQueues s ∖ {[newQueueName]}) s.

(** [progress[queueToRemove] > 0 ? progress[queueToRemove] : null]. *)
Definition currentTaskOf (s : State) (queueToRemove : string) : option Q :=
  match progress s !! queueToRemove with
  | Some p => if Qltb 0 p then Some p else None
  | None => None
  end.

(** The [setSubQueues] updater of the two remove functions.  [group] is the
    membership list of the group that shrinks. *)
Definition shrinkSubQueues (group : list string) (queueToRemove : string)
    (s : State) : option (gmap string (list Q)) :=
  let tasksToRedistribute := default [] (subQueues s !! queueToRemove) in
  let currentTask := currentTaskOf s queueToRemove in
  if (0 <? length tasksToRedistribute)%nat || bool_decide (is_Some currentTask)
  then
    let remainingQueues := removelast group in
    targetQueue ← leastLoaded remainingQueues (subQueues s);
    l ← subQueues s !! targetQueue;
    let allTasksToMove := option_list currentTask ++ tasksToRedistribute in
    Some (delete queueToRemove
            (<[targetQueue := l ++ allTasksToMove]> (subQueues s)))
  else Some (delete queueToRemove (subQueues s)).

(** What both remove functions do after the group test, up to the
    membership list itself. *)
Definition dropQueue (group : list string) (s : State) : option State :=
  queueToRemove ← last group;
  newQueues ← shrinkSubQueues group queueToRemove s;
  Some (set_newlyCreatedQueues (newlyCreatedQueues s ∖ {[queueToRemove]})
         (set_initialDuration (delete queueToRemove (initialDuration s))
           (set_progress (delete queueToRemove (progress s))
             (set_subQueues newQueues s)))).

Definition removeHighPriorityQueue (s : State) : option State :=
  if (length (highPriorityQueues s) <=? 1)%nat then Some s
  else
    s' ← dropQueue (highPriorityQueues s) s;
    Some (set_highPriorityQueues (removelast (highPriorityQueues s)) s').

Definition removeRegularPriorityQueue (s : State) : option State :=
  if (length (regularPriorityQueues s) <=? 1)%nat then Some s
  else
    s' ← dropQueue (regularPriorityQueues s) s;
    Some (set_regularPriorityQueues (removelast (regularPriorityQueues s)) s').

(** ** The progress clock *)

(** One queue of the interval callback.  [sq] is the [subQueues] of the
    render that started the interval, [prev] the progress map handed to the
    updater. *)
Definition decrement (p : Q) : Q := Math_max 0 (round2 (p - 0.4)).

Definition decrementStep (sq : gmap string (list Q)) (prev : gmap string Q)
    (acc : option (gmap string Q)) (q : string) : option (gmap string Q) :=
  updated ← acc;
  l ← sq !! q;
  Some (match prev !! q with
        | Some p =>
            if (0 <? length l)%nat && Qltb 0 p
            then <[q := decrement p]> updated
            else <[q := 0]> updated
        | None => <[q := 0]> updated
        end).

(** One period of the 40 ms interval.  While [decrementPaused] holds the
    effect returns before [setInterval], so no callback runs. *)
Definition progressTick (s : State) : option State :=
  if decrementPaused s then Some s
  else
    updated ← fold_left (decrementStep (subQueues s) (progress s))
                (allQueues s) (Some (progress s));
    Some (set_progress updated s).

(** ** The effects

    An effect reads the state of the render it belongs to ([snap]) and
    queues updater functions; these run on the state as it is when they are
    applied ([cur]).  An effect on its own has [cur = snap]. *)

Definition completionGuard (snap : State) (q : string) : option bool :=
  l ← subQueues snap !! q;
  Some ((0 <? length l)%nat && is0 (progress snap !! q)
        && gt0 (initialDuration snap !! q)).

Definition completionStep (snap : State) (acc : option State) (q : string)
    : option State :=
  cur ← acc;
  b ← completionGuard snap q;
  if b : bool then
    l ← subQueues cur !! q;
    Some (set_initialDuration (<[q := 0]> (initialDuration cur))
           (set_subQueues (<[q := tail l]> (subQueues cur)) cur))
  else Some cur.

Definition completionEffect (snap cur : State) : option State :=
  fold_left (completionStep snap) (allQueues snap) (Some cur).

(** [queueGroup.filter(q => ...)] with a predicate that can throw. *)
Fixpoint filterM {A} (p : A → option bool) (l : list A) : option (list A) :=
  match l with
  | [] => Some []
  | x :: l' =>
      b ← p x;
      r ← filterM p l';
      Some (if b : bool then x :: r else r)
  end.

Definition idleGuard (snap : State) (q : string) : option bool :=
  l ← subQueues snap !! q;
  Some ((length l =? 0)%nat && is0 (progress snap !! q)
        && is0 (initialDuration snap !! q)
        && negb (bool_decide (q ∈ newlyCreatedQueues snap))).

Definition busyGuard (snap : State) (q : string) : option bool :=
  l ← subQueues snap !! q;
  Some ((1 <? length l)%nat && negb (bool_decide (q ∈ newlyCreatedQueues snap))).

(** The busiest queue of [busyQueues] with its sum ([busiestQueue],
    [maxSum]). *)
Definition busiest (busyQueues : list string) (sq : gmap string (list Q))
    : option (string * float) :=
  scanQueues f64_gt busyQueues sq.

(** The updater queued by [redistributeTasks]: [pop] the last task of the
    busiest queue and put it in front of the idle queue. *)
Definition moveLastTask (busiestQueue idleQueue : string)
    (prev : gmap string (list Q)) : option (gmap string (list Q)) :=
  lb ← prev !! busiestQueue;
  match last lb with
  | Some taskToMove =>
      let newQueues := <[busiestQueue := removelast lb]> prev in
      li ← newQueues !! idleQueue;
      Some (<[idleQueue := taskToMove :: li]> newQueues)
  | None => Some prev
  end.

Definition redistributeTasks (snap : State) (queueGroup : list string)
    (cur : State) : option State :=
  idleQueues ← filterM (idleGuard snap) queueGroup;
  busyQueues ← filterM (busyGuard snap) queueGroup;
  match idleQueues, busyQueues with
  | idleQueue :: _, _ :: _ =>
      '(busiestQueue, maxSum) ← busiest busyQueues (subQueues snap);
      lb ← subQueues snap !! busiestQueue;
      if (1 <? length lb)%nat && f64_gt maxSum 0%float then
        newQueues ← moveLastTask busiestQueue idleQueue (subQueues cur);
        Some (set_subQueues newQueues cur)
      else Some cur
  | _, _ => Some cur
  end.

(** [redistributeTasks(highQueues); redistributeTasks(regularQueues)]. *)
Definition rebalanceEffect (snap cur : State) : option State :=
  cur' ← redistributeTasks snap (highPriorityQueues snap) cur;
  redistributeTasks snap (regularPriorityQueues snap) cur'.

Definition initializationGuard (snap : State) (q : string) : option bool :=
  l ← subQueues snap !! q;
  Some ((0 <? length l)%nat
        && (is0 (progress snap !! q) && is0 (initialDuration snap !! q))).

Definition initializationStep (snap : State) (acc : option State) (q : string)
    : option State :=
  cur ← acc;
  b ← initializationGuard snap q;
  if b : bool then
    first ← (subQueues snap !! q) ≫= head;
    Some (set_initialDuration (<[q := first]> (initialDuration cur))
           (set_progress (<[q := first]> (progress cur)) cur))
  else Some cur.

Definition initializationEffect (snap cur : State) : option State :=
  fold_left (initializationStep snap) (allQueues snap) (Some cur).

(** The effects of one render, in the order the component declares them;
    all of them read the same render. *)
Definition runEffects (s : State) : option State :=
  s1 ← completionEffect s s;
  s2 ← rebalanceEffect s s1;
  initializationEffect s s2.

(** ** Transitions *)

Inductive Event :=
  | EnqueueTask (t : Task)
  | AdmitTask
  | Unpause
  | AddHighPriorityQueue
  | RemoveHighPriorityQueue
  | AddRegularPriorityQueue
  | RemoveRegularPriorityQueue
  | GraceExpired (name : string)
  | ProgressTick
  | CompletionPass
  | RebalancePass
  | InitializationPass
  | EffectsPass.

Definition exec (e : Event) (s : State) : option State :=
  match e with
  | EnqueueTask t => Some (enqueueTask t s)
  | AdmitTask => admitTask s
  | Unpause => Some (unpause s)
  | AddHighPriorityQueue => Some (addHighPriorityQueue s)
  | RemoveHighPriorityQueue => removeHighPriorityQueue s
  | AddRegularPriorityQueue => Some (addRegularPriorityQueue s)
  | RemoveRegularPriorityQueue => removeRegularPriorityQueue s
  | GraceExpired name => Some (graceExpired name s)
  | ProgressTick => progressTick s
  | CompletionPass => completionEffect s s
  | RebalancePass => rebalanceEffect s s
  | InitializationPass => initializationEffect s s
  | EffectsPass => runEffects s
  end.

Fixpoint execAll (es : list Event) (s : State) : option State :=
  match es with
  | [] => Some s
  | e :: es' => s' ← exec e s; execAll es' s'
  end.

(** [Math.floor(Math.random() * 200)]: an integer from 0 to 199. *)
Definition generated (t : Task) : Prop :=
  ∃ n : Z, (0 ≤ n < 200)%Z ∧ value t = inject_Z n.

(** The events the display can raise: any, with task values as the buttons
    generate them. *)
Definition enabled (e : Event) : Prop :=
  match e with
  | EnqueueTask t => generated t
  | _ => True
  end.

Inductive reachable : State → Prop :=
  | reachable_init : reachable initialState
  | reachable_step s e s' :
      reachable s → enabled e → exec e s = Some s' → reachable s'.

(** ** The decrement on IEEE binary64 numbers

    The same decrement on the kernel's binary64 floats, to compare with the
    exact model.  [f64_round] is [Math.round] for arguments below 2^52 in
    absolute value: adding and subtracting 2^52 gives the nearest integer,
    from which the floor and then the rounding with halves upwards follow.
    [0x1.999999999999ap-2] is the double that the literal [0.4] denotes. *)
Definition f64_round (x : float) : float :=
  let big := 4503599627370496%float in
  let nearest :=
    if PrimFloat.leb 0%float x then PrimFloat.sub (PrimFloat.add x big) big
    else PrimFloat.add (PrimFloat.sub x big) big in
  let floor :=
    if PrimFloat.ltb x nearest then PrimFloat.sub nearest 1%float
    else nearest in
  if PrimFloat.leb 0.5%float (PrimFloat.sub x floor)
  then PrimFloat.add floor 1%float else floor.

Definition f64_max (a b : float) : float :=
  if PrimFloat.ltb a b then b else a.

Definition f64_decrement (p : float) : float :=
  f64_max 0%float
    (PrimFloat.div
       (f64_round
          (PrimFloat.mul (PrimFloat.sub p 0x1.999999999999ap-2%float)
             100%float))
       100%float).

Definition f64_tickProgress (p : float) : float :=
  if PrimFloat.ltb 0%float p then f64_decrement p else 0%float.

(** * Vocabulary of the properties *)

(** The exact sum of a list of values, and of the pending values of a
    name. *)
Definition sumOf (l : list Q) : Q := fold_left Qplus l 0.

Definition load (sq : gmap string (list Q)) (n : string) : Q :=
  sumOf (default [] (sq !! n)).

(** The sum a selection loop computes for a name. *)
Definition f64_load (sq : gmap string (list Q)) (n : string) : float :=
  f64_sumOf (default [] (sq !! n)).

(** [x] is a number and not negative. *)
Definition f64_nonneg (x : float) : bool := PrimFloat.leb 0%float x.

(** The same on the specification of binary64 numbers, and a key that
    orders the numbers that are not negative as [<] does. *)
Definition SF_nonneg (f : spec_float) : Prop :=
  match f with
  | S754_zero _ => True
  | S754_infinity s | S754_finite s _ _ => s = false
  | S754_nan => False
  end.

Definition SF_key (f : spec_float) : Z * Z * Z :=
  match f with
  | S754_finite _ m e => (1, e, Zpos m)%Z
  | S754_infinity _ => (2, 0, 0)%Z
  | _ => (0, 0, 0)%Z
  end.

Definition key_lt (a b : Z * Z * Z) : Prop :=
  (a.1.1 < b.1.1
   ∨ (a.1.1 = b.1.1 ∧ (a.1.2 < b.1.2 ∨ (a.1.2 = b.1.2 ∧ a.2 < b.2))))%Z.

(** The value the interval callback writes for queue [q]. *)
Definition nextProgress (sq : gmap string (list Q)) (prev : gmap string Q)
    (q : string) : Q :=
  match prev !! q with
  | Some p =>
      if (0 <? length (default [] (sq !! q)))%nat && Qltb 0 p
      then decrement p else 0
  | None => 0
  end.

(** The guards as total tests: false where the guard would throw. *)
Definition completes (snap : State) (q : string) : bool :=
  default false (completionGuard snap q).
Definition initializes (snap : State) (q : string) : bool :=
  default false (initializationGuard snap q).

(** [subQueues[q][0]] of the render. *)
Definition firstOf (snap : State) (q : string) : option Q :=
  (subQueues snap !! q) ≫= head.

Definition isIdle (snap : State) (q : string) : bool :=
  default false (idleGuard snap q).
Definition isBusy (snap : State) (q : string) : bool :=
  default false (busyGuard snap q).

(** A group is always [prefix1, ..., prefixN]: the add functions append
    [prefix(N+1)] and the remove functions drop the last name. *)
Definition queueNames (prefix : string) (n : nat) : list string :=
  (λ i, prefix +:+ pretty i) <$> seq 1 n.

(** One queue: its three entries exist, the progress lies between 0 and
    the recorded initial duration, no pending value is negative, and a
    positive initial duration is that of the task at the head. *)
Definition queueOK (s : State) (q : string) : Prop :=
  ∃ l p d,
    subQueues s !! q = Some l ∧ progress s !! q = Some p
    ∧ initialDuration s !! q = Some d
    ∧ 0 <= p ∧ p <= d ∧ Forall (Qle 0) l
    ∧ (0 < d → ∃ h t, l = h :: t ∧ h == d).

Record Inv (s : State) : Prop := {
  inv_high : ∃ n, (1 ≤ n)%nat ∧ highPriorityQueues s = queueNames "high" n;
  inv_regular :
    ∃ n, (1 ≤ n)%nat ∧ regularPriorityQueues s = queueNames "regular" n;
  inv_queues : ∀ q, q ∈ allQueues s → queueOK s q;
  inv_intake : Forall (λ t, 0 <= value t) (queue s)
}.

(** An updater queued by an effect runs on the current state, which can
    differ from the render the effect read: the completion effect of the
    same render may already have removed the head of a queue.  [Rel] says
    how far the current state can be from the render when the rebalancing
    updaters run, [HeadKept] what the initialization updaters need. *)
Definition Rel (snap cur : State) (q : string) : Prop :=
  progress cur !! q = progress snap !! q
  ∧ ((subQueues cur !! q = subQueues snap !! q
      ∧ initialDuration cur !! q = initialDuration snap !! q)
     ∨ (completes snap q = true
        ∧ subQueues cur !! q = tail <$> subQueues snap !! q
        ∧ initialDuration cur !! q = Some 0)).

Definition HeadKept (snap cur : State) (q : string) : Prop :=
  initializes snap q = true → firstOf cur q = firstOf snap q.

(** A task as the buttons build it: an integer value and a type. *)
Definition mkTask (v : Z) (ty : TaskType) : Task :=
  {| value := inject_Z v; type := ty |}.

(** The state after a list of events, from the initial state. *)
Definition stateAfter (es : list Event) : State :=
  default initialState (execAll es initialState).

(** Two high-priority queues: [high1] works on a task of 100, [high2] holds
    [9; 10; 20] and has worked its head task of 9 down to 5. *)
Definition shrinkScenario : list Event :=
  [AddHighPriorityQueue;
   EnqueueTask (mkTask 100 high); AdmitTask; EffectsPass;
   EnqueueTask (mkTask 9 high); AdmitTask;
   EnqueueTask (mkTask 10 high); AdmitTask;
   EnqueueTask (mkTask 20 high); AdmitTask;
   EffectsPass; Unpause]
  ++ replicate 10 ProgressTick.
Definition shrinkState : State := stateAfter shrinkScenario.

(** [high1] holds [30; 40; 50] and works on its head; [high2] was added
    afterwards and its grace period is over. *)
Definition rebalanceScenario : list Event :=
  [EnqueueTask (mkTask 30 high); AdmitTask; EffectsPass;
   EnqueueTask (mkTask 40 high); AdmitTask; EffectsPass;
   EnqueueTask (mkTask 50 high); AdmitTask; EffectsPass;
   AddHighPriorityQueue; EffectsPass; GraceExpired "high2"].
Definition rebalanceState : State := stateAfter rebalanceScenario.

(** A task of 10 admitted to [high1] and initialized; the pause started by
    the admission is still on. *)
Definition pausedScenario : list Event :=
  [EnqueueTask (mkTask 10 high); AdmitTask; EffectsPass].

(** The same after the pause has ended. *)
Definition runningScenario : list Event := pausedScenario ++ [Unpause].
Definition pausedState : State := stateAfter pausedScenario.
Definition runningState : State := stateAfter runningScenario.

(** A task of 10 just admitted to [high1], no effect run yet. *)
Definition admittedScenario : list Event :=
  [EnqueueTask (mkTask 10 high); AdmitTask].
Definition admittedState : State := stateAfter admittedScenario.

(** The load the specification describes for the steal decision: the
    remaining progress of the head task plus the waiting values. *)
Definition remainingLoad (s : State) (q : string) : Q :=
  default 0 (progress s !! q) + sumOf (tail (default [] (subQueues s !! q))).

(** [high1] holds [100; 1] and has worked its head down to 30; [high2]
    holds [30; 30] and has worked its head down to 20; [high3] is empty; no
    queue is in its grace period.  The effects run after every change. *)
Definition stealScenario : list Event :=
  [EnqueueTask (mkTask 100 high); AdmitTask; EffectsPass;
   EnqueueTask (mkTask 1 high); AdmitTask; EffectsPass; Unpause]
  ++ replicate 150 ProgressTick
  ++ [AddHighPriorityQueue; EffectsPass;
      EnqueueTask (mkTask 30 high); AdmitTask; EffectsPass;
      EnqueueTask (mkTask 30 high); AdmitTask; EffectsPass;
      AddHighPriorityQueue; EffectsPass; Unpause]
  ++ replicate 25 ProgressTick
  ++ [GraceExpired "high2"; EffectsPass; GraceExpired "high3"].
Definition stealState : State := stateAfter stealScenario.

(** The progress of a queue that has pending tasks, one tick later. *)
Definition tickProgress (p : Q) : Q := if Qltb 0 p then decrement p else 0.

(** A task of 40 admitted to [high1] and initialized, the pause over. *)
Definition fortyScenario : list Event :=
  [EnqueueTask (mkTask 40 high); AdmitTask; EffectsPass; Unpause].
Definition fortyState : State := stateAfter fortyScenario.

(** The events of the tick cycle: the interval callback and the effects,
    one at a time or all of one render. *)
Definition tickEvent (e : Event) : Prop :=
  match e with
  | ProgressTick | CompletionPass | RebalancePass | InitializationPass
  | EffectsPass => True
  | _ => False
  end.

(** Queue [q] is blocked by a head task [h]: [h] is first in its pending
    list while progress and initial duration are 0. *)
Definition blocked (s : State) (q : string) (h : Q) : Prop :=
  Inv s ∧ q ∈ allQueues s
  ∧ ∃ t p d,
      subQueues s !! q = Some (h :: t)
      ∧ progress s !! q = Some p ∧ p == 0
      ∧ initialDuration s !! q = Some d ∧ d == 0.

(** A task of value 0 just admitted to the empty [high1]. *)
Definition zeroScenario : list Event :=
  [EnqueueTask (mkTask 0 high); AdmitTask].
Definition zeroState : State := stateAfter zeroScenario.

(** [n] periods of the interval, each followed by the effects of its
    render. *)
Definition tickCycle (n : nat) : list Event :=
  concat (replicate n [ProgressTick; EffectsPass]).

(** Two high-priority queues of equal exact sum.  [high1] holds 20 and
    receives twice the work of a removed third queue that had worked a task
    of 1 down to 0.6; [high2] holds 20 and receives the work of a removed
    third queue that had worked a task of 2 down to 1.2.  A high-priority
    task of 7 then waits in the main queue. *)
Definition tieScenario : list Event :=
  [EnqueueTask (mkTask 20 high); AdmitTask; EffectsPass;
   AddHighPriorityQueue; EffectsPass;
   EnqueueTask (mkTask 20 high); AdmitTask; EffectsPass;
   GraceExpired "high2"; EffectsPass;
   AddHighPriorityQueue; EffectsPass;
   EnqueueTask (mkTask 1 high); AdmitTask; EffectsPass; Unpause]
  ++ tickCycle 1
  ++ [RemoveHighPriorityQueue; EffectsPass;
      AddHighPriorityQueue; EffectsPass;
      EnqueueTask (mkTask 2 high); AdmitTask; EffectsPass; Unpause]
  ++ tickCycle 2
  ++ [RemoveHighPriorityQueue; EffectsPass;
      AddHighPriorityQueue; EffectsPass;
      EnqueueTask (mkTask 1 high); AdmitTask; EffectsPass; Unpause]
  ++ tickCycle 1
  ++ [RemoveHighPriorityQueue; EffectsPass;
      EnqueueTask (mkTask 7 high); EffectsPass].
Definition tieState : State := stateAfter tieScenario.

(** [high1] holds [30; 40] and works on its head of 30.  A second queue is
    added fifty ticks later; the seventy-fifth tick, which brings the
    progress of [high1] to 0, and the end of the grace period of [high2]
    come in the same render, whose effects have not run yet. *)
Definition soleScenario : list Event :=
  [EnqueueTask (mkTask 30 high); AdmitTask; EffectsPass;
   EnqueueTask (mkTask 40 high); AdmitTask; EffectsPass; Unpause]
  ++ tickCycle 50
  ++ [AddHighPriorityQueue; EffectsPass]
  ++ tickCycle 24
  ++ [ProgressTick; GraceExpired "high2"].
Definition soleState : State := stateAfter soleScenario.

(** ** Tactics *)

(** Two states built from the same fields are equal. *)
Ltac state_eq :=
  repeat match goal with s : State |- _ => destruct s end; reflexivity.

(** Every name of a computed list of queues has an entry. *)
Ltac all_entries :=
  let n := fresh "n" in
  let Hn := fresh "Hn" in
  intros n Hn; vm_compute in Hn;
  repeat (apply elem_of_cons in Hn as [->|Hn]; [vm_compute; eauto|]);
  inversion Hn.

(** ** What the display reads

    [App] hands each queue to [QueueComponent] as
    [tasks={subQueues[queueName] || []}], [progress={progress[queueName] || 0}]
    and [initialDuration={initialDuration[queueName] || 0}]; the component
    draws a bar of width
    [initialDuration ? (progress / initialDuration) * 100 : 0] percent. *)

(** [x || 0] for a number read from an object: 0 for a missing key, and a
    number that is 0 stays 0. *)
Definition orZero (x : option Q) : Q :=
  match x with
  | Some v => if Qeq_bool v 0 then 0 else v
  | None => 0
  end.

(** The width of the progress bar of [QueueComponent], in percent. *)
Definition barWidth (progress initialDuration : Q) : Q :=
  if Qeq_bool initialDuration 0 then 0
  else progress / initialDuration * 100.

(** The width [App] makes [QueueComponent] draw for queue [queueName]. *)
Definition renderedWidth (s : State) (queueName : string) : Q :=
  barWidth (orZero (progress s !! queueName))
           (orZero (initialDuration s !! queueName)).

(** The sum of the pending values of all queues of a list. *)
Definition totalLoad (sq : gmap string (list Q)) (names : list string) : Q :=
  sumOf (load sq <$> names).

(** The add and the remove event of a group, and the parts of the names of
    its queues. *)
Definition addEvent (ty : TaskType) : Event :=
  match ty with
  | high => AddHighPriorityQueue
  | normal => AddRegularPriorityQueue
  end.

Definition removeEvent (ty : TaskType) : Event :=
  match ty with
  | high => RemoveHighPriorityQueue
  | normal => RemoveRegularPriorityQueue
  end.

Definition prefixOf (ty : TaskType) : string :=
  match ty with
  | high => "high"
  | normal => "regular"
  end.

Definition otherType (ty : TaskType) : TaskType :=
  match ty with
  | high => normal
  | normal => high
  end.

(** The name the add function of group [ty] gives to its new queue. *)
Definition nextQueueName (s : State) (ty : TaskType) : string :=
  prefixOf ty +:+ pretty (length (groupOf s ty) + 1)%nat.

(** What a remove function re-queues of the task in flight: the remaining
    progress of the removed queue when it is positive. *)
Definition remainderOf (s : State) (queueToRemove : string) : Q :=
  sumOf (option_list (currentTaskOf s queueToRemove)).

(** The membership list of group [ty] replaced. *)
Definition set_group (ty : TaskType) (names : list string) (s : State) : State :=
  match ty with
  | high => set_highPriorityQueues names s
  | normal => set_regularPriorityQueues names s
  end.

(** The values the component works with are integer multiples of 0.2: the
    buttons generate integers and the interval takes 0.4 off. *)
Definition onGrid (x : Q) : Prop := ∃ k : Z, x == inject_Z k / 5.

(** Every value of the state satisfies [V]. *)
Record Values (V : Q → Prop) (s : State) : Prop := {
  val_pending : map_Forall (λ _ l, Forall V l) (subQueues s);
  val_progress : map_Forall (λ _ p, V p) (progress s);
  val_duration : map_Forall (λ _ d, V d) (initialDuration s);
  val_intake : Forall (λ t, V (value t)) (queue s)
}.

(** The values the component can hold, as the state writes them: the
    multiples of 0.2 below 200, in lowest terms. *)
Definition isValue (x : Q) : Prop :=
  ∃ k : Z, (0 ≤ k < 1000)%Z ∧ x = Qred (inject_Z k / 5).

Record Grid (s : State) : Prop := {
  grid_pending : map_Forall (λ _ l, Forall onGrid l) (subQueues s);
  grid_progress : map_Forall (λ _ p, onGrid p) (progress s);
  grid_duration : map_Forall (λ _ d, onGrid d) (initialDuration s);
  grid_intake : Forall (λ t, onGrid (value t)) (queue s)
}.

(** ** The countdown of a task on binary64 numbers *)

(** A task value as the buttons generate it, as a double. *)
Definition f64_of_Z (v : Z) : float := PrimFloat.of_uint63 (Uint63.of_Z v).

(** The number of ticks of [tick] that bring the progress [p] of a queue
    with pending tasks to 0, if at most [fuel]. *)
Fixpoint f64_ticks (tick : float → float) (fuel : nat) (p : float)
    : option nat :=
  if PrimFloat.eqb p 0%float then Some 0%nat
  else match fuel with
       | O => None
       | S n => S <$> f64_ticks tick n (tick p)
       end.

(** The binary64 countdown from [x] and the exact one from [p] side by
    side: at every one of the first [fuel] ticks the double is the one
    nearest to the exact value. *)
Fixpoint f64_agrees (fuel : nat) (x : float) (p : Q) : bool :=
  PrimFloat.eqb x (f64_of_Q p)
  && match fuel with
     | O => true
     | S n => f64_agrees n (f64_tickProgress x) (tickProgress p)
     end.

(** The number of ticks a task of integer value [v] takes at 0.4 a tick:
    [v / 0.4] rounded up. *)
Definition exactTicks (v : Z) : nat := Z.to_nat ((5 * v + 1) / 2).

(** * The earlier version of the component

    The source opens with an earlier [App]: one high-priority queue [high]
    and the three regular queues [regular2], [regular3] and [regular4], no
    adding or removing of queues and no rebalancing.  It admits a normal
    task to the regular queue with the fewest pending tasks, and its
    interval takes 0.4 off without rounding.  Its completion and
    initialization effects are those of the later version over the fixed
    list of the four names.  The state cell [normalQueueIndex] is never
    read and is left out. *)
Module Legacy.

Record State := {
  decrementPaused : bool;
  queue : list Task;
  subQueues : gmap string (list Q);
  progress : gmap string Q;
  initialDuration : gmap string Q
}.

Definition initialState : State :=
  {| decrementPaused := false;
     queue := [];
     subQueues :=
       list_to_map ((λ n, (n, [])) <$>
         ["high"; "regular2"; "regular3"; "regular4"]);
     progress :=
       list_to_map ((λ n, (n, 0)) <$>
         ["high"; "regular2"; "regular3"; "regular4"]);
     initialDuration :=
       list_to_map ((λ n, (n, 0)) <$>
         ["high"; "regular2"; "regular3"; "regular4"]) |}.

Definition queueNames : list string := ["regular2"; "regular3"; "regular4"].

(** One step of the [forEach] of [admitTask]: switch to [name] when it
    holds strictly fewer tasks. *)
Definition fewestStep (sq : gmap string (list Q))
    (acc : option (string * nat)) (name : string) : option (string * nat) :=
  '(minQueue, minLength) ← acc;
  l ← sq !! name;
  Some (if (length l <? minLength)%nat then (name, length l)
        else (minQueue, minLength)).

(** [minQueue] after the loop. *)
Definition fewest (names : list string) (sq : gmap string (list Q))
    : option string :=
  first ← head names;
  l ← sq !! first;
  fst <$> fold_left (fewestStep sq) names (Some (first, length l)).

Definition admitTask (s : State) : option State :=
  match queue s with
  | [] => Some s
  | task :: _ =>
      newQueues ←
        match type task with
        | high =>
            l ← subQueues s !! "high";
            Some (<["high" := l ++ [value task]]> (subQueues s))
        | normal =>
            minQueue ← fewest queueNames (subQueues s);
            l ← subQueues s !! minQueue;
            Some (<[minQueue := l ++ [value task]]> (subQueues s))
        end;
      Some {| decrementPaused := true;
              queue := tail (queue s);
              subQueues := newQueues;
              progress := progress s;
              initialDuration := initialDuration s |}
  end.

(** [Math.max(0, prev[q] - 0.4)], exactly and on binary64 numbers, and the
    value the interval callback writes for a queue with pending tasks. *)
Definition decrement (p : Q) : Q := Math_max 0 (p - 0.4).

Definition f64_decrement (p : float) : float :=
  f64_max 0%float (PrimFloat.sub p 0x1.999999999999ap-2%float).

Definition f64_tickProgress (p : float) : float :=
  if PrimFloat.ltb 0%float p then f64_decrement p else 0%float.

(** The number of pending tasks of a queue. *)
Definition pending (sq : gmap string (list Q)) (name : string) : nat :=
  length (default [] (sq !! name)).

(** No regular queue holds more than [bound] tasks more than another. *)
Definition balanced (bound : nat) (sq : gmap string (list Q)) : Prop :=
  ∀ a b, a ∈ queueNames → b ∈ queueNames →
    (pending sq a ≤ pending sq b + bound)%nat.

End Legacy.

(** The earlier component with one normal task of 5 waiting in the main
    queue while [regular2] holds a task. *)
Definition legacyWaiting : Legacy.State :=
  {| Legacy.decrementPaused := false;
     Legacy.queue := [mkTask 5 normal];
     Legacy.subQueues := <["regular2" := [7]]> (Legacy.subQueues Legacy.initialState);
     Legacy.progress := Legacy.progress Legacy.initialState;
     Legacy.initialDuration := Legacy.initialDuration Legacy.initialState |}.

(** The task values for which the unrounded countdown of the earlier
    component takes one tick more on binary64 numbers than in exact
    arithmetic. *)
Definition driftsAt (v : Z) : bool :=
  (v =? 2)%Z || (v =? 4)%Z || ((20 <=? v)%Z && (v <=? 74)%Z && Z.even v).

(** A high-priority task of 10 waiting in the main queue of the initial
    component. *)
Definition waitingState : State := stateAfter [EnqueueTask (mkTask 10 high)].

(** * Properties *)

(** ** Comparisons *)

Lemma Qltb_lt a b : Qltb a b = true ↔ a < b.
Proof.
  unfold Qltb. rewrite negb_true_iff, <- not_true_iff_false, Qle_bool_iff.
  split; [apply Qnot_le_lt | apply Qlt_not_le].
Qed.

Lemma Qltb_ge a b : Qltb a b = false ↔ b <= a.
Proof.
  unfold Qltb. rewrite negb_false_iff. apply Qle_bool_iff.
Qed.

Lemma is0_Some v : is0 (Some v) = true ↔ v == 0.
Proof. apply Qeq_bool_iff. Qed.

Lemma gt0_Some v : gt0 (Some v) = true ↔ 0 < v.
Proof. apply Qltb_lt. Qed.

(** ** Binary64 numbers that are not negative *)

Lemma SFltb_key f g :
  SF_nonneg f → SF_nonneg g →
  SFltb f g = true ↔ key_lt (SF_key f) (SF_key g).
Proof.
  unfold SFltb, key_lt.
  destruct f as [sf|sf| |sf mf ef], g as [sg|sg| |sg mg eg]; simpl;
    intros Hf Hg; subst; try done; try (split; [intros; lia | done]);
    try (split; [done | intros; lia]).
  destruct (Z.compare_spec ef eg) as [->|Hlt|Hgt].
  - change (Pos.compare_cont Eq mf mg) with (Pos.compare mf mg).
    destruct (Pos.compare_spec mf mg); split; try done; intros; lia.
  - split; [intros; lia | done].
  - split; [done | intros; lia].
Qed.

Lemma f64_nonneg_class x : f64_nonneg x = true ↔ SF_nonneg (Prim2SF x).
Proof.
  unfold f64_nonneg. rewrite FloatAxioms.leb_spec.
  change (Prim2SF 0) with (S754_zero false).
  unfold SFleb. destruct (Prim2SF x) as [s|[]| |[] m e]; simpl; split; done.
Qed.

Lemma f64_ltb_key x y :
  f64_nonneg x = true → f64_nonneg y = true →
  PrimFloat.ltb x y = true ↔ key_lt (SF_key (Prim2SF x)) (SF_key (Prim2SF y)).
Proof.
  intros Hx%f64_nonneg_class Hy%f64_nonneg_class. rewrite FloatAxioms.ltb_spec.
  by apply SFltb_key.
Qed.

Lemma f64_ltb_irrefl x : f64_nonneg x = true → PrimFloat.ltb x x = false.
Proof.
  intros Hx. apply not_true_is_false. rewrite f64_ltb_key by done.
  unfold key_lt. lia.
Qed.

Lemma f64_ltb_left a b c :
  f64_nonneg a = true → f64_nonneg b = true → f64_nonneg c = true →
  PrimFloat.ltb a b = true → PrimFloat.ltb c b = false →
  PrimFloat.ltb a c = true.
Proof.
  intros Ha Hb Hc Hab Hcb%not_true_iff_false.
  rewrite f64_ltb_key in Hab, Hcb |- * by done.
  unfold key_lt in *. lia.
Qed.

Lemma f64_ltb_right a b c :
  f64_nonneg a = true → f64_nonneg b = true → f64_nonneg c = true →
  PrimFloat.ltb a b = true → PrimFloat.ltb c b = false →
  PrimFloat.ltb c a = false.
Proof.
  intros Ha Hb Hc Hab Hcb%not_true_iff_false. apply not_true_iff_false.
  rewrite f64_ltb_key in Hab, Hcb |- * by done.
  unfold key_lt in *. lia.
Qed.

Lemma f64_gtb_left a b c :
  f64_nonneg a = true → f64_nonneg b = true → f64_nonneg c = true →
  PrimFloat.ltb b a = true → PrimFloat.ltb b c = false →
  PrimFloat.ltb c a = true.
Proof.
  intros Ha Hb Hc Hab Hcb%not_true_iff_false.
  rewrite f64_ltb_key in Hab, Hcb |- * by done.
  unfold key_lt in *. lia.
Qed.

Lemma f64_gtb_right a b c :
  f64_nonneg a = true → f64_nonneg b = true → f64_nonneg c = true →
  PrimFloat.ltb b a = true → PrimFloat.ltb b c = false →
  PrimFloat.ltb a c = false.
Proof.
  intros Ha Hb Hc Hab Hcb%not_true_iff_false. apply not_true_iff_false.
  rewrite f64_ltb_key in Hab, Hcb |- * by done.
  unfold key_lt in *. lia.
Qed.

(** Rounding an integer that is not negative never gives NaN, so the sum
    of two numbers that are not negative is one. *)
Section Rounding.
Context (prec emax : Z).

Lemma iter_pos_invariant {A} (I : A → Prop) (f : A → A) :
  (∀ x, I x → I (f x)) → ∀ p x, I x → I (SpecFloat.iter_pos f p x).
Proof.
  intros Hf. induction p as [p IH|p IH|]; intros x Hx; simpl; auto.
Qed.

Lemma shr_1_nonneg mrs : (0 ≤ shr_m mrs)%Z → (0 ≤ shr_m (shr_1 mrs))%Z.
Proof. destruct mrs as [[|[p|p|]|[p|p|]] r s]; simpl; lia. Qed.

Lemma shr_fexp_nonneg m e l :
  (0 ≤ m)%Z → (0 ≤ shr_m (shr_fexp prec emax m e l).1)%Z.
Proof.
  intros Hm. unfold shr_fexp, shr.
  assert (H0 : (0 ≤ shr_m (shr_record_of_loc m l))%Z)
    by (by destruct l as [|[]]).
  destruct (fexp prec emax (Zdigits2 m + e) - e)%Z; simpl; try done.
  by apply iter_pos_invariant; [apply shr_1_nonneg|].
Qed.

Lemma round_nearest_even_nonneg m l :
  (0 ≤ m)%Z → (0 ≤ round_nearest_even m l)%Z.
Proof.
  intros Hm. destruct l as [|[]]; simpl; try lia. destruct (Z.even m); lia.
Qed.

Lemma binary_round_aux_nonneg mx ex lx :
  (0 ≤ mx)%Z → SF_nonneg (binary_round_aux prec emax false mx ex lx).
Proof.
  intros Hm. unfold binary_round_aux.
  pose proof (shr_fexp_nonneg mx ex lx Hm) as H1.
  destruct (shr_fexp prec emax mx ex lx) as [mrs' e']. simpl in H1.
  pose proof (shr_fexp_nonneg _ e' loc_Exact
                (round_nearest_even_nonneg _ (loc_of_shr_record mrs') H1)) as H2.
  destruct (shr_fexp prec emax _ e' loc_Exact) as [mrs'' e'']. simpl in H2.
  destruct (shr_m mrs''); [done | by destruct (_ <=? _)%Z | lia].
Qed.

Lemma SFadd_nonneg x y :
  SF_nonneg x → SF_nonneg y → SF_nonneg (SFadd prec emax x y).
Proof.
  destruct x as [sx|sx| |sx mx ex], y as [sy|sy| |sy my ey]; simpl;
    intros Hx Hy; subst; try done.
  - by destruct sx, sy.
  - destruct (shl_align mx ex _) as [a ea], (shl_align my ey _) as [b eb].
    cbn [fst cond_Zopp]. change (Z.pos a + Z.pos b)%Z with (Z.pos (a + b)).
    unfold binary_normalize, binary_round.
    destruct (shl_align _ _ _) as [mz ez]. by apply binary_round_aux_nonneg.
Qed.
End Rounding.

Lemma f64_add_nonneg x y :
  f64_nonneg x = true → f64_nonneg y = true →
  f64_nonneg (PrimFloat.add x y) = true.
Proof.
  rewrite !f64_nonneg_class, FloatAxioms.add_spec. apply SFadd_nonneg.
Qed.

Lemma f64_sumOf_nonneg l :
  Forall (λ v, f64_nonneg (f64_of_Q v) = true) l →
  f64_nonneg (f64_sumOf l) = true.
Proof.
  unfold f64_sumOf. assert (H0 : f64_nonneg 0%float = true) by reflexivity.
  revert H0. generalize 0%float. induction l as [|v l IH]; intros acc Hacc Hl.
  - done.
  - apply Forall_cons in Hl as [Hv Hl]. simpl. apply IH; [|done].
    by apply f64_add_nonneg.
Qed.

(** ** The selection loop *)

Lemma scan_fold_None better sq l :
  fold_left (scanStep better sq) l None = None.
Proof. induction l; [done | simpl; done]. Qed.

Lemma scan_fold_elem better sq l : ∀ c cs m ms,
  fold_left (scanStep better sq) l (Some (c, cs)) = Some (m, ms) →
  (m = c ∧ ms = cs) ∨ (m ∈ l ∧ ∃ lm, sq !! m = Some lm ∧ ms = f64_sumOf lm).
Proof.
  induction l as [|x l IH]; intros c cs m ms; cbn [fold_left].
  - intros [= <- <-]. by left.
  - unfold scanStep at 2. simpl. destruct (sq !! x) as [lx|] eqn:Hx; simpl.
    2:{ by rewrite scan_fold_None. }
    destruct (better (f64_sumOf lx) cs); intros [[-> ->] | [Hin Hm]]%IH.
    + right. split; [by left | eauto].
    + right. split; [by right | done].
    + by left.
    + right. split; [by right | done].
Qed.

Lemma scanQueues_elem better names sq m ms :
  scanQueues better names sq = Some (m, ms) →
  m ∈ names ∧ ∃ lm, sq !! m = Some lm ∧ ms = f64_sumOf lm.
Proof.
  unfold scanQueues. destruct names as [|f tl]; [done|]. cbn [head mbind option_bind].
  destruct (sq !! f) as [lf|] eqn:Hf; [|done]. cbn [mbind option_bind].
  intros [[-> ->] | [Hin Hm]]%scan_fold_elem.
  - split; [by left | eauto].
  - done.
Qed.

(** The loop succeeds when every name has an entry, whatever the sums. *)
Lemma scan_fold_Some better sq l : ∀ c cs,
  (∀ n, n ∈ l → is_Some (sq !! n)) →
  is_Some (fold_left (scanStep better sq) l (Some (c, cs))).
Proof.
  induction l as [|x l IH]; intros c cs Hl; cbn [fold_left]; [eauto|].
  destruct (Hl x) as [lx Hx]; [by left|].
  unfold scanStep at 2. simpl. rewrite Hx. simpl.
  destruct (better (f64_sumOf lx) cs); apply IH; intros n Hn; apply Hl;
    by right.
Qed.

Lemma scanQueues_pick better names sq :
  names ≠ [] →
  (∀ n, n ∈ names → is_Some (sq !! n)) →
  ∃ m, scanQueues better names sq = Some (m, f64_load sq m) ∧ m ∈ names.
Proof.
  intros Hne Hl. destruct names as [|f tl]; [done|].
  destruct (Hl f) as [lf Hf]; [by left|].
  destruct (scan_fold_Some better sq (f :: tl) f (f64_sumOf lf) Hl)
    as [[m ms] Hfold].
  assert (Hscan : scanQueues better (f :: tl) sq = Some (m, ms)).
  { unfold scanQueues. cbn [head mbind option_bind]. rewrite Hf.
    exact Hfold. }
  destruct (scanQueues_elem _ _ _ _ _ Hscan) as (Hin & lm & Hlm & ->).
  exists m. split; [|done]. rewrite Hscan. unfold f64_load. by rewrite Hlm.
Qed.

Section scan.
Context (better : float → float → bool) (sq : gmap string (list Q)).
Hypothesis better_irrefl : ∀ a, f64_nonneg a = true → better a a = false.
Hypothesis better_left : ∀ a b c,
  f64_nonneg a = true → f64_nonneg b = true → f64_nonneg c = true →
  better a b = true → better c b = false → better a c = true.
Hypothesis better_right : ∀ a b c,
  f64_nonneg a = true → f64_nonneg b = true → f64_nonneg c = true →
  better a b = true → better c b = false → better c a = false.

Lemma scanStep_Some best n l :
  sq !! n = Some l →
  scanStep better sq (Some (best, f64_load sq best)) n =
    Some (if better (f64_load sq n) (f64_load sq best) then (n, f64_load sq n)
          else (best, f64_load sq best)).
Proof. intros Hn. unfold scanStep, f64_load. simpl. rewrite Hn. reflexivity. Qed.

(** Invariant of the loop, started at [f], when the sums are numbers that
    are not negative: either [f] is kept and nothing visited was better, or
    the current choice is the first visited name that beats everything
    before it, and nothing visited beats it. *)
Lemma scan_fold f l :
  (∀ n, n ∈ l → is_Some (sq !! n)) →
  (∀ n, n ∈ f :: l → f64_nonneg (f64_load sq n) = true) →
  ∃ m, fold_left (scanStep better sq) l (Some (f, f64_load sq f))
       = Some (m, f64_load sq m)
    ∧ m ∈ f :: l
    ∧ (∀ n, n ∈ l → better (f64_load sq n) (f64_load sq m) = false)
    ∧ ((m = f ∧ ∀ n, n ∈ l → better (f64_load sq n) (f64_load sq f) = false)
       ∨ (better (f64_load sq m) (f64_load sq f) = true
          ∧ ∃ pre post, l = pre ++ m :: post
              ∧ ∀ n, n ∈ pre → better (f64_load sq m) (f64_load sq n) = true)).
Proof.
  induction l as [|x l IH] using rev_ind; intros Hl Hnum.
  - exists f. split; [reflexivity|]. split; [by left|].
    split; [intros n Hn; inversion Hn|].
    left. split; [reflexivity | intros n Hn; inversion Hn].
  - destruct IH as (m & Hfold & Hm & Hmax & Hfirst).
    { intros n Hn. apply Hl, elem_of_app. by left. }
    { intros n [->|Hn]%elem_of_cons; apply Hnum; [by left|].
      right. apply elem_of_app. by left. }
    destruct (Hl x) as [lx Hx]. { apply elem_of_app. right. by constructor. }
    assert (Nf : f64_nonneg (f64_load sq f) = true) by (apply Hnum; by left).
    assert (Nx : f64_nonneg (f64_load sq x) = true).
    { apply Hnum. right. apply elem_of_app. right. by left. }
    assert (Nl : ∀ n, n ∈ l → f64_nonneg (f64_load sq n) = true).
    { intros n Hn. apply Hnum. right. apply elem_of_app. by left. }
    assert (Nm : f64_nonneg (f64_load sq m) = true).
    { apply elem_of_cons in Hm as [->|Hm]; [done | by apply Nl]. }
    rewrite fold_left_app, Hfold.
    cbn [fold_left]. rewrite (scanStep_Some _ _ _ Hx).
    destruct (better (f64_load sq x) (f64_load sq m)) eqn:Hb.
    + exists x. split; [reflexivity|].
      split; [right; apply elem_of_app; right; by left|].
      split.
      * intros n [Hn | ->%list_elem_of_singleton]%elem_of_app;
          [|by apply better_irrefl].
        apply (better_right _ (f64_load sq m)); auto.
      * right. split.
        -- destruct Hfirst as [[-> _] | [Hmf _]]; [done|].
           apply (better_left _ (f64_load sq m)); auto.
           apply (better_right _ (f64_load sq f)); auto.
        -- exists l, []. split; [done|]. intros n Hn.
           apply (better_left _ (f64_load sq m)); auto.
    + exists m. split; [reflexivity|].
      split.
      { apply elem_of_cons in Hm as [->|Hm]; [by left|].
        right. apply elem_of_app. by left. }
      split.
      * intros n [Hn | ->%list_elem_of_singleton]%elem_of_app; auto.
      * destruct Hfirst as [[-> Hf] | [Hmf (pre & post & -> & Hpre)]].
        -- left. split; [done|].
           intros n [Hn | ->%list_elem_of_singleton]%elem_of_app; auto.
        -- right. split; [done|]. exists pre, (post ++ [x]).
           split; [by rewrite <- app_assoc | done].
Qed.

(** The loop on a non-empty list of names that all have an entry and a
    sum that is not negative returns the first name whose sum no other
    name beats. *)
Lemma scanQueues_spec names :
  names ≠ [] →
  (∀ n, n ∈ names → is_Some (sq !! n)) →
  (∀ n, n ∈ names → f64_nonneg (f64_load sq n) = true) →
  ∃ m pre post, scanQueues better names sq = Some (m, f64_load sq m)
    ∧ names = pre ++ m :: post
    ∧ (∀ n, n ∈ names → better (f64_load sq n) (f64_load sq m) = false)
    ∧ (∀ n, n ∈ pre → better (f64_load sq m) (f64_load sq n) = true).
Proof.
  intros Hne Hl Hnum. destruct names as [|f tl]; [done|].
  destruct (Hl f) as [lf Hf]; [by constructor|].
  destruct (scan_fold f (f :: tl) Hl) as (m & Hfold & _ & Hmax & Hfirst).
  { intros n [->|Hn]%elem_of_cons; apply Hnum; [by left | done]. }
  assert (Hscan : scanQueues better (f :: tl) sq = Some (m, f64_load sq m)).
  { rewrite <- Hfold. unfold scanQueues, f64_load. simpl. rewrite Hf.
    reflexivity. }
  rewrite Hscan.
  destruct Hfirst as [[-> Hall] | [_ (pre & post & Heq & Hpre)]].
  - exists f, [], tl. repeat split; auto. intros n Hn; inversion Hn.
  - exists m, pre, post. done.
Qed.
End scan.

Lemma leastLoaded_pick names (sq : gmap string (list Q)) :
  names ≠ [] →
  (∀ n, n ∈ names → is_Some (sq !! n)) →
  ∃ m, leastLoaded names sq = Some m ∧ m ∈ names.
Proof.
  intros Hne Hl.
  destruct (scanQueues_pick f64_lt names sq Hne Hl) as (m & Hscan & Hm).
  exists m. unfold leastLoaded. by rewrite Hscan.
Qed.

Lemma busiest_pick names (sq : gmap string (list Q)) :
  names ≠ [] →
  (∀ n, n ∈ names → is_Some (sq !! n)) →
  ∃ m, busiest names sq = Some (m, f64_load sq m) ∧ m ∈ names.
Proof. apply scanQueues_pick. Qed.

(** On sums that are not negative: the first name of minimal computed
    sum, and the first of maximal computed sum. *)
Lemma leastLoaded_spec names (sq : gmap string (list Q)) :
  names ≠ [] →
  (∀ n, n ∈ names → is_Some (sq !! n)) →
  (∀ n, n ∈ names → f64_nonneg (f64_load sq n) = true) →
  ∃ m pre post, leastLoaded names sq = Some m
    ∧ names = pre ++ m :: post
    ∧ (∀ n, n ∈ names → f64_lt (f64_load sq n) (f64_load sq m) = false)
    ∧ (∀ n, n ∈ pre → f64_lt (f64_load sq m) (f64_load sq n) = true).
Proof.
  intros Hne Hl Hnum.
  destruct (scanQueues_spec f64_lt sq) with (names := names)
    as (m & pre & post & Hscan & Heq & Hmin & Hfirst); auto.
  - apply f64_ltb_irrefl.
  - apply f64_ltb_left.
  - apply f64_ltb_right.
  - exists m, pre, post. unfold leastLoaded. by rewrite Hscan.
Qed.

Lemma busiest_spec names (sq : gmap string (list Q)) :
  names ≠ [] →
  (∀ n, n ∈ names → is_Some (sq !! n)) →
  (∀ n, n ∈ names → f64_nonneg (f64_load sq n) = true) →
  ∃ m pre post, busiest names sq = Some (m, f64_load sq m)
    ∧ names = pre ++ m :: post
    ∧ (∀ n, n ∈ names → f64_gt (f64_load sq n) (f64_load sq m) = false)
    ∧ (∀ n, n ∈ pre → f64_gt (f64_load sq m) (f64_load sq n) = true).
Proof.
  intros Hne Hl Hnum.
  destruct (scanQueues_spec f64_gt sq) with (names := names)
    as (m & pre & post & Hscan & Heq & Hmin & Hfirst); auto.
  - apply f64_ltb_irrefl.
  - apply f64_gtb_left.
  - apply f64_gtb_right.
  - exists m, pre, post. unfold busiest. by rewrite Hscan.
Qed.

(** ** Admission *)

Lemma admitTask_empty s : queue s = [] → admitTask s = Some s.
Proof. intros H. unfold admitTask. by rewrite H. Qed.

Lemma admitTask_cons s task rest :
  queue s = task :: rest →
  groupOf s (type task) ≠ [] →
  (∀ n, n ∈ groupOf s (type task) → is_Some (subQueues s !! n)) →
  ∃ m lm,
    m ∈ groupOf s (type task)
    ∧ subQueues s !! m = Some lm
    ∧ leastLoaded (groupOf s (type task)) (subQueues s) = Some m
    ∧ admitTask s =
        Some (set_decrementPaused true
               (set_queue rest
                 (set_subQueues (<[m := lm ++ [value task]]> (subQueues s)) s))).
Proof.
  intros Hq Hne Hl.
  destruct (leastLoaded_pick _ (subQueues s) Hne Hl) as (m & Hleast & Hm).
  destruct (Hl m Hm) as [lm Hlm].
  exists m, lm. do 3 (split; [done|]).
  unfold admitTask. rewrite Hq, Hleast. simpl. rewrite Hlm. reflexivity.
Qed.

(** Two admissions of 10 then 50 into a group of two empty queues. *)
Lemma admitTask_two_empty s a b t1 t2 rest :
  a ≠ b →
  queue s = t1 :: t2 :: rest →
  type t2 = type t1 →
  groupOf s (type t1) = [a; b] →
  subQueues s !! a = Some [] →
  subQueues s !! b = Some [] →
  value t1 = 10 → value t2 = 50 →
  ∃ s1 s2, admitTask s = Some s1 ∧ admitTask s1 = Some s2
    ∧ subQueues s2 !! a = Some [10] ∧ subQueues s2 !! b = Some [50]
    ∧ queue s2 = rest.
Proof.
  intros Hab Hq Hty Hg Ha Hb Hv1 Hv2.
  assert (Hg' : ∀ x, groupOf (set_decrementPaused true (set_queue (t2 :: rest)
            (set_subQueues x s))) (type t1) = [a; b]).
  { intros x. rewrite <- Hg. by destruct (type t1). }
  eexists _, _. split; [|split].
  - unfold admitTask, leastLoaded, scanQueues. rewrite Hq, Hg.
    repeat (simpl; rewrite ?Ha, ?Hb). reflexivity.
  - unfold admitTask, leastLoaded, scanQueues. simpl. rewrite Hty, Hg', Hv1.
    repeat (simpl; rewrite ?lookup_insert_eq, ?(lookup_insert_ne _ a b), ?Hb by done).
    reflexivity.
  - simpl. rewrite lookup_insert_ne, lookup_insert_eq, lookup_insert_eq by done.
    rewrite Hv2. done.
Qed.

(** ** The progress clock *)

Lemma decrementStep_Some sq prev updated q l :
  sq !! q = Some l →
  decrementStep sq prev (Some updated) q =
    Some (<[q := nextProgress sq prev q]> updated).
Proof.
  intros Hq. unfold decrementStep, nextProgress. simpl. rewrite Hq. simpl.
  destruct (prev !! q) as [p|]; [|done].
  by destruct ((0 <? length l)%nat && Qltb 0 p).
Qed.

Lemma decrement_fold sq prev names : ∀ acc,
  (∀ n, n ∈ names → is_Some (sq !! n)) →
  ∃ updated,
    fold_left (decrementStep sq prev) names (Some acc) = Some updated
    ∧ ∀ q, updated !! q =
           if decide (q ∈ names) then Some (nextProgress sq prev q)
           else acc !! q.
Proof.
  induction names as [|x l IH]; intros acc Hl.
  - exists acc. split; [done|]. intros q. by rewrite decide_False by set_solver.
  - destruct (Hl x) as [lx Hx]; [set_solver|].
    cbn [fold_left]. rewrite (decrementStep_Some _ _ _ _ _ Hx).
    destruct (IH (<[x := nextProgress sq prev x]> acc)) as (u & Hfold & Hu).
    { intros n Hn. apply Hl. set_solver. }
    exists u. split; [done|]. intros q. rewrite Hu.
    destruct (decide (q ∈ l)) as [Hin|Hin].
    + by rewrite decide_True by (by apply elem_of_cons; right).
    + destruct (decide (q = x)) as [->|Hne].
      * rewrite decide_True by (by apply elem_of_cons; left).
        by rewrite lookup_insert_eq.
      * rewrite decide_False by (by intros [?|?]%elem_of_cons).
        by rewrite lookup_insert_ne.
Qed.

Lemma progressTick_paused s :
  decrementPaused s = true → progressTick s = Some s.
Proof. intros H. unfold progressTick. by rewrite H. Qed.

Lemma progressTick_running s :
  decrementPaused s = false →
  (∀ n, n ∈ allQueues s → is_Some (subQueues s !! n)) →
  ∃ updated,
    progressTick s = Some (set_progress updated s)
    ∧ ∀ q, updated !! q =
           if decide (q ∈ allQueues s)
           then Some (nextProgress (subQueues s) (progress s) q)
           else progress s !! q.
Proof.
  intros Hp Hl. unfold progressTick. rewrite Hp.
  destruct (decrement_fold (subQueues s) (progress s) (allQueues s) (progress s) Hl)
    as (u & Hfold & Hu).
  exists u. rewrite Hfold. done.
Qed.

(** [round2] and [decrement] do not depend on the representation of their
    argument, and the decrement keeps a value between 0 and itself. *)
Lemma round2_compat x y : x == y → round2 x = round2 y.
Proof.
  intros H. unfold round2, Math_round. apply Qred_complete.
  assert (Hf : Qfloor (x * 100 + (1 # 2)) = Qfloor (y * 100 + (1 # 2))).
  { apply Qfloor_comp. by rewrite H. }
  by rewrite Hf.
Qed.

Lemma decrement_compat x y : x == y → decrement x = decrement y.
Proof.
  intros H. unfold decrement. f_equal. apply round2_compat. by rewrite H.
Qed.

Lemma round2_upper x : round2 x <= x + (1 # 200).
Proof.
  unfold round2, Math_round. rewrite Qred_correct.
  pose proof (Qfloor_le (x * 100 + (1 # 2))) as H.
  apply Qle_shift_div_r; [reflexivity|]. lra.
Qed.

Lemma decrement_bounds p : 0 <= p → 0 <= decrement p ∧ decrement p <= p.
Proof.
  intros Hp. unfold decrement, Math_max.
  pose proof (round2_upper (p - 0.4)) as Hr.
  destruct (Qle_bool 0 (round2 (p - 0.4))) eqn:Hb.
  - apply Qle_bool_iff in Hb. split; [done|]. lra.
  - split; [apply Qle_refl | done].
Qed.

(** ** Completion and initialization *)

Lemma completionGuard_Some snap q l :
  subQueues snap !! q = Some l →
  completionGuard snap q = Some (completes snap q).
Proof. intros H. unfold completes, completionGuard. rewrite H. done. Qed.

Lemma initializationGuard_Some snap q l :
  subQueues snap !! q = Some l →
  initializationGuard snap q = Some (initializes snap q).
Proof. intros H. unfold initializes, initializationGuard. rewrite H. done. Qed.

Lemma completes_iff snap q :
  completes snap q = true ↔
  ∃ l p d, subQueues snap !! q = Some l ∧ progress snap !! q = Some p
    ∧ initialDuration snap !! q = Some d ∧ l ≠ [] ∧ p == 0 ∧ 0 < d.
Proof.
  unfold completes, completionGuard.
  destruct (subQueues snap !! q) as [l|]; simpl.
  2:{ split; [done | intros (? & ? & ? & ? & _); done]. }
  destruct (progress snap !! q) as [p|]; simpl.
  2:{ rewrite andb_false_r. split; [done | intros (? & ? & ? & _ & ? & _); done]. }
  destruct (initialDuration snap !! q) as [d|]; simpl.
  2:{ rewrite andb_false_r.
      split; [done | intros (? & ? & ? & _ & _ & ? & _); done]. }
  rewrite !andb_true_iff, Nat.ltb_lt, Qeq_bool_iff, Qltb_lt. split.
  - intros [[Hl Hp] Hd]. exists l, p, d. repeat split; auto.
    intros ->. simpl in Hl. lia.
  - intros (l' & p' & d' & [= <-] & [= <-] & [= <-] & Hl & Hp & Hd).
    repeat split; auto. destruct l; [done | simpl; lia].
Qed.

Lemma initializes_iff snap q :
  initializes snap q = true ↔
  ∃ l p d, subQueues snap !! q = Some l ∧ progress snap !! q = Some p
    ∧ initialDuration snap !! q = Some d ∧ l ≠ [] ∧ p == 0 ∧ d == 0.
Proof.
  unfold initializes, initializationGuard.
  destruct (subQueues snap !! q) as [l|]; simpl.
  2:{ split; [done | intros (? & ? & ? & ? & _); done]. }
  destruct (progress snap !! q) as [p|]; simpl.
  2:{ rewrite andb_false_r. split; [done | intros (? & ? & ? & _ & ? & _); done]. }
  destruct (initialDuration snap !! q) as [d|]; simpl.
  2:{ rewrite !andb_false_r.
      split; [done | intros (? & ? & ? & _ & _ & ? & _); done]. }
  rewrite !andb_true_iff, Nat.ltb_lt, !Qeq_bool_iff. split.
  - intros [Hl [Hp Hd]]. exists l, p, d. repeat split; auto.
    intros ->. simpl in Hl. lia.
  - intros (l' & p' & d' & [= <-] & [= <-] & [= <-] & Hl & Hp & Hd).
    repeat split; auto. destruct l; [done | simpl; lia].
Qed.

(** The two guards exclude each other on one render. *)
Lemma completes_not_initializes snap q :
  completes snap q = true → initializes snap q = false.
Proof.
  intros (l & p & d & Hl & Hp & Hd & _ & _ & Hpos)%completes_iff.
  apply not_true_iff_false.
  intros (l' & p' & d' & _ & _ & Hd' & _ & _ & Hz)%initializes_iff.
  rewrite Hd in Hd'. injection Hd' as <-. lra.
Qed.

Lemma bool_decide_cons_ne (q x : string) l :
  q ≠ x → bool_decide (q ∈ x :: l) = bool_decide (q ∈ l).
Proof.
  intros Hne. apply bool_decide_ext. rewrite elem_of_cons.
  split; [by intros [?|?] | by right].
Qed.

Lemma bool_decide_cons_eq (x : string) l : bool_decide (x ∈ x :: l) = true.
Proof. apply bool_decide_eq_true_2. by left. Qed.

Lemma completion_fold snap names : ∀ cur,
  NoDup names →
  (∀ n, n ∈ names → is_Some (subQueues snap !! n)) →
  (∀ n, n ∈ names → is_Some (subQueues cur !! n)) →
  ∃ sq' dur',
    fold_left (completionStep snap) names (Some cur) =
      Some (set_initialDuration dur' (set_subQueues sq' cur))
    ∧ (∀ q, sq' !! q =
            if bool_decide (q ∈ names) && completes snap q
            then tail <$> subQueues cur !! q else subQueues cur !! q)
    ∧ (∀ q, dur' !! q =
            if bool_decide (q ∈ names) && completes snap q
            then Some 0 else initialDuration cur !! q).
Proof.
  induction names as [|x l IH]; intros cur Hnd Hsnap Hcur.
  - exists (subQueues cur), (initialDuration cur).
    split; [simpl; f_equal; state_eq|]. split; intros q; done.
  - apply NoDup_cons in Hnd as [Hx Hnd].
    destruct (Hsnap x) as [lx Hlx]; [by left|].
    destruct (Hcur x) as [cx Hcx]; [by left|].
    cbn [fold_left]. unfold completionStep at 2. simpl.
    rewrite (completionGuard_Some _ _ _ Hlx). simpl.
    destruct (completes snap x) eqn:Hc.
    + rewrite Hcx. simpl.
      edestruct (IH (set_initialDuration (<[x:=0]> (initialDuration cur))
                   (set_subQueues (<[x:=tail cx]> (subQueues cur)) cur)))
        as (sq' & dur' & Hfold & Hsq & Hdur); [done| | |].
      { intros n Hn. apply Hsnap. by right. }
      { intros n Hn. simpl. destruct (decide (n = x)) as [->|Hne].
        - rewrite lookup_insert_eq. eauto.
        - rewrite lookup_insert_ne by done. apply Hcur. by right. }
      exists sq', dur'. split; [rewrite Hfold; f_equal; state_eq|].
      split; intros q; [rewrite Hsq | rewrite Hdur]; simpl;
        (destruct (decide (q = x)) as [->|Hne];
         [ rewrite (bool_decide_eq_false_2 _ Hx), bool_decide_cons_eq;
           simpl; rewrite Hc, lookup_insert_eq, ?Hcx; done
         | rewrite lookup_insert_ne, bool_decide_cons_ne by done; done ]).
    + edestruct (IH cur) as (sq' & dur' & Hfold & Hsq & Hdur); [done| | |].
      { intros n Hn. apply Hsnap. by right. }
      { intros n Hn. apply Hcur. by right. }
      exists sq', dur'. split; [done|].
      split; intros q; [rewrite Hsq | rewrite Hdur];
        (destruct (decide (q = x)) as [->|Hne];
         [ rewrite (bool_decide_eq_false_2 _ Hx), Hc, !andb_false_r; done
         | rewrite bool_decide_cons_ne by done; done ]).
Qed.

Lemma initializes_first snap q :
  initializes snap q = true → is_Some (firstOf snap q).
Proof.
  intros (l & p & d & Hl & _ & _ & Hne & _)%initializes_iff.
  unfold firstOf. rewrite Hl. destruct l; [done | simpl; eauto].
Qed.

Lemma initialization_fold snap names : ∀ cur,
  (∀ n, n ∈ names → is_Some (subQueues snap !! n)) →
  ∃ pr' dur',
    fold_left (initializationStep snap) names (Some cur) =
      Some (set_initialDuration dur' (set_progress pr' cur))
    ∧ (∀ q, pr' !! q =
            if bool_decide (q ∈ names) && initializes snap q
            then firstOf snap q else progress cur !! q)
    ∧ (∀ q, dur' !! q =
            if bool_decide (q ∈ names) && initializes snap q
            then firstOf snap q else initialDuration cur !! q).
Proof.
  induction names as [|x l IH]; intros cur Hsnap.
  - exists (progress cur), (initialDuration cur).
    split; [simpl; f_equal; state_eq|]. split; intros q; done.
  - destruct (Hsnap x) as [lx Hlx]; [by left|].
    cbn [fold_left]. unfold initializationStep at 2. simpl.
    rewrite (initializationGuard_Some _ _ _ Hlx). simpl.
    destruct (initializes snap x) eqn:Hc.
    + destruct (initializes_first _ _ Hc) as [h Hh].
      fold (firstOf snap x). rewrite Hh. simpl.
      edestruct (IH (set_initialDuration (<[x:=h]> (initialDuration cur))
                   (set_progress (<[x:=h]> (progress cur)) cur)))
        as (pr' & dur' & Hfold & Hpr & Hdur).
      { intros n Hn. apply Hsnap. by right. }
      exists pr', dur'. split; [rewrite Hfold; f_equal; state_eq|].
      split; intros q; [rewrite Hpr | rewrite Hdur]; simpl;
        (destruct (decide (q = x)) as [->|Hne];
         [ rewrite bool_decide_cons_eq, Hc, Hh, lookup_insert_eq;
           by destruct (bool_decide (x ∈ l))
         | rewrite lookup_insert_ne, bool_decide_cons_ne by done; done ]).
    + edestruct (IH cur) as (pr' & dur' & Hfold & Hpr & Hdur).
      { intros n Hn. apply Hsnap. by right. }
      exists pr', dur'. split; [done|].
      split; intros q; [rewrite Hpr | rewrite Hdur];
        (destruct (decide (q = x)) as [->|Hne];
         [ rewrite Hc, !andb_false_r; done
         | rewrite bool_decide_cons_ne by done; done ]).
Qed.

(** ** Rebalancing *)

Lemma filterM_Some {A} (p : A → option bool) l :
  (∀ x, x ∈ l → is_Some (p x)) →
  filterM p l = Some (List.filter (λ x, default false (p x)) l).
Proof.
  induction l as [|x l IH]; intros Hl; [done|].
  destruct (Hl x) as [b Hb]; [by left|].
  simpl. rewrite Hb, IH by (intros y Hy; apply Hl; by right). done.
Qed.

Lemma idle_filter snap g :
  (∀ n, n ∈ g → is_Some (subQueues snap !! n)) →
  filterM (idleGuard snap) g = Some (List.filter (isIdle snap) g).
Proof.
  intros Hg. apply filterM_Some. intros x [l Hl]%Hg.
  unfold idleGuard. rewrite Hl. simpl. eauto.
Qed.

Lemma busy_filter snap g :
  (∀ n, n ∈ g → is_Some (subQueues snap !! n)) →
  filterM (busyGuard snap) g = Some (List.filter (isBusy snap) g).
Proof.
  intros Hg. apply filterM_Some. intros x [l Hl]%Hg.
  unfold busyGuard. rewrite Hl. simpl. eauto.
Qed.

Lemma filterM_elem {A} (p : A → option bool) l r x :
  filterM p l = Some r → x ∈ r → x ∈ l ∧ p x = Some true.
Proof.
  revert r. induction l as [|y l IH]; intros r; simpl.
  - intros [= <-] Hx. inversion Hx.
  - destruct (p y) as [b|] eqn:Hb; [|done]. simpl.
    destruct (filterM p l) as [r'|]; [|done]. simpl. intros [= <-] Hx.
    destruct b.
    + apply elem_of_cons in Hx as [->|Hx]; [split; [by left | done]|].
      destruct (IH r' eq_refl Hx). split; [by right | done].
    + destruct (IH r' eq_refl Hx). split; [by right | done].
Qed.

Lemma isIdle_iff snap q :
  isIdle snap q = true ↔
  subQueues snap !! q = Some [] ∧ is0 (progress snap !! q) = true
  ∧ is0 (initialDuration snap !! q) = true ∧ q ∉ newlyCreatedQueues snap.
Proof.
  unfold isIdle, idleGuard. destruct (subQueues snap !! q) as [l|]; simpl.
  2:{ split; [done | by intros [? _]]. }
  rewrite !andb_true_iff, Nat.eqb_eq, negb_true_iff, bool_decide_eq_false.
  split.
  - intros [[[Hl ?] ?] ?]. destruct l; [done | simpl in Hl; lia].
  - intros ([= ->] & ? & ? & ?). done.
Qed.

Lemma isBusy_iff snap q :
  isBusy snap q = true ↔
  ∃ l, subQueues snap !! q = Some l ∧ (1 < length l)%nat
       ∧ q ∉ newlyCreatedQueues snap.
Proof.
  unfold isBusy, busyGuard. destruct (subQueues snap !! q) as [l|]; simpl.
  2:{ split; [done | by intros (? & ? & _)]. }
  rewrite !andb_true_iff, Nat.ltb_lt, negb_true_iff, bool_decide_eq_false.
  split.
  - intros [? ?]. eauto.
  - intros (l' & [= <-] & ? & ?). done.
Qed.

Lemma set_subQueues_id cur : set_subQueues (subQueues cur) cur = cur.
Proof. state_eq. Qed.

(** A pass either changes nothing or moves the last task of a queue that
    was busy in the render to a queue that was idle in the render. *)
Lemma redistributeTasks_cases snap g cur s' :
  redistributeTasks snap g cur = Some s' →
  s' = cur ∨
  ∃ i b lb t li, i ∈ g ∧ b ∈ g
    ∧ isIdle snap i = true ∧ isBusy snap b = true
    ∧ subQueues cur !! b = Some lb ∧ last lb = Some t
    ∧ <[b := removelast lb]> (subQueues cur) !! i = Some li
    ∧ s' = set_subQueues
             (<[i := t :: li]> (<[b := removelast lb]> (subQueues cur))) cur.
Proof.
  unfold redistributeTasks.
  destruct (filterM (idleGuard snap) g) as [idle|] eqn:Hi; [|done].
  destruct (filterM (busyGuard snap) g) as [busy|] eqn:Hb; [|done].
  cbn [mbind option_bind].
  destruct idle as [|i idle]; [intros [= <-]; by left|].
  destruct busy as [|b0 busy]; [intros [= <-]; by left|].
  destruct (busiest (b0 :: busy) (subQueues snap)) as [[b maxSum]|] eqn:Hbest;
    [|done].
  cbn [mbind option_bind].
  destruct (subQueues snap !! b) as [lb0|]; [|done]. cbn [mbind option_bind].
  destruct ((1 <? length lb0)%nat && f64_gt maxSum 0%float);
    [|intros [= <-]; by left].
  unfold moveLastTask.
  destruct (subQueues cur !! b) as [lb|] eqn:Hlb; [|done].
  cbn [mbind option_bind].
  destruct (last lb) as [t|] eqn:Ht.
  2:{ cbn [mbind option_bind]. intros [= <-]. left.
      by rewrite set_subQueues_id. }
  destruct (<[b:=removelast lb]> (subQueues cur) !! i) as [li|] eqn:Hli; [|done].
  cbn [mbind option_bind]. intros [= <-]. right.
  apply scanQueues_elem in Hbest as [Hbin _].
  destruct (filterM_elem _ _ _ i Hi) as [Hig Hiv]; [by left|].
  destruct (filterM_elem _ _ _ b Hb Hbin) as [Hbg Hbv].
  exists i, b, lb, t, li. repeat split; auto.
  - unfold isIdle. by rewrite Hiv.
  - unfold isBusy. by rewrite Hbv.
Qed.

Lemma idle_not_busy snap i b :
  isIdle snap i = true → isBusy snap b = true → i ≠ b.
Proof.
  intros (Hi & _)%isIdle_iff (l & Hl & Hlen & _)%isBusy_iff ->.
  rewrite Hi in Hl. injection Hl as <-. simpl in Hlen. lia.
Qed.

Lemma head_removelast {A} (l : list A) :
  (1 < length l)%nat → head (removelast l) = head l.
Proof. destruct l as [|a [|b l]]; simpl; [lia | lia | done]. Qed.

Lemma removelast_snoc_last {A} (l : list A) t :
  last l = Some t → l = removelast l ++ [t].
Proof.
  induction l as [|a l IH]; [done|]. destruct l as [|b l].
  - simpl. by intros [= ->].
  - intros H. change (last (a :: b :: l)) with (last (b :: l)) in H.
    change (removelast (a :: b :: l)) with (a :: removelast (b :: l)).
    simpl. f_equal. by apply IH.
Qed.

(** A pass on the render itself, with an idle and a busy queue, when the
    computed sums are numbers that are not negative. *)
Lemma redistributeTasks_moves s g i idle b0 busy :
  (∀ n, n ∈ g → is_Some (subQueues s !! n)) →
  (∀ n, n ∈ g → f64_nonneg (f64_load (subQueues s) n) = true) →
  List.filter (isIdle s) g = i :: idle →
  List.filter (isBusy s) g = b0 :: busy →
  ∃ b pre post lb t,
    b0 :: busy = pre ++ b :: post
    ∧ (∀ n, n ∈ b0 :: busy →
         f64_gt (f64_load (subQueues s) n) (f64_load (subQueues s) b) = false)
    ∧ (∀ n, n ∈ pre →
         f64_gt (f64_load (subQueues s) b) (f64_load (subQueues s) n) = true)
    ∧ subQueues s !! b = Some lb ∧ (1 < length lb)%nat ∧ last lb = Some t
    ∧ i ≠ b
    ∧ redistributeTasks s g s =
        Some (if f64_gt (f64_load (subQueues s) b) 0%float
              then set_subQueues
                     (<[i := [t]]> (<[b := removelast lb]> (subQueues s))) s
              else s).
Proof.
  intros Hg Hnum Hi Hb.
  assert (Hbusy : ∀ n, n ∈ b0 :: busy → isBusy s n = true ∧ n ∈ g).
  { intros n Hn. rewrite <- Hb in Hn.
    apply list_elem_of_In, filter_In in Hn as [Hn ?].
    split; [done | by apply list_elem_of_In]. }
  assert (Hidle : isIdle s i = true ∧ i ∈ g).
  { assert (Hn : i ∈ List.filter (isIdle s) g) by (rewrite Hi; by left).
    apply list_elem_of_In, filter_In in Hn as [Hn ?].
    split; [done | by apply list_elem_of_In]. }
  destruct (busiest_spec (b0 :: busy) (subQueues s))
    as (b & pre & post & Hbest & Heq & Hmax & Hfirst); [done| | |].
  { intros n [_ Hn]%Hbusy. by apply Hg. }
  { intros n [_ Hn]%Hbusy. by apply Hnum. }
  assert (Hbin : b ∈ b0 :: busy).
  { rewrite Heq. apply elem_of_app. right. by left. }
  destruct (Hbusy b Hbin) as [(lb & Hlb & Hlen & _)%isBusy_iff _].
  destruct (last lb) as [t|] eqn:Ht.
  2:{ apply last_None in Ht as ->. simpl in Hlen. lia. }
  destruct Hidle as [Hidle _].
  assert (Hib : i ≠ b) by (eapply idle_not_busy; eauto; by apply Hbusy).
  exists b, pre, post, lb, t. repeat split; auto.
  unfold redistributeTasks.
  rewrite (idle_filter _ _ Hg), (busy_filter _ _ Hg), Hi, Hb.
  cbn [mbind option_bind]. rewrite Hbest. cbn [mbind option_bind].
  rewrite Hlb. cbn [mbind option_bind].
  apply Nat.ltb_lt in Hlen. rewrite Hlen. simpl andb.
  destruct (f64_gt (f64_load (subQueues s) b) 0%float); [|done].
  unfold moveLastTask. rewrite Hlb. cbn [mbind option_bind]. rewrite Ht.
  rewrite lookup_insert_ne by done.
  apply isIdle_iff in Hidle as (-> & _). done.
Qed.

(** ** Queue names *)

Lemma string_app_inj_r (p x y : string) : p +:+ x = p +:+ y → x = y.
Proof. induction p as [|c p IH]; simpl; [done | intros [= H]; auto]. Qed.

Lemma queueNames_S prefix n :
  queueNames prefix (S n) = queueNames prefix n ++ [prefix +:+ pretty (n + 1)%nat].
Proof.
  unfold queueNames. rewrite seq_S, fmap_app.
  by rewrite (Nat.add_comm 1 n).
Qed.

Lemma queueNames_length prefix n : length (queueNames prefix n) = n.
Proof. unfold queueNames. by rewrite length_fmap, length_seq. Qed.

Lemma queueNames_elem prefix n q :
  q ∈ queueNames prefix n ↔ ∃ i, (1 ≤ i ≤ n)%nat ∧ q = prefix +:+ pretty i.
Proof.
  unfold queueNames. rewrite list_elem_of_fmap. split.
  - intros (i & -> & Hi%elem_of_seq). exists i. split; [lia | done].
  - intros (i & Hi & ->). exists i. split; [done|]. apply elem_of_seq. lia.
Qed.

Lemma queueNames_NoDup prefix n : NoDup (queueNames prefix n).
Proof.
  unfold queueNames. apply NoDup_fmap_2; [|apply NoDup_seq].
  intros i j H%string_app_inj_r. by apply (inj pretty).
Qed.

Lemma queueNames_fresh prefix n :
  prefix +:+ pretty (n + 1)%nat ∉ queueNames prefix n.
Proof.
  intros (i & Hi & H%string_app_inj_r)%queueNames_elem.
  apply (inj pretty) in H. lia.
Qed.

Lemma queueNames_disjoint n m q :
  q ∈ queueNames "high" n → q ∉ queueNames "regular" m.
Proof.
  intros (i & _ & ->)%queueNames_elem (j & _ & H)%queueNames_elem.
  simpl in H. discriminate.
Qed.

(** ** The invariant *)

Lemma Inv_NoDup s : Inv s → NoDup (allQueues s).
Proof.
  intros [(n & _ & Hh) (m & _ & Hr) _ _]. unfold allQueues. rewrite Hh, Hr.
  apply NoDup_app. split; [apply queueNames_NoDup|].
  split; [apply queueNames_disjoint | apply queueNames_NoDup].
Qed.

Lemma Inv_entries s :
  Inv s → ∀ q, q ∈ allQueues s → is_Some (subQueues s !! q).
Proof. intros Hs q (l & ? & ? & -> & _)%(inv_queues s Hs). eauto. Qed.

(** [queueOK] only looks at the three entries of the queue. *)
Lemma queueOK_ext s s' q :
  subQueues s' !! q = subQueues s !! q →
  progress s' !! q = progress s !! q →
  initialDuration s' !! q = initialDuration s !! q →
  queueOK s q → queueOK s' q.
Proof.
  intros H1 H2 H3 (l & p & d & ? & ? & ? & ?). exists l, p, d.
  rewrite H1, H2, H3. done.
Qed.

(** Appending non-negative values to a queue keeps it in order. *)
Lemma queueOK_append s s' q l extra :
  subQueues s !! q = Some l →
  subQueues s' !! q = Some (l ++ extra) →
  progress s' !! q = progress s !! q →
  initialDuration s' !! q = initialDuration s !! q →
  Forall (Qle 0) extra →
  queueOK s q → queueOK s' q.
Proof.
  intros Hl H1 H2 H3 Hex (l0 & p & d & Hl0 & ? & ? & ? & ? & Hall & Hhd).
  rewrite Hl in Hl0. injection Hl0 as <-.
  exists (l ++ extra), p, d. rewrite H2, H3. repeat split; auto.
  - by apply Forall_app.
  - intros (h & t & -> & ?)%Hhd. exists h, (t ++ extra). done.
Qed.

Lemma initialState_Inv : Inv initialState.
Proof.
  split.
  - exists 1%nat. split; [lia | by vm_compute].
  - exists 4%nat. split; [lia | by vm_compute].
  - intros q Hq. exists [], 0, 0.
    assert (Hcases : q = "high1" ∨ q = "regular1" ∨ q = "regular2"
                     ∨ q = "regular3" ∨ q = "regular4").
    { unfold allQueues in Hq. simpl in Hq.
      repeat (apply elem_of_cons in Hq as [->|Hq]; [tauto|]). inversion Hq. }
    repeat split; try (by intros ?%Qlt_irrefl); try apply Qle_refl; auto;
      destruct Hcases as [->|[->|[->|[->| ->]]]]; reflexivity.
  - constructor.
Qed.

(** *** Handlers and timers keep the invariant *)

Lemma groupOf_all s ty q : q ∈ groupOf s ty → q ∈ allQueues s.
Proof.
  unfold allQueues. rewrite elem_of_app. destruct ty; simpl; auto.
Qed.

Lemma Inv_group_nonempty s ty : Inv s → groupOf s ty ≠ [].
Proof.
  intros [(n & Hn & Hh) (m & Hm & Hr) _ _] H.
  apply (f_equal length) in H.
  destruct ty; simpl in H; rewrite ?Hh, ?Hr, queueNames_length in H;
    simpl in H; lia.
Qed.

Lemma enqueueTask_Inv t s : generated t → Inv s → Inv (enqueueTask t s).
Proof.
  intros (n & Hn & Hv) [Hh Hr Hq Hi]. split; try done.
  simpl. apply Forall_app. split; [done|]. constructor; [|done].
  rewrite Hv. unfold Qle. simpl. lia.
Qed.

Lemma unpause_Inv s : Inv s → Inv (unpause s).
Proof. intros [Hh Hr Hq Hi]. split; done. Qed.

Lemma graceExpired_Inv name s : Inv s → Inv (graceExpired name s).
Proof. intros [Hh Hr Hq Hi]. split; done. Qed.

Lemma admitTask_Inv s s' : Inv s → admitTask s = Some s' → Inv s'.
Proof.
  intros Hs Hadm. destruct (queue s) as [|task rest] eqn:Hq.
  { rewrite (admitTask_empty _ Hq) in Hadm. by injection Hadm as <-. }
  destruct (admitTask_cons s task rest Hq)
    as (m & lm & _ & Hm & _ & Hres).
  { by apply Inv_group_nonempty. }
  { intros n Hn. eapply Inv_entries, groupOf_all; eauto. }
  rewrite Hres in Hadm. injection Hadm as <-.
  pose proof Hs as [Hh Hr Hqs Hi]. rewrite Hq in Hi.
  apply Forall_cons in Hi as [Hv Hi].
  split; try done. intros q Hin. specialize (Hqs q Hin).
  destruct (decide (q = m)) as [->|Hne].
  - apply (queueOK_append s _ m lm [value task]); simpl;
      [done | by rewrite lookup_insert_eq | done | done
      | by constructor | done].
  - apply (queueOK_ext s); simpl; [by rewrite lookup_insert_ne | done..].
Qed.

Lemma progressTick_Inv s s' : Inv s → progressTick s = Some s' → Inv s'.
Proof.
  intros Hs Htick. destruct (decrementPaused s) eqn:Hp.
  { rewrite (progressTick_paused _ Hp) in Htick. by injection Htick as <-. }
  destruct (progressTick_running s Hp (Inv_entries s Hs)) as (u & Hres & Hu).
  rewrite Hres in Htick. injection Htick as <-.
  pose proof Hs as [Hh Hr Hqs Hi]. split; try done.
  intros q Hin. destruct (Hqs q Hin) as (l & p & d & Hl & Hpq & Hd & Hp0 & Hpd & Hall & Hhd).
  exists l, (nextProgress (subQueues s) (progress s) q), d.
  simpl. rewrite Hu, decide_True by done.
  split; [done|]. split; [done|]. split; [done|].
  assert (Hnext : 0 <= nextProgress (subQueues s) (progress s) q
                  ∧ nextProgress (subQueues s) (progress s) q <= p).
  { unfold nextProgress. rewrite Hpq.
    destruct ((0 <? length (default [] (subQueues s !! q)))%nat && Qltb 0 p).
    - by apply decrement_bounds.
    - split; [apply Qle_refl | done]. }
  destruct Hnext. repeat split; auto. lra.
Qed.

Lemma leastLoaded_elem names sq m :
  leastLoaded names sq = Some m → m ∈ names.
Proof.
  unfold leastLoaded.
  destruct (scanQueues f64_lt names sq) as [[m' ms]|] eqn:H; [|done].
  intros [= <-]. by apply scanQueues_elem in H as [? _].
Qed.

Lemma registerQueue_other s name q :
  q ≠ name → queueOK s q → queueOK (registerQueue name s) q.
Proof.
  intros Hne. apply queueOK_ext; simpl; by rewrite lookup_insert_ne.
Qed.

Lemma registerQueue_new s name : queueOK (registerQueue name s) name.
Proof.
  exists [], 0, 0. simpl. rewrite !lookup_insert_eq.
  repeat split; auto; try apply Qle_refl. by intros ?%Qlt_irrefl.
Qed.

Lemma addHighPriorityQueue_Inv s : Inv s → Inv (addHighPriorityQueue s).
Proof.
  intros [(n & Hn & Hh) (m & Hm & Hr) Hqs Hi].
  set (name := "high" +:+ pretty (length (highPriorityQueues s) + 1)%nat).
  assert (Hname : name = "high" +:+ pretty (n + 1)%nat).
  { unfold name. by rewrite Hh, queueNames_length. }
  split; try done.
  - exists (S n). split; [lia|]. simpl. fold name.
    by rewrite Hh, queueNames_S, Hname.
  - exists m. done.
  - intros q Hq. unfold allQueues in Hq. simpl in Hq. fold name in Hq.
    unfold queueOK. simpl. fold name. fold (registerQueue name s).
    change (queueOK (registerQueue name s) q).
    destruct (decide (q = name)) as [->|Hne]; [apply registerQueue_new|].
    apply registerQueue_other; [done|]. apply Hqs. unfold allQueues.
    rewrite !elem_of_app in Hq. rewrite elem_of_app.
    destruct Hq as [[?| ->%list_elem_of_singleton]|?]; auto. done.
Qed.

Lemma addRegularPriorityQueue_Inv s : Inv s → Inv (addRegularPriorityQueue s).
Proof.
  intros [(n & Hn & Hh) (m & Hm & Hr) Hqs Hi].
  set (name := "regular" +:+ pretty (length (regularPriorityQueues s) + 1)%nat).
  assert (Hname : name = "regular" +:+ pretty (m + 1)%nat).
  { unfold name. by rewrite Hr, queueNames_length. }
  split; try done.
  - exists n. done.
  - exists (S m). split; [lia|]. simpl. fold name.
    by rewrite Hr, queueNames_S, Hname.
  - intros q Hq. unfold allQueues in Hq. simpl in Hq. fold name in Hq.
    change (queueOK (registerQueue name s) q).
    destruct (decide (q = name)) as [->|Hne]; [apply registerQueue_new|].
    apply registerQueue_other; [done|]. apply Hqs. unfold allQueues.
    rewrite !elem_of_app in Hq. rewrite elem_of_app.
    destruct Hq as [?|[?| ->%list_elem_of_singleton]]; auto. done.
Qed.

(** Dropping the last queue [r] of a group [rest ++ [r]]: every other
    queue keeps its entries, except that the target gets non-negative
    values appended. *)
Lemma dropQueue_queueOK rest r s s' q :
  dropQueue (rest ++ [r]) s = Some s' →
  queueOK s r →
  (∀ n, n ∈ rest → n ≠ r) →
  q ≠ r → queueOK s q → queueOK s' q.
Proof.
  unfold dropQueue. rewrite last_snoc. cbn [mbind option_bind].
  destruct (shrinkSubQueues (rest ++ [r]) r s) as [newQueues|] eqn:Hshrink;
    [|done].
  cbn [mbind option_bind]. intros [= <-] Hr Hrest Hq HOK.
  unfold shrinkSubQueues in Hshrink. rewrite removelast_last in Hshrink.
  destruct ((0 <? length (default [] (subQueues s !! r)))%nat
            || bool_decide (is_Some (currentTaskOf s r))).
  - destruct (leastLoaded rest (subQueues s)) as [target|] eqn:Htarget; [|done].
    cbn [mbind option_bind] in Hshrink.
    destruct (subQueues s !! target) as [l|] eqn:Hl; [|done].
    cbn [mbind option_bind] in Hshrink. injection Hshrink as <-.
    destruct (decide (q = target)) as [->|Hne].
    + eapply (queueOK_append s _ target l); simpl;
        [done | | by rewrite lookup_delete_ne | by rewrite lookup_delete_ne | | done].
      * by rewrite lookup_delete_ne, lookup_insert_eq.
      * destruct Hr as (lr & pr & dr & Hlr & Hpr & _ & _ & _ & Hall & _).
        apply Forall_app. split; [|by rewrite Hlr].
        unfold currentTaskOf. rewrite Hpr.
        destruct (Qltb 0 pr) eqn:Hpos; [|constructor].
        apply Qltb_lt in Hpos. constructor; [lra | constructor].
    + apply (queueOK_ext s); simpl; [|by rewrite lookup_delete_ne..|done].
      by rewrite lookup_delete_ne, lookup_insert_ne.
  - injection Hshrink as <-.
    apply (queueOK_ext s); simpl; [by rewrite lookup_delete_ne..|done].
Qed.

Lemma removeHighPriorityQueue_Inv s s' :
  Inv s → removeHighPriorityQueue s = Some s' → Inv s'.
Proof.
  intros Hs. pose proof Hs as [(n & Hn & Hh) (m & Hm & Hr) Hqs Hi].
  unfold removeHighPriorityQueue.
  destruct (length (highPriorityQueues s) <=? 1)%nat eqn:Hlen.
  { by intros [= <-]. }
  apply Nat.leb_gt in Hlen. rewrite Hh, queueNames_length in Hlen.
  destruct n as [|n]; [lia|]. rewrite Hh, queueNames_S, removelast_last.
  set (r := "high" +:+ pretty (n + 1)%nat).
  destruct (dropQueue (queueNames "high" n ++ [r]) s) as [s1|] eqn:Hdrop; [|done].
  cbn [mbind option_bind]. intros [= <-].
  assert (Hframe : regularPriorityQueues s1 = regularPriorityQueues s
                   ∧ queue s1 = queue s).
  { unfold dropQueue in Hdrop. rewrite last_snoc in Hdrop.
    cbn [mbind option_bind] in Hdrop.
    destruct (shrinkSubQueues _ r s); [|done]. by injection Hdrop as <-. }
  destruct Hframe as [Hr1 Hq1].
  split; simpl.
  - exists n. split; [lia | done].
  - exists m. by rewrite Hr1.
  - intros q Hq. unfold allQueues in Hq. simpl in Hq. rewrite Hr1, Hr in Hq.
    change (queueOK s1 q).
    assert (Hqr : q ≠ r).
    { intros ->. apply elem_of_app in Hq as [Hq|Hq].
      - by apply queueNames_fresh in Hq.
      - revert Hq. apply queueNames_disjoint with (n := S n).
        rewrite queueNames_S. apply elem_of_app. right. by left. }
    eapply dropQueue_queueOK; [exact Hdrop | | | done |].
    + apply Hqs. unfold allQueues. rewrite Hh, queueNames_S, !elem_of_app.
      left. right. by left.
    + intros k Hk ->. by apply queueNames_fresh in Hk.
    + apply Hqs. unfold allQueues. rewrite Hh, Hr, queueNames_S, !elem_of_app.
      rewrite elem_of_app in Hq. tauto.
  - by rewrite Hq1.
Qed.

Lemma removeRegularPriorityQueue_Inv s s' :
  Inv s → removeRegularPriorityQueue s = Some s' → Inv s'.
Proof.
  intros Hs. pose proof Hs as [(n & Hn & Hh) (m & Hm & Hr) Hqs Hi].
  unfold removeRegularPriorityQueue.
  destruct (length (regularPriorityQueues s) <=? 1)%nat eqn:Hlen.
  { by intros [= <-]. }
  apply Nat.leb_gt in Hlen. rewrite Hr, queueNames_length in Hlen.
  destruct m as [|m]; [lia|]. rewrite Hr, queueNames_S, removelast_last.
  set (r := "regular" +:+ pretty (m + 1)%nat).
  destruct (dropQueue (queueNames "regular" m ++ [r]) s) as [s1|] eqn:Hdrop;
    [|done].
  cbn [mbind option_bind]. intros [= <-].
  assert (Hframe : highPriorityQueues s1 = highPriorityQueues s
                   ∧ queue s1 = queue s).
  { unfold dropQueue in Hdrop. rewrite last_snoc in Hdrop.
    cbn [mbind option_bind] in Hdrop.
    destruct (shrinkSubQueues _ r s); [|done]. by injection Hdrop as <-. }
  destruct Hframe as [Hh1 Hq1].
  split; simpl.
  - exists n. by rewrite Hh1.
  - exists m. split; [lia | done].
  - intros q Hq. unfold allQueues in Hq. simpl in Hq. rewrite Hh1, Hh in Hq.
    change (queueOK s1 q).
    assert (Hqr : q ≠ r).
    { intros ->. apply elem_of_app in Hq as [Hq|Hq].
      - revert Hq. intros Hq. eapply queueNames_disjoint; [exact Hq|].
        rewrite (queueNames_S "regular" m). apply elem_of_app. right. by left.
      - by apply queueNames_fresh in Hq. }
    eapply dropQueue_queueOK; [exact Hdrop | | | done |].
    + apply Hqs. unfold allQueues. rewrite Hr, queueNames_S, !elem_of_app.
      right. right. by left.
    + intros k Hk ->. by apply queueNames_fresh in Hk.
    + apply Hqs. unfold allQueues. rewrite Hh, Hr, queueNames_S, !elem_of_app.
      rewrite elem_of_app in Hq. tauto.
  - by rewrite Hq1.
Qed.

(** *** Effects keep the invariant *)

Lemma Rel_refl s q : Rel s s q.
Proof. split; [done | by left]. Qed.

Lemma Rel_HeadKept snap cur q : Rel snap cur q → HeadKept snap cur q.
Proof.
  intros [_ [[Hsq _] | [Hc _]]] Hi.
  - unfold firstOf. by rewrite Hsq.
  - apply completes_not_initializes in Hc. congruence.
Qed.

Lemma Forall_tail_Q (P : Q → Prop) l : Forall P l → Forall P (tail l).
Proof. destruct l; [done | by intros [_ ?]%Forall_cons]. Qed.

Lemma completionEffect_step s :
  Inv s →
  ∃ s1, completionEffect s s = Some s1
    ∧ (∀ q, q ∈ allQueues s → queueOK s1 q)
    ∧ (∀ q, Rel s s1 q)
    ∧ s1 = set_initialDuration (initialDuration s1)
             (set_subQueues (subQueues s1) s).
Proof.
  intros Hs. unfold completionEffect.
  destruct (completion_fold s (allQueues s) s (Inv_NoDup s Hs)
              (Inv_entries s Hs) (Inv_entries s Hs))
    as (sq' & dur' & Hfold & Hsq & Hdur).
  eexists. split; [exact Hfold|]. split; [|split; [|done]].
  - intros q Hq. destruct (inv_queues s Hs q Hq)
      as (l & p & d & Hl & Hp & Hd & Hp0 & Hpd & Hall & Hhd).
    unfold queueOK. simpl. rewrite Hsq, Hdur, Hp, Hl, Hd.
    rewrite bool_decide_eq_true_2 by done. simpl.
    destruct (completes s q) eqn:Hc.
    + apply completes_iff in Hc
        as (l' & p' & d' & Hl' & Hp' & Hd' & Hne & Hpz & Hdpos).
      rewrite Hp in Hp'. injection Hp' as <-.
      exists (tail l), p, 0. simpl. repeat split; auto.
      * lra.
      * by apply Forall_tail_Q.
      * by intros ?%Qlt_irrefl.
    + exists l, p, d. done.
  - intros q. split; [done|]. simpl. rewrite Hsq, Hdur.
    destruct (bool_decide (q ∈ allQueues s) && completes s q) eqn:Hb.
    + apply andb_true_iff in Hb as [_ Hc]. right. done.
    + by left.
Qed.

Lemma redistributeTasks_step snap g cur cur' :
  redistributeTasks snap g cur = Some cur' →
  (∀ q, q ∈ g → Rel snap cur q) →
  (∀ q, q ∈ g → queueOK cur q) →
  (∀ q, queueOK cur q → queueOK cur' q)
  ∧ (∀ q, q ∈ g → HeadKept snap cur' q)
  ∧ (∀ q, q ∉ g → subQueues cur' !! q = subQueues cur !! q)
  ∧ cur' = set_subQueues (subQueues cur') cur.
Proof.
  intros Hred HRel HOK.
  apply redistributeTasks_cases in Hred
    as [->|(i & b & lb & t & li & Hi & Hb & Hidle & Hbusy & Hlb & Ht & Hli & ->)].
  { repeat split; auto.
    - intros q Hq. by apply Rel_HeadKept, HRel.
    - by rewrite set_subQueues_id. }
  pose proof (idle_not_busy _ _ _ Hidle Hbusy) as Hib.
  rewrite lookup_insert_ne in Hli by done.
  pose proof Hidle as (Hsi & _)%isIdle_iff.
  pose proof Hbusy as (ls & Hsb & Hlen & _)%isBusy_iff.
  (* the idle queue is still empty *)
  assert (Hli' : li = []).
  { destruct (HRel i Hi) as [_ [[Hsame _] | [Hc _]]].
    - rewrite Hsame, Hsi in Hli. by injection Hli as <-.
    - apply completes_iff in Hc as (l & ? & ? & Hl & _ & _ & Hne & _).
      congruence. }
  subst li.
  pose proof (removelast_snoc_last _ _ Ht) as Hsplit.
  destruct (HOK b Hb) as (lb' & pb & db & Hlb' & Hpb & Hdb & Hpb0 & Hpbd & Hallb & Hhdb).
  rewrite Hlb in Hlb'. injection Hlb' as <-.
  assert (Hallb' : Forall (Qle 0) (removelast lb) ∧ 0 <= t).
  { rewrite Hsplit in Hallb. apply Forall_app in Hallb as [? Ht0].
    split; [done|]. by apply Forall_cons in Ht0 as [? _]. }
  destruct Hallb' as [Hallr Ht0].
  split; [|split; [|split]].
  - intros q HqOK. destruct (decide (q = i)) as [->|Hqi].
    + destruct HqOK as (l & p & d & Hl & Hp & Hd & Hp0 & Hpd & Hall & Hhd).
      rewrite Hli in Hl. injection Hl as <-.
      exists [t], p, d. simpl. rewrite lookup_insert_eq.
      repeat split; auto. intros (h & tl & ? & _)%Hhd. done.
    + destruct (decide (q = b)) as [->|Hqb].
      * exists (removelast lb), pb, db. simpl.
        rewrite lookup_insert_ne, lookup_insert_eq by done.
        repeat split; auto. intros Hpos.
        destruct (Hhdb Hpos) as (h & tl & -> & Hh).
        destruct (HRel b Hb) as [_ [[Hsame _] | [_ [_ Hzero]]]].
        -- rewrite Hlb, Hsb in Hsame. injection Hsame as <-.
           destruct tl as [|h' tl]; [simpl in Hlen; lia|].
           exists h, (removelast (h' :: tl)). done.
        -- rewrite Hdb in Hzero. injection Hzero as ->.
           by apply Qlt_irrefl in Hpos.
      * revert HqOK. apply queueOK_ext; simpl; [|done..].
        by rewrite !lookup_insert_ne.
  - intros q Hq Hinit. unfold firstOf. simpl.
    destruct (decide (q = i)) as [->|Hqi].
    { apply initializes_iff in Hinit as (l & ? & ? & Hl & _ & _ & Hne & _).
      congruence. }
    rewrite lookup_insert_ne by done.
    destruct (decide (q = b)) as [->|Hqb].
    + rewrite lookup_insert_eq, Hsb. simpl.
      destruct (HRel b Hb) as [_ [[Hsame _] | [Hc _]]].
      * rewrite Hlb, Hsb in Hsame. injection Hsame as <-.
        by apply head_removelast.
      * apply completes_not_initializes in Hc. congruence.
    + rewrite lookup_insert_ne by done.
      by apply (Rel_HeadKept snap cur q (HRel q Hq)).
  - intros q Hq. simpl.
    rewrite !lookup_insert_ne; [done | by intros -> | by intros ->].
  - done.
Qed.

Lemma rebalanceEffect_step snap cur cur' :
  Inv snap →
  rebalanceEffect snap cur = Some cur' →
  (∀ q, q ∈ allQueues snap → Rel snap cur q) →
  (∀ q, q ∈ allQueues snap → queueOK cur q) →
  (∀ q, q ∈ allQueues snap → queueOK cur' q)
  ∧ (∀ q, q ∈ allQueues snap → HeadKept snap cur' q)
  ∧ cur' = set_subQueues (subQueues cur') cur.
Proof.
  intros Hsnap Hreb HRel HOK. unfold rebalanceEffect in Hreb.
  destruct (redistributeTasks snap (highPriorityQueues snap) cur) as [c1|] eqn:H1;
    [|done].
  cbn [mbind option_bind] in Hreb.
  assert (Hdisj : ∀ q, q ∈ highPriorityQueues snap →
                       q ∉ regularPriorityQueues snap).
  { destruct Hsnap as [(n & _ & ->) (m & _ & ->) _ _].
    apply queueNames_disjoint. }
  destruct (redistributeTasks_step _ _ _ _ H1) as (HOK1 & HK1 & Hsame1 & Hf1).
  { intros q Hq. apply HRel, elem_of_app. by left. }
  { intros q Hq. apply HOK, elem_of_app. by left. }
  assert (Hpd1 : progress c1 = progress cur
                 ∧ initialDuration c1 = initialDuration cur).
  { by rewrite Hf1. }
  destruct Hpd1 as [Hp1 Hd1].
  destruct (redistributeTasks_step _ _ _ _ Hreb) as (HOK2 & HK2 & Hsame2 & Hf2).
  { intros q Hq. assert (Hnh : q ∉ highPriorityQueues snap).
    { intros Hh. by apply (Hdisj q Hh). }
    destruct (HRel q) as [Hp Hcases]; [apply elem_of_app; by right|].
    split; [by rewrite Hp1|]. rewrite Hsame1, Hd1 by done. done. }
  { intros q Hq. apply HOK1, HOK, elem_of_app. by right. }
  split; [|split].
  - intros q Hq. by apply HOK2, HOK1, HOK.
  - intros q [Hq|Hq]%elem_of_app.
    + intros Hinit. unfold firstOf. rewrite Hsame2 by (by apply Hdisj).
      by apply (HK1 q Hq).
    + by apply HK2.
  - rewrite Hf2 at 1. rewrite Hf1 at 1. state_eq.
Qed.

Lemma initializationEffect_step snap cur :
  (∀ q, q ∈ allQueues snap → is_Some (subQueues snap !! q)) →
  (∀ q, q ∈ allQueues snap → queueOK cur q) →
  (∀ q, q ∈ allQueues snap → HeadKept snap cur q) →
  ∃ cur', initializationEffect snap cur = Some cur'
    ∧ (∀ q, q ∈ allQueues snap → queueOK cur' q)
    ∧ cur' = set_initialDuration (initialDuration cur')
               (set_progress (progress cur') cur).
Proof.
  intros Hent HOK HK. unfold initializationEffect.
  destruct (initialization_fold snap (allQueues snap) cur Hent)
    as (pr' & dur' & Hfold & Hpr & Hdur).
  eexists. split; [exact Hfold|]. split; [|done].
  intros q Hq. destruct (HOK q Hq)
    as (l & p & d & Hl & Hp & Hd & Hp0 & Hpd & Hall & Hhd).
  unfold queueOK. simpl. rewrite Hpr, Hdur, Hl, Hp, Hd.
  rewrite bool_decide_eq_true_2 by done. simpl.
  destruct (initializes snap q) eqn:Hinit; [|exists l, p, d; done].
  destruct (initializes_first _ _ Hinit) as [h Hh].
  pose proof (HK q Hq Hinit) as Hfirst. rewrite Hh in Hfirst.
  unfold firstOf in Hfirst. rewrite Hl in Hfirst. simpl in Hfirst.
  destruct l as [|h' t]; [done|]. injection Hfirst as ->.
  apply Forall_cons in Hall as [Hh0 Ht].
  exists (h :: t), h, h. rewrite Hh.
  do 4 (split; [done|]). split; [apply Qle_refl|].
  split; [by constructor|]. intros _. by exists h, t.
Qed.

Lemma Inv_frame s s' :
  Inv s →
  highPriorityQueues s' = highPriorityQueues s →
  regularPriorityQueues s' = regularPriorityQueues s →
  queue s' = queue s →
  (∀ q, q ∈ allQueues s → queueOK s' q) →
  Inv s'.
Proof.
  intros [Hh Hr Hq Hi] Eh Er Eq HOK. split.
  - by rewrite Eh.
  - by rewrite Er.
  - intros q. unfold allQueues. rewrite Eh, Er. apply HOK.
  - by rewrite Eq.
Qed.

Lemma completionEffect_Inv s s' :
  Inv s → completionEffect s s = Some s' → Inv s'.
Proof.
  intros Hs Hc. destruct (completionEffect_step s Hs) as (s1 & H1 & HOK & _ & Hf).
  rewrite H1 in Hc. injection Hc as <-.
  apply (Inv_frame s); auto; by rewrite Hf.
Qed.

Lemma rebalanceEffect_Inv s s' :
  Inv s → rebalanceEffect s s = Some s' → Inv s'.
Proof.
  intros Hs Hr.
  destruct (rebalanceEffect_step s s s' Hs Hr) as (HOK & _ & Hf).
  { intros q _. apply Rel_refl. }
  { apply (inv_queues s Hs). }
  apply (Inv_frame s); auto; by rewrite Hf.
Qed.

Lemma initializationEffect_Inv s s' :
  Inv s → initializationEffect s s = Some s' → Inv s'.
Proof.
  intros Hs Hi.
  destruct (initializationEffect_step s s) as (s1 & H1 & HOK & Hf).
  { apply (Inv_entries s Hs). }
  { apply (inv_queues s Hs). }
  { intros q _. apply Rel_HeadKept, Rel_refl. }
  rewrite H1 in Hi. injection Hi as <-.
  apply (Inv_frame s); auto; by rewrite Hf.
Qed.

Lemma runEffects_Inv s s' : Inv s → runEffects s = Some s' → Inv s'.
Proof.
  intros Hs Hrun. unfold runEffects in Hrun.
  destruct (completionEffect_step s Hs) as (s1 & H1 & HOK1 & HRel1 & Hf1).
  rewrite H1 in Hrun. cbn [mbind option_bind] in Hrun.
  destruct (rebalanceEffect s s1) as [s2|] eqn:H2; [|done].
  cbn [mbind option_bind] in Hrun.
  destruct (rebalanceEffect_step s s1 s2 Hs H2) as (HOK2 & HK2 & Hf2); auto.
  destruct (initializationEffect_step s s2) as (s3 & H3 & HOK3 & Hf3); auto.
  { apply (Inv_entries s Hs). }
  rewrite H3 in Hrun. injection Hrun as <-.
  apply (Inv_frame s); auto; rewrite Hf3; simpl; rewrite Hf2; simpl;
    by rewrite Hf1.
Qed.

Lemma exec_Inv e s s' : Inv s → enabled e → exec e s = Some s' → Inv s'.
Proof.
  intros Hs He. destruct e; simpl.
  - intros [= <-]. by apply enqueueTask_Inv.
  - by apply admitTask_Inv.
  - intros [= <-]. by apply unpause_Inv.
  - intros [= <-]. by apply addHighPriorityQueue_Inv.
  - by apply removeHighPriorityQueue_Inv.
  - intros [= <-]. by apply addRegularPriorityQueue_Inv.
  - by apply removeRegularPriorityQueue_Inv.
  - intros [= <-]. by apply graceExpired_Inv.
  - by apply progressTick_Inv.
  - by apply completionEffect_Inv.
  - by apply rebalanceEffect_Inv.
  - by apply initializationEffect_Inv.
  - by apply runEffects_Inv.
Qed.

Lemma reachable_Inv s : reachable s → Inv s.
Proof.
  induction 1 as [|s e s' _ IH He Hstep]; [apply initialState_Inv|].
  by apply (exec_Inv e s).
Qed.

(** *** No operation throws on a state that satisfies the invariant *)

Lemma redistributeTasks_total snap g cur :
  (∀ n, n ∈ g → is_Some (subQueues snap !! n)) →
  (∀ n, n ∈ g → is_Some (subQueues cur !! n)) →
  is_Some (redistributeTasks snap g cur).
Proof.
  intros Hsnap Hcur. unfold redistributeTasks.
  rewrite (idle_filter _ _ Hsnap), (busy_filter _ _ Hsnap).
  cbn [mbind option_bind].
  destruct (List.filter (isIdle snap) g) as [|i idle] eqn:Hi; [eauto|].
  destruct (List.filter (isBusy snap) g) as [|b0 busy] eqn:Hb; [eauto|].
  assert (Hbusy : ∀ n, n ∈ b0 :: busy → n ∈ g).
  { intros n Hn. rewrite <- Hb in Hn.
    apply list_elem_of_In, filter_In in Hn as [Hn _]. by apply list_elem_of_In. }
  assert (Hidle : i ∈ g).
  { assert (Hn : i ∈ List.filter (isIdle snap) g) by (rewrite Hi; by left).
    apply list_elem_of_In, filter_In in Hn as [Hn _]. by apply list_elem_of_In. }
  destruct (busiest_pick (b0 :: busy) (subQueues snap))
    as (b & Hbest & Hbin); [done| |].
  { intros n Hn. by apply Hsnap, Hbusy. }
  assert (Hbg : b ∈ g) by (by apply Hbusy).
  rewrite Hbest. cbn [mbind option_bind].
  destruct (Hsnap b Hbg) as [ls ->]. cbn [mbind option_bind].
  destruct ((1 <? length ls)%nat
            && f64_gt (f64_load (subQueues snap) b) 0%float); [|eauto].
  unfold moveLastTask. destruct (Hcur b Hbg) as [lb ->].
  cbn [mbind option_bind]. destruct (last lb) as [t|]; [|eauto].
  destruct (decide (i = b)) as [->|Hne].
  - rewrite lookup_insert_eq. eauto.
  - rewrite lookup_insert_ne by done. destruct (Hcur i Hidle) as [li ->]. eauto.
Qed.

Lemma queueOK_entry s q : queueOK s q → is_Some (subQueues s !! q).
Proof. intros (l & ? & ? & -> & _). eauto. Qed.

Lemma rebalanceEffect_total snap cur :
  (∀ n, n ∈ allQueues snap → is_Some (subQueues snap !! n)) →
  (∀ n, n ∈ allQueues snap → is_Some (subQueues cur !! n)) →
  is_Some (rebalanceEffect snap cur).
Proof.
  intros Hsnap Hcur. unfold rebalanceEffect.
  destruct (redistributeTasks_total snap (highPriorityQueues snap) cur)
    as [c1 H1].
  { intros n Hn. apply Hsnap, elem_of_app. by left. }
  { intros n Hn. apply Hcur, elem_of_app. by left. }
  rewrite H1. cbn [mbind option_bind].
  apply redistributeTasks_total.
  { intros n Hn. apply Hsnap, elem_of_app. by right. }
  intros n Hn.
  apply redistributeTasks_cases in H1
    as [->|(i & b & lb & t & li & _ & _ & _ & _ & Hlb & _ & Hli & ->)].
  { apply Hcur, elem_of_app. by right. }
  simpl. destruct (decide (n = i)) as [->|?];
    [rewrite lookup_insert_eq; eauto | rewrite lookup_insert_ne by done].
  destruct (decide (n = b)) as [->|?];
    [rewrite lookup_insert_eq; eauto | rewrite lookup_insert_ne by done].
  apply Hcur, elem_of_app. by right.
Qed.

Lemma dropQueue_total rest r s :
  rest ≠ [] →
  (∀ n, n ∈ rest → is_Some (subQueues s !! n)) →
  is_Some (dropQueue (rest ++ [r]) s).
Proof.
  intros Hne Hrest. unfold dropQueue. rewrite last_snoc.
  cbn [mbind option_bind]. unfold shrinkSubQueues. rewrite removelast_last.
  destruct ((0 <? length (default [] (subQueues s !! r)))%nat
            || bool_decide (is_Some (currentTaskOf s r))); [|simpl; eauto].
  destruct (leastLoaded_pick rest (subQueues s) Hne Hrest) as (m & -> & Hm).
  cbn [mbind option_bind]. destruct (Hrest m Hm) as [l ->]. simpl. eauto.
Qed.

Lemma exec_total e s : Inv s → is_Some (exec e s).
Proof.
  intros Hs. pose proof (Inv_entries s Hs) as Hent.
  pose proof Hs as [(n & Hn & Hh) (m & Hm & Hr) Hqs Hi].
  destruct e; simpl; eauto.
  - destruct (queue s) as [|task rest] eqn:Hq.
    + rewrite (admitTask_empty _ Hq). eauto.
    + destruct (admitTask_cons s task rest Hq)
        as (? & ? & _ & _ & _ & ->); eauto.
      * by apply Inv_group_nonempty.
      * intros k Hk. eapply Hent, groupOf_all; eauto.
  - unfold removeHighPriorityQueue.
    destruct (length (highPriorityQueues s) <=? 1)%nat eqn:Hlen; [eauto|].
    apply Nat.leb_gt in Hlen. rewrite Hh, queueNames_length in Hlen.
    destruct n as [|[|n]]; [lia..|]. rewrite Hh, (queueNames_S _ (S n)).
    destruct (dropQueue_total (queueNames "high" (S n))
                ("high" +:+ pretty (S n + 1)%nat) s) as [s1 ->].
    { intros H%(f_equal length). rewrite queueNames_length in H. done. }
    { intros k Hk. apply Hent. unfold allQueues.
      rewrite Hh, (queueNames_S _ (S n)), !elem_of_app. auto. }
    simpl. eauto.
  - unfold removeRegularPriorityQueue.
    destruct (length (regularPriorityQueues s) <=? 1)%nat eqn:Hlen; [eauto|].
    apply Nat.leb_gt in Hlen. rewrite Hr, queueNames_length in Hlen.
    destruct m as [|[|m]]; [lia..|]. rewrite Hr, (queueNames_S _ (S m)).
    destruct (dropQueue_total (queueNames "regular" (S m))
                ("regular" +:+ pretty (S m + 1)%nat) s) as [s1 ->].
    { intros H%(f_equal length). rewrite queueNames_length in H. done. }
    { intros k Hk. apply Hent. unfold allQueues.
      rewrite Hr, (queueNames_S _ (S m)), !elem_of_app. auto. }
    simpl. eauto.
  - destruct (decrementPaused s) eqn:Hp.
    + rewrite (progressTick_paused _ Hp). eauto.
    + destruct (progressTick_running s Hp Hent) as (u & -> & _). eauto.
  - destruct (completionEffect_step s Hs) as (s1 & -> & _). eauto.
  - by apply rebalanceEffect_total.
  - destruct (initializationEffect_step s s) as (s1 & -> & _); eauto.
    intros q _. apply Rel_HeadKept, Rel_refl.
  - unfold runEffects.
    destruct (completionEffect_step s Hs) as (s1 & -> & HOK1 & HRel1 & Hf1).
    cbn [mbind option_bind].
    destruct (rebalanceEffect_total s s1) as [s2 H2]; [done | |].
    { intros k Hk. by apply queueOK_entry, HOK1. }
    rewrite H2. cbn [mbind option_bind].
    destruct (rebalanceEffect_step s s1 s2 Hs H2) as (HOK2 & HK2 & Hf2); auto.
    destruct (initializationEffect_step s s2) as (s3 & -> & _); eauto.
Qed.

(** *** The rebalancing updater after the completion updater

    When all effects of one render run, the updater queued by
    [redistributeTasks] is applied after those of the completion effect.
    The task it moves is the last task of the list the render showed for
    the busiest queue, a list of more than one task; when the completion
    updater has removed the head of that list in between, the queue may
    hold no other task. *)

Lemma last_tail {A} (l : list A) : (1 < length l)%nat → last (tail l) = last l.
Proof. destruct l as [|a [|b l]]; simpl; [lia | lia | done]. Qed.

Lemma redistributeTasks_in_batch snap g cur cur' :
  redistributeTasks snap g cur = Some cur' →
  (∀ q, q ∈ g → Rel snap cur q) →
  cur' = cur
  ∨ ∃ i b ls lb t,
      isIdle snap i = true ∧ isBusy snap b = true
      ∧ subQueues snap !! b = Some ls ∧ (1 < length ls)%nat
      ∧ last ls = Some t
      ∧ subQueues cur !! b = Some lb ∧ (lb = ls ∨ lb = tail ls)
      ∧ cur' = set_subQueues
                 (<[i := [t]]> (<[b := removelast lb]> (subQueues cur))) cur.
Proof.
  intros [->|(i & b & lb & t & li & Hi & Hb & Hidle & Hbusy & Hlb & Ht & Hli & ->)]
    %redistributeTasks_cases HRel; [by left|]. right.
  pose proof (idle_not_busy _ _ _ Hidle Hbusy) as Hib.
  rewrite lookup_insert_ne in Hli by done.
  pose proof Hidle as (Hsi & _)%isIdle_iff.
  pose proof Hbusy as (ls & Hsb & Hlen & _)%isBusy_iff.
  assert (li = []) as ->.
  { destruct (HRel i Hi) as [_ [[Hsame _] | [Hc _]]].
    - rewrite Hsame, Hsi in Hli. by injection Hli as <-.
    - apply completes_iff in Hc as (l & ? & ? & Hl & _ & _ & Hne & _).
      congruence. }
  assert (Hcases : lb = ls ∨ lb = tail ls).
  { destruct (HRel b Hb) as [_ [[Hsame _] | [_ [Htail _]]]].
    - left. rewrite Hlb, Hsb in Hsame. by injection Hsame.
    - right. rewrite Hlb, Hsb in Htail. by injection Htail. }
  exists i, b, ls, lb, t. do 4 (split; [done|]).
  split; [|done].
  destruct Hcases as [-> | ->]; [done | by rewrite <- last_tail].
Qed.

(** ** The values the component holds *)

Lemma Qfloor_half k : Qfloor (inject_Z k + (1 # 2)) = k.
Proof.
  pose proof (Qfloor_le (inject_Z k + (1 # 2))) as Hle.
  pose proof (Qlt_floor (inject_Z k + (1 # 2))) as Hlt.
  set (f := Qfloor (inject_Z k + (1 # 2))) in *. clearbody f.
  unfold Qle, Qlt, Qplus, inject_Z in Hle, Hlt. simpl in Hle, Hlt. lia.
Qed.

Lemma round2_grid k : round2 (inject_Z k / 5) == inject_Z k / 5.
Proof.
  unfold round2, Math_round. rewrite Qred_correct.
  assert (Hf : Qfloor (inject_Z k / 5 * 100 + (1 # 2)) = (20 * k)%Z).
  { rewrite <- (Qfloor_half (20 * k)). apply Qfloor_comp.
    rewrite inject_Z_mult. change (inject_Z 20) with 20. field. }
  rewrite Hf, inject_Z_mult. change (inject_Z 20) with 20. field.
Qed.

Lemma Math_max_compat a b : a == b → Math_max 0 a == Math_max 0 b.
Proof.
  intros H. unfold Math_max.
  destruct (Qle_bool 0 a) eqn:Ha, (Qle_bool 0 b) eqn:Hb; try done.
  - apply Qle_bool_iff in Ha. rewrite H in Ha. apply Qle_bool_iff in Ha.
    congruence.
  - apply Qle_bool_iff in Hb. rewrite <- H in Hb. apply Qle_bool_iff in Hb.
    congruence.
Qed.

Lemma onGrid_0 : onGrid 0.
Proof. by exists 0%Z. Qed.

Lemma onGrid_compat a b : a == b → onGrid a → onGrid b.
Proof. intros H [k Hk]. exists k. by rewrite <- H. Qed.

Lemma onGrid_generated t : generated t → onGrid (value t).
Proof.
  intros (n & _ & ->). exists (5 * n)%Z. rewrite inject_Z_mult.
  change (inject_Z 5) with 5. field.
Qed.

(** On the grid the rounding to two decimals rounds nothing. *)
Lemma decrement_grid p :
  onGrid p → decrement p == Math_max 0 (p - (2 # 5)) ∧ onGrid (decrement p).
Proof.
  intros [k Hk].
  assert (Hstep : p - 0.4 == inject_Z (k - 2) / 5).
  { rewrite Hk. unfold Zminus. rewrite inject_Z_plus, inject_Z_opp.
    change (inject_Z 2) with 2. field. }
  assert (Hr : round2 (p - 0.4) == inject_Z (k - 2) / 5).
  { rewrite (round2_compat _ _ Hstep). apply round2_grid. }
  split.
  - unfold decrement. apply Math_max_compat. rewrite Hr, <- Hstep. lra.
  - unfold decrement, Math_max.
    destruct (Qle_bool 0 (round2 (p - 0.4))); [|apply onGrid_0].
    by exists (k - 2)%Z.
Qed.

(** Every value of a reachable state satisfies a property that holds of 0
    and of the generated task values and that the decrement keeps. *)
Section values.
Context (V : Q → Prop).
Hypothesis V_0 : V 0.
Hypothesis V_generated : ∀ t, generated t → V (value t).
Hypothesis V_decrement : ∀ p, V p → V (decrement p).

Lemma initialState_Values : Values V initialState.
Proof.
  split.
  - intros q l (x & [= -> ->] & _)%elem_of_list_to_map_2%list_elem_of_fmap.
    constructor.
  - intros q l (x & [= -> ->] & _)%elem_of_list_to_map_2%list_elem_of_fmap.
    apply V_0.
  - intros q l (x & [= -> ->] & _)%elem_of_list_to_map_2%list_elem_of_fmap.
    apply V_0.
  - constructor.
Qed.

Lemma enqueueTask_Values t s : generated t → Values V s → Values V (enqueueTask t s).
Proof.
  intros Ht [H1 H2 H3 H4]. split; simpl; try done.
  apply Forall_app. split; [done|]. constructor; [|constructor].
  by apply V_generated.
Qed.

Lemma admitTask_Values s s' : Inv s → Values V s → admitTask s = Some s' → Values V s'.
Proof.
  intros Hs Hg. pose proof Hg as [H1 H2 H3 H4].
  destruct (queue s) as [|task rest] eqn:Hq.
  { rewrite (admitTask_empty _ Hq). by intros [= <-]. }
  destruct (admitTask_cons s task rest Hq)
    as (m & lm & _ & Hm & _ & ->).
  { by apply Inv_group_nonempty. }
  { intros n Hn. eapply Inv_entries, groupOf_all; eauto. }
  intros [= <-]. apply Forall_cons in H4 as [Ht Hrest].
  split; simpl; try done.
  apply map_Forall_insert_2; [|done].
  apply Forall_app. split; [by apply (H1 m)|]. by repeat constructor.
Qed.

Lemma registerQueue_Values name s : Values V s → Values V (registerQueue name s).
Proof.
  intros [H1 H2 H3 H4]. split; simpl; try done;
    apply map_Forall_insert_2; try done; apply V_0.
Qed.

Lemma dropQueue_Values group s s' : Values V s → dropQueue group s = Some s' → Values V s'.
Proof.
  intros [H1 H2 H3 H4]. unfold dropQueue.
  destruct (last group) as [r|]; [|done]. cbn [mbind option_bind].
  destruct (shrinkSubQueues group r s) as [newQueues|] eqn:Hshrink; [|done].
  cbn [mbind option_bind]. intros [= <-].
  split; simpl; try done; try (by apply map_Forall_delete).
  unfold shrinkSubQueues in Hshrink.
  destruct ((0 <? length (default [] (subQueues s !! r)))%nat
            || bool_decide (is_Some (currentTaskOf s r))).
  2:{ injection Hshrink as <-. by apply map_Forall_delete. }
  destruct (leastLoaded (removelast group) (subQueues s)) as [m|]; [|done].
  cbn [mbind option_bind] in Hshrink.
  destruct (subQueues s !! m) as [l|] eqn:Hl; [|done].
  injection Hshrink as <-.
  apply map_Forall_delete, map_Forall_insert_2; [|done].
  apply Forall_app. split; [by apply (H1 m)|].
  apply Forall_app. split.
  - unfold currentTaskOf. destruct (progress s !! r) as [p|] eqn:Hp; [|constructor].
    destruct (Qltb 0 p); repeat constructor. by apply (H2 r).
  - destruct (subQueues s !! r) as [lr|] eqn:Hlr; [|constructor].
    by apply (H1 r).
Qed.

Lemma progressTick_Values s s' : Inv s → Values V s → progressTick s = Some s' → Values V s'.
Proof.
  intros Hs Hg. pose proof Hg as [H1 H2 H3 H4].
  destruct (decrementPaused s) eqn:Hp.
  { rewrite (progressTick_paused _ Hp). by intros [= <-]. }
  destruct (progressTick_running s Hp (Inv_entries s Hs)) as (u & -> & Hu).
  intros [= <-]. split; simpl; try done.
  intros q p. rewrite Hu. destruct (decide (q ∈ allQueues s)); [|apply H2].
  intros [= <-]. unfold nextProgress.
  destruct (progress s !! q) as [p|] eqn:Hq; [|apply V_0].
  destruct ((0 <? length (default [] (subQueues s !! q)))%nat && Qltb 0 p);
    [|apply V_0].
  by apply V_decrement, (H2 q).
Qed.

Lemma Forall_tail_P {A} (P : A → Prop) l : Forall P l → Forall P (tail l).
Proof. destruct 1; [constructor | done]. Qed.

Lemma completionEffect_Values snap cur s' :
  NoDup (allQueues snap) →
  (∀ n, n ∈ allQueues snap → is_Some (subQueues snap !! n)) →
  (∀ n, n ∈ allQueues snap → is_Some (subQueues cur !! n)) →
  Values V cur → completionEffect snap cur = Some s' → Values V s'.
Proof.
  intros Hnd Hsnap Hcur [H1 H2 H3 H4]. unfold completionEffect.
  destruct (completion_fold snap (allQueues snap) cur Hnd Hsnap Hcur)
    as (sq' & dur' & -> & Hsq & Hdur).
  intros [= <-]. split; simpl; try done.
  - intros q l. rewrite Hsq.
    destruct (bool_decide (q ∈ allQueues snap) && completes snap q);
      [|apply H1].
    destruct (subQueues cur !! q) as [l'|] eqn:Hl; [|done].
    intros [= <-]. by apply Forall_tail_P, (H1 q).
  - intros q d. rewrite Hdur.
    destruct (bool_decide (q ∈ allQueues snap) && completes snap q);
      [|apply H3].
    intros [= <-]. apply V_0.
Qed.

Lemma Forall_removelast {A} (P : A → Prop) l :
  Forall P l → Forall P (removelast l).
Proof.
  induction 1 as [|x l Hx Hl IH]; [constructor|].
  simpl. destruct l; [constructor|]. by constructor.
Qed.

Lemma redistributeTasks_Values snap g cur s' :
  Values V cur → redistributeTasks snap g cur = Some s' → Values V s'.
Proof.
  intros Hcur [->|(i & b & lb & t & li & _ & _ & _ & _ & Hlb & Hlast
                   & Hli & ->)]%redistributeTasks_cases; [done|].
  destruct Hcur as [H1 H2 H3 H4]. split; simpl; try done.
  assert (Hb : map_Forall (λ _ l, Forall V l)
                 (<[b := removelast lb]> (subQueues cur))).
  { apply map_Forall_insert_2; [|done]. by apply Forall_removelast, (H1 b). }
  apply map_Forall_insert_2; [|done]. constructor; [|by apply (Hb i)].
  pose proof (H1 b lb Hlb) as Hall. rewrite Forall_forall in Hall.
  apply Hall. rewrite (removelast_snoc_last lb t Hlast).
  apply elem_of_app. right. by left.
Qed.

Lemma rebalanceEffect_Values snap cur s' :
  Values V cur → rebalanceEffect snap cur = Some s' → Values V s'.
Proof.
  intros Hcur. unfold rebalanceEffect.
  destruct (redistributeTasks snap (highPriorityQueues snap) cur) as [c1|] eqn:H1;
    [|done].
  cbn [mbind option_bind].
  apply (redistributeTasks_Values snap (regularPriorityQueues snap) c1).
  by apply (redistributeTasks_Values snap (highPriorityQueues snap) cur).
Qed.

Lemma initializationEffect_Values snap cur s' :
  (∀ n, n ∈ allQueues snap → is_Some (subQueues snap !! n)) →
  Values V snap → Values V cur → initializationEffect snap cur = Some s' → Values V s'.
Proof.
  intros Hent Hsnap [H1 H2 H3 H4]. unfold initializationEffect.
  destruct (initialization_fold snap (allQueues snap) cur Hent)
    as (pr' & dur' & -> & Hpr & Hdur).
  assert (Hfirst : ∀ q h, firstOf snap q = Some h → V h).
  { intros q h. unfold firstOf.
    destruct (subQueues snap !! q) as [l|] eqn:Hl; [|done].
    destruct l as [|h' l]; [done|]. intros [= <-].
    pose proof (val_pending V snap Hsnap q _ Hl) as Hall.
    by apply Forall_cons in Hall as [? _]. }
  intros [= <-]. split; simpl; try done.
  - intros q p. rewrite Hpr.
    destruct (bool_decide (q ∈ allQueues snap) && initializes snap q);
      [apply Hfirst | apply H2].
  - intros q p. rewrite Hdur.
    destruct (bool_decide (q ∈ allQueues snap) && initializes snap q);
      [apply Hfirst | apply H3].
Qed.

Lemma runEffects_Values s s' : Inv s → Values V s → runEffects s = Some s' → Values V s'.
Proof.
  intros Hs Hg. unfold runEffects.
  destruct (completionEffect s s) as [s1|] eqn:H1; [|done].
  cbn [mbind option_bind].
  destruct (rebalanceEffect s s1) as [s2|] eqn:H2; [|done].
  cbn [mbind option_bind].
  apply initializationEffect_Values; [apply (Inv_entries s Hs) | done |].
  apply (rebalanceEffect_Values s s1); [|done].
  by apply (completionEffect_Values s s);
    [apply Inv_NoDup | apply Inv_entries | apply Inv_entries | |].
Qed.

Lemma exec_Values e s s' :
  Inv s → Values V s → enabled e → exec e s = Some s' → Values V s'.
Proof.
  intros Hs Hg He. destruct e; simpl.
  - intros [= <-]. by apply enqueueTask_Values.
  - by apply admitTask_Values.
  - intros [= <-]. by destruct Hg.
  - intros [= <-]. by destruct (registerQueue_Values
      ("high" +:+ pretty (length (highPriorityQueues s) + 1)%nat) s Hg).
  - unfold removeHighPriorityQueue.
    destruct (length (highPriorityQueues s) <=? 1)%nat; [by intros [= <-]|].
    destruct (dropQueue (highPriorityQueues s) s) as [s1|] eqn:Hd; [|done].
    intros [= <-]. by destruct (dropQueue_Values _ _ _ Hg Hd).
  - intros [= <-]. by destruct (registerQueue_Values
      ("regular" +:+ pretty (length (regularPriorityQueues s) + 1)%nat) s Hg).
  - unfold removeRegularPriorityQueue.
    destruct (length (regularPriorityQueues s) <=? 1)%nat; [by intros [= <-]|].
    destruct (dropQueue (regularPriorityQueues s) s) as [s1|] eqn:Hd; [|done].
    intros [= <-]. by destruct (dropQueue_Values _ _ _ Hg Hd).
  - intros [= <-]. by destruct Hg.
  - by apply progressTick_Values.
  - by apply completionEffect_Values;
      [apply Inv_NoDup | apply Inv_entries | apply Inv_entries |].
  - by apply rebalanceEffect_Values.
  - by apply initializationEffect_Values; [apply Inv_entries | |].
  - by apply runEffects_Values.
Qed.

Lemma reachable_Values s : reachable s → Values V s.
Proof.
  induction 1 as [|s e s' Hs IH He Hstep]; [apply initialState_Values|].
  by apply (exec_Values e s); [apply reachable_Inv | | |].
Qed.
End values.

Lemma reachable_Grid s : reachable s → Grid s.
Proof.
  intros Hs.
  destruct (reachable_Values onGrid onGrid_0 onGrid_generated
              (λ p Hp, proj2 (decrement_grid p Hp)) s Hs) as [H1 H2 H3 H4].
  by split.
Qed.

(** ** The computed sums of a reachable state *)

Lemma range_covered (P : Z → bool) (n : nat) :
  forallb P (Z.of_nat <$> seq 0 n) = true →
  ∀ v, (0 ≤ v < Z.of_nat n)%Z → P v = true.
Proof.
  intros Hall v Hv. rewrite forallb_forall in Hall. apply Hall.
  apply list_elem_of_In, list_elem_of_fmap. exists (Z.to_nat v).
  split; [lia|]. apply elem_of_seq. lia.
Qed.

Lemma isValue_0 : isValue 0.
Proof. exists 0%Z. split; [lia | reflexivity]. Qed.

Lemma isValue_generated t : generated t → isValue (value t).
Proof.
  intros (n & Hn & ->). exists (5 * n)%Z. split; [lia|].
  rewrite <- (Qcanon.Qred_identity (inject_Z n)) by apply Z.gcd_1_r.
  apply Qred_complete. rewrite inject_Z_mult. change (inject_Z 5) with 5.
  field.
Qed.

Lemma isValue_decrement p : isValue p → isValue (decrement p).
Proof.
  intros (k & Hk & ->).
  assert (Hp : Qred (inject_Z k / 5) - 0.4 == inject_Z (k - 2) / 5).
  { rewrite Qred_correct. unfold Zminus.
    rewrite inject_Z_plus, inject_Z_opp. change (inject_Z 2) with 2. field. }
  assert (Hr : round2 (Qred (inject_Z k / 5) - 0.4)
               = Qred (inject_Z (k - 2) / 5)).
  { rewrite (round2_compat _ _ Hp). unfold round2 at 1.
    rewrite <- Qcanon.Qred_involutive. apply Qred_complete.
    exact (round2_grid (k - 2)). }
  unfold decrement, Math_max. rewrite Hr.
  destruct (Qle_bool 0 (Qred (inject_Z (k - 2) / 5))) eqn:Hb;
    [|apply isValue_0].
  exists (k - 2)%Z. split; [|done].
  apply Qle_bool_iff in Hb. rewrite Qred_correct in Hb.
  unfold Qle, Qdiv, Qmult, Qinv, inject_Z in Hb. simpl in Hb. lia.
Qed.

Lemma isValue_f64_nonneg v : isValue v → f64_nonneg (f64_of_Q v) = true.
Proof.
  intros (k & Hk & ->). revert k Hk.
  apply (range_covered
           (λ k, f64_nonneg (f64_of_Q (Qred (inject_Z k / 5)))) 1000).
  vm_compute. reflexivity.
Qed.

(** Every sum a selection loop computes on a reachable state is a number
    that is not negative. *)
Lemma reachable_sums_nonneg s n :
  reachable s → f64_nonneg (f64_load (subQueues s) n) = true.
Proof.
  intros Hs.
  pose proof (reachable_Values isValue isValue_0 isValue_generated
                isValue_decrement s Hs) as [Hpend _ _ _].
  unfold f64_load. destruct (subQueues s !! n) as [l|] eqn:Hl; [|reflexivity].
  apply f64_sumOf_nonneg. eapply Forall_impl; [exact (Hpend n l Hl)|].
  apply isValue_f64_nonneg.
Qed.

(** * Properties of the specification *)

Lemma execAll_reachable es : ∀ s s',
  reachable s → Forall enabled es → execAll es s = Some s' → reachable s'.
Proof.
  induction es as [|e es IH]; intros s s' Hs Hen; simpl.
  - by intros [= <-].
  - apply Forall_cons in Hen as [He Hes].
    destruct (exec e s) as [s1|] eqn:H1; [|done]. simpl.
    apply IH; [|done]. by apply (reachable_step s e).
Qed.

Lemma mkTask_generated v ty : (0 ≤ v < 200)%Z → generated (mkTask v ty).
Proof. intros Hv. exists v. done. Qed.

Lemma stateAfter_reachable es :
  Forall enabled es → is_Some (execAll es initialState) →
  reachable (stateAfter es).
Proof.
  intros Hen [s Hs]. unfold stateAfter. rewrite Hs. simpl.
  by apply (execAll_reachable es initialState); [apply reachable_init|..].
Qed.

Lemma Forall_enabled_app es1 es2 :
  Forall enabled es1 → Forall enabled es2 → Forall enabled (es1 ++ es2).
Proof. intros. by apply Forall_app. Qed.

Lemma Forall_enabled_ticks n : Forall enabled (replicate n ProgressTick).
Proof. induction n; simpl; by constructor. Qed.

Lemma Forall_enabled_tickCycle n : Forall enabled (tickCycle n).
Proof. induction n; simpl; repeat constructor. done. Qed.


(** C1 as stated fails.  In [tieState] the pending values of [high1],
    [20; 0.6; 1; 0.6; 1], and those of [high2], [20; 1.2; 2], have the same
    sum 23.2, and [high1] is first in group order; the sums the code
    computes, adding doubles from left to right, are 23.200000000000003 and
    23.2, and the task of 7 goes to [high2]. *)
Lemma admitTask_equal_sums_second_queue :
  ∃ s s',
    execAll tieScenario initialState = Some s
    ∧ queue s = [mkTask 7 high]
    ∧ highPriorityQueues s = ["high1"; "high2"]
    ∧ subQueues s !! "high1" = Some [20; 3 # 5; 1; 3 # 5; 1]
    ∧ subQueues s !! "high2" = Some [20; 6 # 5; 2]
    ∧ sumOf [20; 3 # 5; 1; 3 # 5; 1] == sumOf [20; 6 # 5; 2]
    ∧ f64_lt (f64_load (subQueues s) "high2") (f64_load (subQueues s) "high1")
      = true
    ∧ admitTask s = Some s'
    ∧ subQueues s' !! "high1" = Some [20; 3 # 5; 1; 3 # 5; 1]
    ∧ subQueues s' !! "high2" = Some [20; 6 # 5; 2; 7].
Proof.
  exists tieState.
  exists (default initialState (admitTask tieState)).
  do 9 (split; [vm_compute; reflexivity|]). vm_compute; reflexivity.
Qed.

(** C1, amended.  [admitTask] with an empty main queue changes nothing and
    does not fail.  Otherwise, in a reachable state, it succeeds: it removes
    the head task from the main queue, takes the group by the type of the
    task (the high-priority group for a high task, the regular group for a
    normal one), appends the value of the task to the pending list of a
    queue [m] of that group, and sets [decrementPaused]; no queue of the
    group has a smaller computed sum than [m] and every queue before [m] in
    group order has a strictly larger one (equal computed sums go to the
    first), the computed sum being the one [reduce] gives on binary64
    numbers.  After admitting 10 and then 50 into a group of two empty
    queues the first queue holds [10] and the second [50]. *)
Theorem admitTask_least_loaded s task rest :
  reachable s → queue s = task :: rest →
  (∃ group m lm pre post,
      group = match type task with
              | high => highPriorityQueues s
              | normal => regularPriorityQueues s
              end
      ∧ group = pre ++ m :: post
      ∧ subQueues s !! m = Some lm
      ∧ (∀ n, n ∈ group →
           f64_lt (f64_load (subQueues s) n) (f64_load (subQueues s) m) = false)
      ∧ (∀ n, n ∈ pre →
           f64_lt (f64_load (subQueues s) m) (f64_load (subQueues s) n) = true)
      ∧ admitTask s =
          Some (set_decrementPaused true
                 (set_queue rest
                   (set_subQueues (<[m := lm ++ [value task]]> (subQueues s)) s))))
  ∧ (∀ s0, queue s0 = [] → admitTask s0 = Some s0)
  ∧ (∀ s0 a b t1 t2 rest0,
       a ≠ b → queue s0 = t1 :: t2 :: rest0 → type t2 = type t1 →
       groupOf s0 (type t1) = [a; b] →
       subQueues s0 !! a = Some [] → subQueues s0 !! b = Some [] →
       value t1 = 10 → value t2 = 50 →
       ∃ s1 s2, admitTask s0 = Some s1 ∧ admitTask s1 = Some s2
         ∧ subQueues s2 !! a = Some [10] ∧ subQueues s2 !! b = Some [50]
         ∧ queue s2 = rest0).
Proof.
  intros Hs Hq. pose proof (reachable_Inv s Hs) as Hinv.
  split; [|split; [apply admitTask_empty | apply admitTask_two_empty]].
  destruct (leastLoaded_spec (groupOf s (type task)) (subQueues s))
    as (m & pre & post & Hleast & Heq & Hmin & Hfirst).
  { by apply Inv_group_nonempty. }
  { intros n Hn. eapply Inv_entries, groupOf_all; eauto. }
  { intros n _. by apply reachable_sums_nonneg. }
  destruct (Inv_entries s Hinv m) as [lm Hlm].
  { apply (groupOf_all s (type task)). rewrite Heq. apply elem_of_app.
    right. by left. }
  exists (groupOf s (type task)), m, lm, pre, post.
  split; [by destruct (type task)|]. do 4 (split; [done|]).
  unfold admitTask. rewrite Hq, Hleast. simpl. rewrite Hlm. reflexivity.
Qed.

Lemma admitTask_least_loaded_witness :
  reachable tieState
  ∧ queue tieState = [mkTask 7 high]
  ∧ ∃ group m lm pre post,
      group = highPriorityQueues tieState
      ∧ group = pre ++ m :: post
      ∧ subQueues tieState !! m = Some lm.
Proof.
  assert (Hs : reachable tieState).
  { apply stateAfter_reachable; [|vm_compute; eauto].
    unfold tieScenario.
    repeat (apply Forall_enabled_app;
            [first [apply Forall_enabled_ticks | apply Forall_enabled_tickCycle
                   | repeat constructor; by apply mkTask_generated]|]).
    repeat constructor; by apply mkTask_generated. }
  assert (Hq : queue tieState = mkTask 7 high :: [])
    by (vm_compute; reflexivity).
  split; [exact Hs|]. split; [exact Hq|].
  destruct (admitTask_least_loaded tieState _ _ Hs Hq)
    as ((group & m & lm & pre & post & Hgroup & Heq & Hlm & _) & _).
  exists group, m, lm, pre, post.
  split; [exact Hgroup|]. split; [exact Heq | exact Hlm].
Defined.

(** What the remove functions do with the work of the removed queue [r]:
    the target, the least loaded of the remaining queues, receives the
    remaining progress of [r] (when positive) followed by the whole pending
    list of [r], its head included. *)
Lemma dropQueue_appends_all_pending rest r s lr :
  rest ≠ [] →
  (∀ n, n ∈ rest → is_Some (subQueues s !! n)) →
  subQueues s !! r = Some lr →
  lr ≠ [] ∨ is_Some (currentTaskOf s r) →
  ∃ target l s',
    target ∈ rest ∧ subQueues s !! target = Some l
    ∧ leastLoaded rest (subQueues s) = Some target
    ∧ dropQueue (rest ++ [r]) s = Some s'
    ∧ subQueues s' =
        delete r (<[target := l ++ option_list (currentTaskOf s r) ++ lr]>
                    (subQueues s))
    ∧ progress s' = delete r (progress s)
    ∧ initialDuration s' = delete r (initialDuration s).
Proof.
  intros Hne Hrest Hlr Hwork.
  destruct (leastLoaded_pick rest (subQueues s) Hne Hrest)
    as (m & Hleast & Hm).
  destruct (Hrest m Hm) as [l Hl].
  eexists m, l, _. split; [done|]. split; [done|]. split; [done|].
  unfold dropQueue. rewrite last_snoc. cbn [mbind option_bind].
  unfold shrinkSubQueues. rewrite removelast_last, Hlr. simpl default.
  assert (Hcond : (0 <? length lr)%nat
                  || bool_decide (is_Some (currentTaskOf s r)) = true).
  { destruct Hwork as [Hl0|Hc].
    - destruct lr; [done | done].
    - rewrite (bool_decide_eq_true_2 _ Hc). apply orb_true_r. }
  rewrite Hcond, Hleast. cbn [mbind option_bind]. rewrite Hl.
  cbn [mbind option_bind]. done.
Qed.

(** C2 (the code at the failing input).  Shrinking the group
    [[high1; high2]] while [high2] has progress 5 on its head task 9 and the
    tasks [10; 20] waiting behind it appends [5; 9; 10; 20] to [high1]: the
    task in flight is queued again both as its remainder 5 and as its full
    value 9. *)
Theorem shrink_requeues_task_in_flight_twice :
  ∃ s s',
    execAll shrinkScenario initialState = Some s
    ∧ highPriorityQueues s = ["high1"; "high2"]
    ∧ subQueues s !! "high1" = Some [100]
    ∧ subQueues s !! "high2" = Some [9; 10; 20]
    ∧ progress s !! "high2" = Some 5
    ∧ initialDuration s !! "high2" = Some 9
    ∧ removeHighPriorityQueue s = Some s'
    ∧ highPriorityQueues s' = ["high1"]
    ∧ subQueues s' !! "high2" = None
    ∧ subQueues s' !! "high1" = Some [100; 5; 9; 10; 20].
Proof.
  exists shrinkState.
  exists (default initialState (removeHighPriorityQueue shrinkState)).
  do 9 (split; [vm_compute; reflexivity|]). vm_compute; reflexivity.
Qed.

(** A pass whose updater runs on the render it read never takes the head
    of a queue: every queue that has a pending task keeps its first one. *)
Lemma redistributeTasks_keeps_heads s g s' q l :
  redistributeTasks s g s = Some s' →
  subQueues s !! q = Some l → l ≠ [] →
  ∃ l', subQueues s' !! q = Some l' ∧ head l' = head l.
Proof.
  intros [->|(i & b & lb & t & li & _ & _ & Hidle & Hbusy & Hlb & Ht & Hli & ->)]
    %redistributeTasks_cases Hl Hne; [eauto|].
  pose proof (idle_not_busy _ _ _ Hidle Hbusy) as Hib.
  apply isIdle_iff in Hidle as (Hsi & _).
  apply isBusy_iff in Hbusy as (lb' & Hsb & Hlen & _).
  rewrite Hlb in Hsb. injection Hsb as <-. simpl.
  destruct (decide (q = i)) as [->|Hqi]; [congruence|].
  rewrite lookup_insert_ne by done.
  destruct (decide (q = b)) as [->|Hqb].
  - rewrite lookup_insert_eq. rewrite Hlb in Hl. injection Hl as <-.
    eexists. split; [done|]. by apply head_removelast.
  - rewrite lookup_insert_ne by done. eauto.
Qed.

Lemma redistributeTasks_nothing_to_do s g :
  (∀ n, n ∈ g → is_Some (subQueues s !! n)) →
  List.filter (isIdle s) g = [] ∨ List.filter (isBusy s) g = [] →
  redistributeTasks s g s = Some s.
Proof.
  intros Hg Hnone. unfold redistributeTasks.
  rewrite (idle_filter _ _ Hg), (busy_filter _ _ Hg). cbn [mbind option_bind].
  destruct Hnone as [-> | ->]; [done|].
  by destruct (List.filter (isIdle s) g).
Qed.

Lemma redistributeTasks_idle_and_three s x y :
  x ≠ y →
  subQueues s !! x = Some [] → progress s !! x = Some 0 →
  initialDuration s !! x = Some 0 →
  subQueues s !! y = Some [30; 40; 50] →
  x ∉ newlyCreatedQueues s → y ∉ newlyCreatedQueues s →
  redistributeTasks s [x; y] s =
    Some (set_subQueues (<[x := [50]]> (<[y := [30; 40]]> (subQueues s))) s).
Proof.
  intros Hxy Hx Hpx Hdx Hy Hnx Hny.
  assert (Hix : isIdle s x = true).
  { apply isIdle_iff. rewrite Hpx, Hdx. done. }
  assert (Hiy : isIdle s y = false).
  { apply not_true_iff_false. intros (H & _)%isIdle_iff. congruence. }
  assert (Hbx : isBusy s x = false).
  { apply not_true_iff_false. intros (l & Hl & Hlen & _)%isBusy_iff.
    rewrite Hx in Hl. injection Hl as <-. simpl in Hlen. lia. }
  assert (Hby : isBusy s y = true).
  { apply isBusy_iff. exists [30; 40; 50]. repeat split; auto. simpl. lia. }
  destruct (redistributeTasks_moves s [x; y] x [] y [])
    as (b & pre & post & lb & t & Heq & _ & _ & Hlb & _ & Ht & _ & Hres).
  - intros n [->|[->|Hn]%elem_of_cons]%elem_of_cons; eauto. inversion Hn.
  - intros n [->|[->|Hn]%elem_of_cons]%elem_of_cons; unfold f64_load;
      [by rewrite Hx | by rewrite Hy | inversion Hn].
  - simpl. by rewrite Hix, Hiy.
  - simpl. by rewrite Hbx, Hby.
  - assert (b = y) as ->.
    { destruct pre as [|? [|? ?]]; simpl in Heq; congruence. }
    rewrite Hy in Hlb. injection Hlb as <-.
    simpl in Ht. injection Ht as <-.
    rewrite Hres. unfold f64_load. rewrite Hy. done.
Qed.

(** C3 (the code at the failing input).  In [soleState] the queue [high1]
    shows [30; 40] with progress 0 on its head of 30, and [high2] is idle
    and out of its grace period.  The effects of that render all read it:
    the completion effect removes the finished head, and the rebalancing
    effect, which saw two pending tasks in [high1], then takes the last
    task of what is left, the only task [40], and gives it to [high2].
    [high1] is left empty. *)
Theorem rebalance_takes_the_only_task :
  ∃ s s1 s2 s',
    execAll soleScenario initialState = Some s
    ∧ highPriorityQueues s = ["high1"; "high2"]
    ∧ subQueues s !! "high1" = Some [30; 40]
    ∧ progress s !! "high1" = Some 0
    ∧ initialDuration s !! "high1" = Some 30
    ∧ List.filter (isIdle s) (highPriorityQueues s) = ["high2"]
    ∧ List.filter (isBusy s) (highPriorityQueues s) = ["high1"]
    ∧ completionEffect s s = Some s1
    ∧ subQueues s1 !! "high1" = Some [40]
    ∧ rebalanceEffect s s1 = Some s2
    ∧ subQueues s2 !! "high1" = Some []
    ∧ subQueues s2 !! "high2" = Some [40]
    ∧ exec EffectsPass s = Some s'
    ∧ subQueues s' !! "high1" = Some []
    ∧ subQueues s' !! "high2" = Some [40].
Proof.
  exists soleState.
  exists (default initialState (completionEffect soleState soleState)).
  exists (default initialState
            (s1 ← completionEffect soleState soleState;
             rebalanceEffect soleState s1)).
  exists (default initialState (runEffects soleState)).
  do 14 (split; [vm_compute; reflexivity|]). vm_compute; reflexivity.
Qed.

(** C4 as stated fails: while the pause is on, a tick does not set the
    progress of a queue to 0.  [high1] has progress 10 before and after. *)
Lemma tick_while_paused_sets_zero_fails :
  ¬ (∀ s s' q,
       reachable s → q ∈ allQueues s → decrementPaused s = true →
       progressTick s = Some s' →
       ∃ p, progress s' !! q = Some p ∧ p == 0).
Proof.
  intros Hclaim.
  destruct (Hclaim pausedState pausedState "high1") as (p & Hp & Hz).
  - apply (execAll_reachable pausedScenario initialState);
      [apply reachable_init | | vm_compute; reflexivity].
    repeat constructor. by apply mkTask_generated.
  - vm_compute. by left.
  - vm_compute; reflexivity.
  - vm_compute; reflexivity.
  - assert (H10 : progress pausedState !! "high1" = Some 10)
      by (vm_compute; reflexivity).
    rewrite H10 in Hp. injection Hp as <-. discriminate Hz.
Qed.

(** C4, amended.  On a state whose queues all have an entry: while
    [decrementPaused] holds a tick changes nothing at all; otherwise it
    changes only the progress map, where every queue of the two groups gets
    0 if its pending list is empty or its progress is not positive, and
    [max(0, round2(progress - 0.4))] otherwise, and every other key keeps
    its value. *)
Theorem progressTick_spec s :
  (∀ n, n ∈ allQueues s → is_Some (subQueues s !! n)) →
  (decrementPaused s = true → progressTick s = Some s)
  ∧ (decrementPaused s = false →
     ∃ updated,
       progressTick s = Some (set_progress updated s)
       ∧ (∀ q l p, q ∈ allQueues s →
            subQueues s !! q = Some l → progress s !! q = Some p →
            (l = [] ∨ ¬ 0 < p → updated !! q = Some 0)
            ∧ (l ≠ [] → 0 < p →
               updated !! q = Some (Math_max 0 (round2 (p - 0.4)))))
       ∧ (∀ q, q ∈ allQueues s → progress s !! q = None →
            updated !! q = Some 0)
       ∧ (∀ q, q ∉ allQueues s → updated !! q = progress s !! q)).
Proof.
  intros Hent. split; [apply progressTick_paused|]. intros Hp.
  destruct (progressTick_running s Hp Hent) as (u & Hres & Hu).
  exists u. split; [done|]. split; [|split].
  - intros q l p Hq Hl Hpq. specialize (Hu q). rewrite decide_True in Hu by done.
    unfold nextProgress in Hu. rewrite Hpq, Hl in Hu. simpl in Hu. split.
    + intros [-> | Hnp]; [done|].
      assert (Hf : Qltb 0 p = false).
      { apply not_true_iff_false. by intros ?%Qltb_lt. }
      by rewrite Hf, andb_false_r in Hu.
    + intros Hne Hpos%Qltb_lt. rewrite Hpos in Hu.
      by destruct l.
  - intros q Hq Hnone. specialize (Hu q). rewrite decide_True in Hu by done.
    unfold nextProgress in Hu. by rewrite Hnone in Hu.
  - intros q Hq. specialize (Hu q). by rewrite decide_False in Hu.
Qed.

Lemma progressTick_spec_witness :
  (∀ n, n ∈ allQueues runningState → is_Some (subQueues runningState !! n))
  ∧ decrementPaused runningState = false
  ∧ ∃ s', progressTick runningState = Some s'
      ∧ progress runningState !! "high1" = Some 10
      ∧ progress s' !! "high1" = Some (48 # 5)
      ∧ progress s' !! "regular1" = Some 0.
Proof.
  set (s := runningState).
  assert (Hent : ∀ n, n ∈ allQueues s → is_Some (subQueues s !! n))
    by all_entries.
  assert (Hp : decrementPaused s = false) by (vm_compute; reflexivity).
  split; [exact Hent|]. split; [exact Hp|].
  destruct (progressTick_spec s Hent) as [_ Hrun].
  destruct (Hrun Hp) as (u & Hres & Hq & _).
  exists (set_progress u s). split; [exact Hres|].
  split; [vm_compute; reflexivity|]. split.
  - destruct (Hq "high1" [10] 10) as [_ Hdec];
      [vm_compute; by left | vm_compute; reflexivity..|].
    simpl. rewrite Hdec; [vm_compute; reflexivity | done | reflexivity].
  - destruct (Hq "regular1" [] 0) as [Hz _];
      [vm_compute; right; by left | vm_compute; reflexivity..|].
    simpl. rewrite Hz; [reflexivity | by left].
Defined.

Lemma admitTask_initialDuration s s' :
  admitTask s = Some s' → initialDuration s' = initialDuration s.
Proof.
  unfold admitTask. destruct (queue s) as [|task rest]; [by intros [= <-]|].
  destruct (leastLoaded _ _) as [m|]; [|done]. cbn [mbind option_bind].
  destruct (subQueues s !! m); [|done]. cbn [mbind option_bind].
  by intros [= <-].
Qed.

(** C5. In a reachable state, for a queue [q] of the two groups with
    pending list [l], progress [p] and initial duration [d]:
    the completion effect succeeds and leaves the progress map alone; if
    [l] is not empty, [p] is 0 and [d] is positive it removes exactly the
    head of [l] and resets the initial duration to 0, and that head is the
    task whose duration initialization had recorded; under any other
    condition it leaves [l] and [d] as they are.  The initialization effect
    succeeds and leaves the pending lists alone; if [l] is not empty and
    [p] and [d] are 0 it sets both to the head of [l], otherwise it leaves
    both.  A task admitted while [l] is empty is not removed by the
    completion effect before it has been initialized. *)
Theorem completion_and_initialization s q l p d :
  reachable s → q ∈ allQueues s →
  subQueues s !! q = Some l → progress s !! q = Some p →
  initialDuration s !! q = Some d →
  (∃ s1, completionEffect s s = Some s1
     ∧ progress s1 = progress s
     ∧ (l ≠ [] ∧ p == 0 ∧ 0 < d →
        subQueues s1 !! q = Some (tail l)
        ∧ initialDuration s1 !! q = Some 0
        ∧ ∃ h t, l = h :: t ∧ h == d)
     ∧ (¬ (l ≠ [] ∧ p == 0 ∧ 0 < d) →
        subQueues s1 !! q = Some l ∧ initialDuration s1 !! q = Some d))
  ∧ (∃ s2, initializationEffect s s = Some s2
     ∧ subQueues s2 = subQueues s
     ∧ (∀ h t, l = h :: t → p == 0 → d == 0 →
        progress s2 !! q = Some h ∧ initialDuration s2 !! q = Some h)
     ∧ (¬ (l ≠ [] ∧ p == 0 ∧ d == 0) →
        progress s2 !! q = Some p ∧ initialDuration s2 !! q = Some d))
  ∧ (l = [] → ∀ s', admitTask s = Some s' → completes s' q = false).
Proof.
  intros Hs%reachable_Inv Hq Hl Hp Hd.
  pose proof (Inv_entries s Hs) as Hent.
  destruct (inv_queues s Hs q Hq) as (l' & p' & d' & Hl' & Hp' & Hd' & _ & _ & _ & Hhd).
  rewrite Hl in Hl'. rewrite Hp in Hp'. rewrite Hd in Hd'.
  injection Hl' as <-. injection Hp' as <-. injection Hd' as <-.
  assert (Hc : completes s q = true ↔ l ≠ [] ∧ p == 0 ∧ 0 < d).
  { rewrite completes_iff. split.
    - intros (? & ? & ? & ? & ? & ? & ?). by simplify_eq.
    - intros ?. by exists l, p, d. }
  assert (Hi : initializes s q = true ↔ l ≠ [] ∧ p == 0 ∧ d == 0).
  { rewrite initializes_iff. split.
    - intros (? & ? & ? & ? & ? & ? & ?). by simplify_eq.
    - intros ?. by exists l, p, d. }
  split; [|split].
  - destruct (completion_fold s (allQueues s) s (Inv_NoDup s Hs) Hent Hent)
      as (sq' & dur' & Hfold & Hsq & Hdur).
    eexists. split; [exact Hfold|]. split; [done|]. simpl.
    rewrite Hsq, Hdur, bool_decide_eq_true_2, Hl, Hd by done. simpl.
    split.
    + intros Hg. pose proof Hg as (_ & _ & Hpos). apply Hc in Hg as ->.
      split; [done|]. split; [done|]. by apply Hhd.
    + intros Hg. by destruct (completes s q); [destruct Hg; by apply Hc|].
  - destruct (initialization_fold s (allQueues s) s Hent)
      as (pr' & dur' & Hfold & Hpr & Hdur).
    eexists. split; [exact Hfold|]. split; [done|]. simpl.
    rewrite Hpr, Hdur, bool_decide_eq_true_2, Hp, Hd by done. simpl.
    unfold firstOf. rewrite Hl. split.
    + intros h t -> Hp0 Hd0.
      assert (Hg : initializes s q = true) by (by apply Hi).
      by rewrite Hg.
    + intros Hg. by destruct (initializes s q); [destruct Hg; by apply Hi|].
  - intros -> s' Hadm. apply not_true_iff_false.
    intros (l1 & p1 & d1 & _ & _ & Hd1 & _ & _ & Hpos)%completes_iff.
    pose proof (admitTask_initialDuration _ _ Hadm) as Hsame.
    rewrite Hsame, Hd in Hd1. injection Hd1 as <-.
    by destruct (Hhd Hpos) as (? & ? & ? & _).
Qed.

Lemma completion_and_initialization_witness :
  reachable admittedState ∧ "high1" ∈ allQueues admittedState
  ∧ subQueues admittedState !! "high1" = Some [10]
  ∧ progress admittedState !! "high1" = Some 0
  ∧ initialDuration admittedState !! "high1" = Some 0
  ∧ ∃ s2, initializationEffect admittedState admittedState = Some s2
      ∧ progress s2 !! "high1" = Some 10
      ∧ initialDuration s2 !! "high1" = Some 10.
Proof.
  set (s := admittedState).
  assert (Hs : reachable s).
  { apply stateAfter_reachable; [|vm_compute; eauto].
    repeat constructor. by apply mkTask_generated. }
  assert (Hq : "high1" ∈ allQueues s) by (vm_compute; by left).
  assert (Hl : subQueues s !! "high1" = Some [10]) by (vm_compute; reflexivity).
  assert (Hp : progress s !! "high1" = Some 0) by (vm_compute; reflexivity).
  assert (Hd : initialDuration s !! "high1" = Some 0)
    by (vm_compute; reflexivity).
  split; [exact Hs|]. split; [exact Hq|]. split; [exact Hl|].
  split; [exact Hp|]. split; [exact Hd|].
  destruct (completion_and_initialization s "high1" [10] 0 0 Hs Hq Hl Hp Hd)
    as (_ & (s2 & Hinit & _ & Hset & _) & _).
  exists s2. split; [exact Hinit|].
  apply (Hset 10 []); reflexivity.
Defined.

Lemma fold_left_Qplus l : ∀ a, fold_left Qplus l a == a + sumOf l.
Proof.
  unfold sumOf. induction l as [|x l IH]; intros a; simpl.
  - ring.
  - rewrite (IH (a + x)), (IH (0 + x)). ring.
Qed.

Lemma sumOf_cons h t : sumOf (h :: t) == h + sumOf t.
Proof. unfold sumOf at 1. simpl. rewrite fold_left_Qplus. ring. Qed.

(** C6 as stated fails.  In [stealState] the head of [high1] has 30 left of
    its 100 and one task of 1 waits behind it; the head of [high2] has 20
    left of its 30 and a task of 30 waits.  Counted by remaining progress
    [high2] is the busier queue (50 against 31), but the code compares the
    sums of the pending values (101 against 60), chooses [high1] and moves
    its last task to the idle [high3]. *)
Lemma busiest_by_remaining_progress_fails :
  reachable stealState
  ∧ List.filter (isIdle stealState) (highPriorityQueues stealState) = ["high3"]
  ∧ List.filter (isBusy stealState) (highPriorityQueues stealState)
    = ["high1"; "high2"]
  ∧ subQueues stealState !! "high1" = Some [100; 1]
  ∧ progress stealState !! "high1" = Some 30
  ∧ subQueues stealState !! "high2" = Some [30; 30]
  ∧ progress stealState !! "high2" = Some 20
  ∧ remainingLoad stealState "high1" < remainingLoad stealState "high2"
  ∧ busiest ["high1"; "high2"] (subQueues stealState)
    = Some ("high1", 101%float)
  ∧ ∃ s', redistributeTasks stealState (highPriorityQueues stealState)
            stealState = Some s'
      ∧ subQueues s' !! "high1" = Some [100]
      ∧ subQueues s' !! "high2" = Some [30; 30]
      ∧ subQueues s' !! "high3" = Some [1].
Proof.
  split.
  { apply stateAfter_reachable; [|vm_compute; eauto].
    unfold stealScenario.
    repeat (apply Forall_enabled_app;
            [first [apply Forall_enabled_ticks
                   | repeat constructor; by apply mkTask_generated]|]).
    repeat constructor. }
  do 8 (split; [vm_compute; reflexivity|]).
  exists (default initialState
            (redistributeTasks stealState (highPriorityQueues stealState)
               stealState)).
  do 3 (split; [vm_compute; reflexivity|]). vm_compute; reflexivity.
Qed.

(** C6, amended.  In a reachable state the busiest queue of a non-empty
    list of busy queues that all have an entry is chosen by the computed
    sum of all pending values, the head counted with its original duration
    whatever its progress: it is the first queue of the list, in order,
    whose computed sum no other queue of the list exceeds, the computed sum
    being the one [reduce] gives on binary64 numbers over the whole pending
    list. *)
Theorem busiest_by_pending_sum s names :
  reachable s → names ≠ [] →
  (∀ n, n ∈ names → is_Some (subQueues s !! n)) →
  ∃ b pre post,
    busiest names (subQueues s) = Some (b, f64_load (subQueues s) b)
    ∧ names = pre ++ b :: post
    ∧ (∀ n, n ∈ names →
         f64_gt (f64_load (subQueues s) n) (f64_load (subQueues s) b) = false)
    ∧ (∀ n, n ∈ pre →
         f64_gt (f64_load (subQueues s) b) (f64_load (subQueues s) n) = true)
    ∧ (∀ n h t, subQueues s !! n = Some (h :: t) →
         f64_load (subQueues s) n
         = fold_left (λ sum taskValue, PrimFloat.add sum (f64_of_Q taskValue))
             t (PrimFloat.add 0%float (f64_of_Q h))).
Proof.
  intros Hs Hne Hent.
  destruct (busiest_spec names (subQueues s) Hne Hent)
    as (b & pre & post & Hb & Heq & Hmax & Hfirst).
  { intros n _. by apply reachable_sums_nonneg. }
  exists b, pre, post. do 4 (split; [done|]).
  intros n h t Hn. unfold f64_load. by rewrite Hn.
Qed.

Lemma busiest_by_pending_sum_witness :
  reachable stealState
  ∧ ["high1"; "high2"] ≠ []
  ∧ (∀ n, n ∈ ["high1"; "high2"] → is_Some (subQueues stealState !! n))
  ∧ ∃ b, busiest ["high1"; "high2"] (subQueues stealState)
         = Some (b, f64_load (subQueues stealState) b)
      ∧ f64_gt (f64_load (subQueues stealState) "high2")
          (f64_load (subQueues stealState) b) = false.
Proof.
  assert (Hs : reachable stealState).
  { apply stateAfter_reachable; [|vm_compute; eauto].
    unfold stealScenario.
    repeat (apply Forall_enabled_app;
            [first [apply Forall_enabled_ticks | apply Forall_enabled_tickCycle
                   | repeat constructor; by apply mkTask_generated]|]).
    repeat constructor; by apply mkTask_generated. }
  assert (Hne : ["high1"; "high2"] ≠ []) by discriminate.
  assert (Hent : ∀ n, n ∈ ["high1"; "high2"] →
                      is_Some (subQueues stealState !! n)) by all_entries.
  split; [exact Hs|]. split; [exact Hne|]. split; [exact Hent|].
  destruct (busiest_by_pending_sum _ _ Hs Hne Hent)
    as (b & pre & post & Hb & _ & Hmax & _).
  exists b. split; [exact Hb|]. apply Hmax. right. by left.
Defined.

Lemma Qltb_compat a b : a == b → Qltb 0 a = Qltb 0 b.
Proof.
  intros H. destruct (Qltb 0 b) eqn:Hb.
  - apply Qltb_lt. apply Qltb_lt in Hb. by rewrite H.
  - apply Qltb_ge. apply Qltb_ge in Hb. by rewrite H.
Qed.

Lemma tickProgress_compat a b : a == b → tickProgress a = tickProgress b.
Proof.
  intros H. unfold tickProgress.
  by rewrite (Qltb_compat _ _ H), (decrement_compat _ _ H).
Qed.

Lemma tickProgress_iter_compat a b k :
  a == b → (1 ≤ k)%nat → Nat.iter k tickProgress a = Nat.iter k tickProgress b.
Proof.
  intros H Hk. destruct k as [|k]; [lia|].
  by rewrite !Nat.iter_succ_r, (tickProgress_compat _ _ H).
Qed.

(** [k] ticks in a row on a queue that has pending tasks, while nothing
    else happens. *)
Lemma progressTicks q l :
  l ≠ [] →
  ∀ k s p,
    (∀ n, n ∈ allQueues s → is_Some (subQueues s !! n)) →
    decrementPaused s = false → q ∈ allQueues s →
    subQueues s !! q = Some l → progress s !! q = Some p →
    ∃ u, execAll (replicate k ProgressTick) s = Some (set_progress u s)
         ∧ u !! q = Some (Nat.iter k tickProgress p).
Proof.
  intros Hne k.
  induction k as [|k IH]; intros s p Hent Hpause Hq Hl Hp.
  - exists (progress s). split; [simpl; f_equal; state_eq | done].
  - destruct (progressTick_running s Hpause Hent) as (u1 & Htick & Hu1).
    cbn [replicate execAll exec]. rewrite Htick. cbn [mbind option_bind].
    destruct (IH (set_progress u1 s) (tickProgress p) Hent Hpause Hq Hl)
      as (u & Hrun & Hu).
    { simpl. rewrite Hu1, decide_True by done. f_equal.
      unfold nextProgress, tickProgress. rewrite Hp, Hl. simpl.
      by destruct l. }
    exists u. split; [rewrite Hrun; f_equal; state_eq|].
    by rewrite Nat.iter_succ_r.
Qed.

Lemma forty_after_100 : Nat.iter 100 tickProgress 40 = 0.
Proof. vm_compute. reflexivity. Qed.

Lemma forty_before_100 k :
  (k < 100)%nat → 0 < Nat.iter k tickProgress 40.
Proof.
  intros Hk.
  assert (Hall : forallb (λ j, Qltb 0 (Nat.iter j tickProgress 40))
                   (seq 0 100) = true) by (vm_compute; reflexivity).
  rewrite forallb_forall in Hall. apply Qltb_lt, Hall, in_seq.
  clear Hall. lia.
Qed.

(** The run of C8 on binary64 numbers: after every one of the hundred ticks
    the double is the one nearest to the exact value, and it is 0 after the
    hundredth. *)
Lemma binary64_forty_agrees :
  forallb (λ k, PrimFloat.eqb (Nat.iter k f64_tickProgress 40%float)
                  (f64_of_Q (Nat.iter k tickProgress 40)))
    (seq 0 101) = true
  ∧ Nat.iter 100 f64_tickProgress 40%float = 0%float.
Proof. split; vm_compute; reflexivity. Qed.

(** C8. On a reachable state that is not paused, for a queue of the two
    groups whose head task is initialized with progress and initial duration
    40: one hundred ticks in a row succeed and bring the progress to exactly
    0, after fewer than one hundred ticks the progress is still positive,
    and the completion effect that follows removes the head task and resets
    the initial duration. *)
Theorem forty_takes_one_hundred_ticks s q h rest p d :
  reachable s → q ∈ allQueues s → decrementPaused s = false →
  subQueues s !! q = Some (h :: rest) →
  progress s !! q = Some p → p == 40 →
  initialDuration s !! q = Some d → d == 40 →
  ∃ s100,
    execAll (replicate 100 ProgressTick) s = Some s100
    ∧ progress s100 !! q = Some 0
    ∧ subQueues s100 !! q = Some (h :: rest)
    ∧ (∀ k, (k < 100)%nat →
         ∃ sk pk, execAll (replicate k ProgressTick) s = Some sk
           ∧ progress sk !! q = Some pk ∧ 0 < pk)
    ∧ ∃ s', completionEffect s100 s100 = Some s'
        ∧ subQueues s' !! q = Some rest
        ∧ initialDuration s' !! q = Some 0.
Proof.
  intros Hs%reachable_Inv Hq Hpause Hl Hp Hp40 Hd Hd40.
  pose proof (Inv_entries s Hs) as Hent.
  assert (Hne : h :: rest ≠ []) by done.
  assert (Hticks : ∀ k, ∃ u,
            execAll (replicate k ProgressTick) s = Some (set_progress u s)
            ∧ u !! q = Some (Nat.iter k tickProgress p)).
  { intros k. by apply (progressTicks q (h :: rest)). }
  destruct (Hticks 100%nat) as (u & Hrun & Hu).
  rewrite (tickProgress_iter_compat p 40), forty_after_100 in Hu
    by (done || lia).
  exists (set_progress u s). split; [done|]. split; [done|]. split; [done|].
  split.
  - intros k Hk. destruct (Hticks k) as (uk & Hrunk & Huk).
    eexists _, _. split; [exact Hrunk|]. split; [exact Huk|].
    destruct k as [|k]; [simpl; by rewrite Hp40|].
    rewrite (tickProgress_iter_compat p 40) by (done || lia).
    by apply forty_before_100.
  - destruct (completion_fold (set_progress u s) (allQueues s)
                (set_progress u s) (Inv_NoDup s Hs) Hent Hent)
      as (sq' & dur' & Hfold & Hsq & Hdur).
    eexists. split; [exact Hfold|]. simpl.
    rewrite Hsq, Hdur, bool_decide_eq_true_2 by done.
    assert (Hc : completes (set_progress u s) q = true).
    { apply completes_iff. exists (h :: rest), 0, d. simpl.
      repeat split; auto; try done. by rewrite Hd40. }
    rewrite Hc. simpl. rewrite Hl. done.
Qed.

Lemma forty_takes_one_hundred_ticks_witness :
  reachable fortyState ∧ "high1" ∈ allQueues fortyState
  ∧ decrementPaused fortyState = false
  ∧ subQueues fortyState !! "high1" = Some [40]
  ∧ progress fortyState !! "high1" = Some 40
  ∧ initialDuration fortyState !! "high1" = Some 40
  ∧ ∃ s100 s',
      execAll (replicate 100 ProgressTick) fortyState = Some s100
      ∧ progress s100 !! "high1" = Some 0
      ∧ completionEffect s100 s100 = Some s'
      ∧ subQueues s' !! "high1" = Some [].
Proof.
  assert (Hs : reachable fortyState).
  { apply stateAfter_reachable; [|vm_compute; eauto].
    repeat constructor. by apply mkTask_generated. }
  assert (Hq : "high1" ∈ allQueues fortyState) by (vm_compute; by left).
  assert (Hpause : decrementPaused fortyState = false)
    by (vm_compute; reflexivity).
  assert (Hl : subQueues fortyState !! "high1" = Some [40])
    by (vm_compute; reflexivity).
  assert (Hp : progress fortyState !! "high1" = Some 40)
    by (vm_compute; reflexivity).
  assert (Hd : initialDuration fortyState !! "high1" = Some 40)
    by (vm_compute; reflexivity).
  split; [exact Hs|]. split; [exact Hq|]. split; [exact Hpause|].
  split; [exact Hl|]. split; [exact Hp|]. split; [exact Hd|].
  destruct (forty_takes_one_hundred_ticks fortyState "high1" 40 [] 40 40
              Hs Hq Hpause Hl Hp (Qeq_refl 40) Hd (Qeq_refl 40))
    as (s100 & Hrun & Hzero & _ & _ & s' & Hc & Hrest & _).
  exists s100, s'.
  split; [exact Hrun|]. split; [exact Hzero|]. split; [exact Hc|]. exact Hrest.
Defined.

(** ** A head task of value 0 *)

Lemma blocked_initializes s q h : blocked s q h → initializes s q = true.
Proof.
  intros (_ & _ & t & p & d & Hl & Hp & Hp0 & Hd & Hd0).
  apply initializes_iff. exists (h :: t), p, d. done.
Qed.

Lemma blocked_not_completes s q h : blocked s q h → completes s q = false.
Proof.
  intros (_ & _ & t & p & d & Hl & Hp & Hp0 & Hd & Hd0).
  apply not_true_iff_false.
  intros (? & ? & d' & _ & _ & Hd' & _ & _ & Hpos)%completes_iff.
  rewrite Hd in Hd'. injection Hd' as <-. lra.
Qed.

Lemma blocked_firstOf s q h : blocked s q h → firstOf s q = Some h.
Proof.
  intros (_ & _ & t & p & d & Hl & _). unfold firstOf. by rewrite Hl.
Qed.

Lemma firstOf_Some s q h :
  firstOf s q = Some h → ∃ t, subQueues s !! q = Some (h :: t).
Proof.
  unfold firstOf. destruct (subQueues s !! q) as [[|h' t]|]; try done.
  simpl. intros [= ->]. eauto.
Qed.

Lemma blocked_progressTick s q h :
  blocked s q h → ∃ s', progressTick s = Some s' ∧ blocked s' q h.
Proof.
  intros (Hs & Hq & t & p & d & Hl & Hp & Hp0 & Hd & Hd0).
  destruct (decrementPaused s) eqn:Hpause.
  { exists s. split; [by apply progressTick_paused|].
    split; [done|]. split; [done|]. by exists t, p, d. }
  destruct (progressTick_running s Hpause (Inv_entries s Hs)) as (u & Hres & Hu).
  exists (set_progress u s). split; [done|].
  split; [by apply (progressTick_Inv s)|]. split; [done|].
  exists t, 0, d. simpl. rewrite Hu, decide_True by done.
  unfold nextProgress. rewrite Hp.
  assert (Hf : Qltb 0 p = false) by (apply Qltb_ge; lra).
  rewrite Hf, andb_false_r. done.
Qed.

Lemma blocked_completion s q h :
  blocked s q h →
  ∃ s1, completionEffect s s = Some s1 ∧ blocked s1 q h
        ∧ (∀ q', Rel s s1 q') ∧ allQueues s1 = allQueues s.
Proof.
  intros Hb. pose proof Hb as (Hs & Hq & t & p & d & Hl & Hp & Hp0 & Hd & Hd0).
  destruct (completionEffect_step s Hs) as (s1 & H1 & HOK & HRel & Hf).
  exists s1. split; [done|].
  assert (Hall : allQueues s1 = allQueues s) by (by rewrite Hf).
  split; [|done]. split; [by apply (completionEffect_Inv s)|].
  split; [by rewrite Hall|].
  destruct (HRel q) as [Hpr [[Hsq Hdur] | [Hc _]]].
  - exists t, p, d. by rewrite Hsq, Hpr, Hdur.
  - by rewrite (blocked_not_completes _ _ _ Hb) in Hc.
Qed.

Lemma blocked_rebalance snap cur cur' q h :
  Inv snap → q ∈ allQueues snap →
  initializes snap q = true → firstOf snap q = Some h →
  (∀ q', q' ∈ allQueues snap → Rel snap cur q') →
  (∀ q', q' ∈ allQueues snap → queueOK cur q') →
  rebalanceEffect snap cur = Some cur' →
  firstOf cur' q = Some h
  ∧ progress cur' = progress cur
  ∧ initialDuration cur' = initialDuration cur
  ∧ allQueues cur' = allQueues cur
  ∧ (∀ q', q' ∈ allQueues snap → queueOK cur' q')
  ∧ (∀ q', q' ∈ allQueues snap → HeadKept snap cur' q').
Proof.
  intros Hsnap Hq Hinit Hfirst HRel HOK Hreb.
  destruct (rebalanceEffect_step snap cur cur' Hsnap Hreb HRel HOK)
    as (HOK' & HK & Hf).
  split; [by rewrite (HK q Hq Hinit)|].
  do 3 (split; [by rewrite Hf|]). done.
Qed.

Lemma initialization_at snap cur q h :
  (∀ n, n ∈ allQueues snap → is_Some (subQueues snap !! n)) →
  q ∈ allQueues snap →
  initializes snap q = true → firstOf snap q = Some h →
  ∃ cur', initializationEffect snap cur = Some cur'
    ∧ progress cur' !! q = Some h ∧ initialDuration cur' !! q = Some h
    ∧ subQueues cur' = subQueues cur ∧ allQueues cur' = allQueues cur.
Proof.
  intros Hent Hq Hinit Hfirst. unfold initializationEffect.
  destruct (initialization_fold snap (allQueues snap) cur Hent)
    as (pr' & dur' & Hfold & Hpr & Hdur).
  eexists. split; [exact Hfold|]. simpl.
  rewrite Hpr, Hdur, bool_decide_eq_true_2, Hinit, Hfirst by done. done.
Qed.

Lemma blocked_step e s q h :
  h == 0 → tickEvent e → blocked s q h →
  ∃ s', exec e s = Some s' ∧ blocked s' q h.
Proof.
  intros Hh He Hb.
  pose proof Hb as (Hs & Hq & t & p & d & Hl & Hp & Hp0 & Hd & Hd0).
  pose proof (blocked_initializes _ _ _ Hb) as Hinit.
  pose proof (blocked_firstOf _ _ _ Hb) as Hfirst.
  pose proof (Inv_entries s Hs) as Hent.
  destruct e; try done; simpl.
  - by apply blocked_progressTick.
  - destruct (blocked_completion s q h Hb) as (s1 & H1 & Hb1 & _). eauto.
  - destruct (exec_total RebalancePass s Hs) as [s' Hreb]. simpl in Hreb.
    exists s'. split; [done|].
    destruct (blocked_rebalance s s s' q h) as (Hf' & Hpr & Hdur & Hall & _);
      auto.
    { intros q' _. apply Rel_refl. }
    { apply (inv_queues s Hs). }
    split; [by apply (rebalanceEffect_Inv s)|]. split; [by rewrite Hall|].
    destruct (firstOf_Some _ _ _ Hf') as [t' Ht'].
    exists t', p, d. by rewrite Hpr, Hdur.
  - destruct (initialization_at s s q h) as (s' & Hi & Hpr & Hdur & Hsq & Hall);
      auto.
    exists s'. split; [done|].
    split; [by apply (initializationEffect_Inv s)|]. split; [by rewrite Hall|].
    exists t, h, h. by rewrite Hsq.
  - destruct (exec_total EffectsPass s Hs) as [s' Hrun].
    exists s'. split; [done|]. split; [by apply (runEffects_Inv s)|].
    simpl in Hrun. unfold runEffects in Hrun.
    destruct (blocked_completion s q h Hb) as (s1 & H1 & Hb1 & HRel1 & Hall1).
    rewrite H1 in Hrun. cbn [mbind option_bind] in Hrun.
    destruct (rebalanceEffect s s1) as [s2|] eqn:H2; [|done].
    cbn [mbind option_bind] in Hrun.
    destruct Hb1 as (Hs1 & _ & t1 & p1 & d1 & Hl1 & Hp1 & Hp10 & Hd1 & Hd10).
    destruct (blocked_rebalance s s1 s2 q h)
      as (Hf2 & Hpr2 & Hdur2 & Hall2 & HOK2 & HK2); auto.
    { intros q' Hq'. apply (inv_queues s1 Hs1). by rewrite Hall1. }
    destruct (initialization_at s s2 q h)
      as (s3 & H3 & Hpr3 & Hdur3 & Hsq3 & Hall3); auto.
    rewrite H3 in Hrun. injection Hrun as <-.
    split; [by rewrite Hall3, Hall2, Hall1|].
    destruct (firstOf_Some _ _ _ Hf2) as [t2 Ht2].
    exists t2, h, h. by rewrite Hsq3.
Qed.

Lemma blocked_steps es : ∀ s q h,
  h == 0 → Forall tickEvent es → blocked s q h →
  ∃ s', execAll es s = Some s' ∧ blocked s' q h.
Proof.
  induction es as [|e es IH]; intros s q h Hh Hes Hb; [by exists s|].
  apply Forall_cons in Hes as [He Hes].
  destruct (blocked_step e s q h Hh He Hb) as (s1 & H1 & Hb1).
  destruct (IH s1 q h Hh Hes Hb1) as (s' & Hrun & Hb').
  exists s'. split; [|done]. simpl. by rewrite H1.
Qed.

(** C10. In a reachable state, let queue [q] have a head task [h] of value
    0.  Then its progress and initial duration are 0.  The initialization
    effect sets both to [h], that is to 0, so the completion guard is
    false; and after any sequence of ticks and effects (none of which
    fails) [h] is still the head of [q], progress and initial duration are
    still 0 and the completion guard is still false: the completion effect
    never removes [h]. *)
Theorem zero_head_blocks_queue s q h t :
  reachable s → q ∈ allQueues s →
  subQueues s !! q = Some (h :: t) → h == 0 →
  (∃ p d, progress s !! q = Some p ∧ p == 0
          ∧ initialDuration s !! q = Some d ∧ d == 0)
  ∧ (∃ s1, initializationEffect s s = Some s1
       ∧ progress s1 !! q = Some h ∧ initialDuration s1 !! q = Some h
       ∧ completes s1 q = false)
  ∧ (∀ es, Forall tickEvent es →
       ∃ s' t' p' d',
         execAll es s = Some s'
         ∧ q ∈ allQueues s'
         ∧ subQueues s' !! q = Some (h :: t')
         ∧ progress s' !! q = Some p' ∧ p' == 0
         ∧ initialDuration s' !! q = Some d' ∧ d' == 0
         ∧ completes s' q = false).
Proof.
  intros Hs%reachable_Inv Hq Hl Hh.
  destruct (inv_queues s Hs q Hq)
    as (l & p & d & Hl' & Hp & Hd & Hp0 & Hpd & _ & Hhd).
  rewrite Hl in Hl'. injection Hl' as <-.
  assert (Hd0 : d == 0).
  { destruct (Qlt_le_dec 0 d) as [Hpos|Hle]; [|lra].
    destruct (Hhd Hpos) as (h' & t' & [= <- <-] & Heq). lra. }
  assert (Hpz : p == 0) by lra.
  assert (Hb : blocked s q h).
  { split; [done|]. split; [done|]. by exists t, p, d. }
  split; [by exists p, d|]. split.
  - destruct (blocked_step InitializationPass s q h Hh I Hb) as (s1 & H1 & Hb1).
    exists s1. split; [exact H1|].
    destruct (initialization_at s s q h (Inv_entries s Hs) Hq
                (blocked_initializes _ _ _ Hb) (blocked_firstOf _ _ _ Hb))
      as (s1' & H1' & Hpr & Hdur & _).
    simpl in H1. rewrite H1 in H1'. injection H1' as <-.
    split; [done|]. split; [done|]. by apply (blocked_not_completes _ _ h).
  - intros es Hes. destruct (blocked_steps es s q h Hh Hes Hb) as (s' & Hrun & Hb').
    pose proof (blocked_not_completes _ _ _ Hb') as Hc.
    destruct Hb' as (_ & Hq' & t' & p' & d' & Hl' & Hp' & Hp0' & Hd' & Hd0').
    exists s', t', p', d'. done.
Qed.

Lemma zero_head_blocks_queue_witness :
  reachable zeroState ∧ "high1" ∈ allQueues zeroState
  ∧ subQueues zeroState !! "high1" = Some [0]
  ∧ ∃ s' t',
      execAll [EffectsPass; ProgressTick; EffectsPass; ProgressTick;
               EffectsPass] zeroState = Some s'
      ∧ subQueues s' !! "high1" = Some (0 :: t')
      ∧ completes s' "high1" = false.
Proof.
  assert (Hs : reachable zeroState).
  { apply stateAfter_reachable; [|vm_compute; eauto].
    repeat constructor. by apply mkTask_generated. }
  assert (Hq : "high1" ∈ allQueues zeroState) by (vm_compute; by left).
  assert (Hl : subQueues zeroState !! "high1" = Some [0])
    by (vm_compute; reflexivity).
  split; [exact Hs|]. split; [exact Hq|]. split; [exact Hl|].
  destruct (zero_head_blocks_queue zeroState "high1" 0 []
              Hs Hq Hl (Qeq_refl 0))
    as (_ & _ & Hforever).
  destruct (Hforever [EffectsPass; ProgressTick; EffectsPass; ProgressTick;
                      EffectsPass])
    as (s' & t' & p' & d' & Hrun & _ & Hl' & _ & _ & _ & _ & Hc).
  { repeat constructor. }
  exists s', t'. split; [exact Hrun|]. split; [exact Hl'|]. exact Hc.
Defined.

(** ** The group floor *)

Lemma removeHighPriorityQueue_floor s :
  (length (highPriorityQueues s) ≤ 1)%nat → removeHighPriorityQueue s = Some s.
Proof.
  intros H%Nat.leb_le. unfold removeHighPriorityQueue. by rewrite H.
Qed.

Lemma removeRegularPriorityQueue_floor s :
  (length (regularPriorityQueues s) ≤ 1)%nat →
  removeRegularPriorityQueue s = Some s.
Proof.
  intros H%Nat.leb_le. unfold removeRegularPriorityQueue. by rewrite H.
Qed.

(** C9. In every reachable state each of the two groups has at least one
    queue, and neither remove function fails.  On any state, removing from
    a group of at most one queue does nothing: the state is returned
    unchanged. *)
Theorem group_floor s :
  reachable s →
  (1 ≤ length (highPriorityQueues s))%nat
  ∧ (1 ≤ length (regularPriorityQueues s))%nat
  ∧ is_Some (removeHighPriorityQueue s)
  ∧ is_Some (removeRegularPriorityQueue s)
  ∧ (∀ s0, (length (highPriorityQueues s0) ≤ 1)%nat →
           removeHighPriorityQueue s0 = Some s0)
  ∧ (∀ s0, (length (regularPriorityQueues s0) ≤ 1)%nat →
           removeRegularPriorityQueue s0 = Some s0).
Proof.
  intros Hs%reachable_Inv.
  pose proof Hs as [(n & Hn & Hh) (m & Hm & Hr) _ _].
  split; [by rewrite Hh, queueNames_length|].
  split; [by rewrite Hr, queueNames_length|].
  split; [apply (exec_total RemoveHighPriorityQueue s Hs)|].
  split; [apply (exec_total RemoveRegularPriorityQueue s Hs)|].
  split; [apply removeHighPriorityQueue_floor
         | apply removeRegularPriorityQueue_floor].
Qed.

Lemma group_floor_witness :
  reachable initialState
  ∧ (1 ≤ length (highPriorityQueues initialState))%nat
  ∧ removeHighPriorityQueue initialState = Some initialState.
Proof.
  split; [apply reachable_init|].
  destruct (group_floor initialState reachable_init)
    as (Hh & _ & _ & _ & Hfloor & _).
  split; [exact Hh|]. apply Hfloor. simpl. lia.
Defined.

(** ** Progress and initial duration *)

(** C7 as stated fails.  In [zeroState] a task of value 0 is the head of
    [high1] and awaits initialization.  The effects of the render
    initialize it: the initialization effect finds its guard true and sets
    progress and initial duration to the value of the head, which is 0.
    The queue then has an initialized head task and an initial duration of
    0. *)
Lemma initialized_head_of_zero_has_no_duration :
  reachable zeroState
  ∧ subQueues zeroState !! "high1" = Some [0]
  ∧ initializes zeroState "high1" = true
  ∧ firstOf zeroState "high1" = Some 0
  ∧ ∃ s', exec EffectsPass zeroState = Some s'
      ∧ subQueues s' !! "high1" = Some [0]
      ∧ progress s' !! "high1" = firstOf zeroState "high1"
      ∧ initialDuration s' !! "high1" = firstOf zeroState "high1"
      ∧ initialDuration s' !! "high1" = Some 0.
Proof.
  split.
  { apply stateAfter_reachable; [|vm_compute; eauto].
    repeat constructor. by apply mkTask_generated. }
  do 3 (split; [vm_compute; reflexivity|]).
  exists (default initialState (runEffects zeroState)).
  do 4 (split; [vm_compute; reflexivity|]). vm_compute; reflexivity.
Qed.

(** The effects of a render initialize every head that awaits it: progress
    and initial duration become the value of the head. *)
Lemma runEffects_initializes s q h :
  Inv s → q ∈ allQueues s → initializes s q = true → firstOf s q = Some h →
  ∃ s', runEffects s = Some s'
    ∧ progress s' !! q = Some h ∧ initialDuration s' !! q = Some h.
Proof.
  intros Hs Hq Hinit Hfirst.
  destruct (completionEffect_step s Hs) as (s1 & H1 & HOK1 & HRel1 & Hf1).
  destruct (rebalanceEffect_total s s1 (Inv_entries s Hs)) as [s2 H2].
  { intros n Hn. by apply queueOK_entry, HOK1. }
  destruct (rebalanceEffect_step s s1 s2 Hs H2) as (_ & _ & Hf2); auto.
  destruct (initialization_fold s (allQueues s) s2 (Inv_entries s Hs))
    as (pr' & dur' & Hfold & Hpr & Hdur).
  eexists. split.
  { unfold runEffects. rewrite H1. cbn [mbind option_bind]. rewrite H2.
    cbn [mbind option_bind]. exact Hfold. }
  simpl. by rewrite Hpr, Hdur, bool_decide_eq_true_2, Hinit, Hfirst.
Qed.

(** C7, amended.  In every reachable state, for every queue of the two
    groups: the three entries exist and 0 <= progress <= initialDuration;
    an empty queue has initialDuration 0; a positive initialDuration is the
    value of the task at the head, which is then in flight; with
    initialDuration 0 the progress is 0 as well, and a head task is then
    initialized by the effects of the render, which set progress and
    initialDuration to its value (so that initialDuration stays 0 for a
    head of value 0). *)
Theorem progress_bounded_by_initial_duration s q :
  reachable s → q ∈ allQueues s →
  ∃ l p d,
    subQueues s !! q = Some l ∧ progress s !! q = Some p
    ∧ initialDuration s !! q = Some d
    ∧ 0 <= p ∧ p <= d
    ∧ (l = [] → d == 0)
    ∧ (0 < d → ∃ h t, l = h :: t ∧ h == d)
    ∧ (d == 0 → p == 0)
    ∧ (∀ h t, l = h :: t → d == 0 →
         ∃ s', exec EffectsPass s = Some s'
           ∧ progress s' !! q = Some h ∧ initialDuration s' !! q = Some h).
Proof.
  intros Hs%reachable_Inv Hq.
  destruct (inv_queues s Hs q Hq)
    as (l & p & d & Hl & Hp & Hd & Hp0 & Hpd & _ & Hhd).
  exists l, p, d. do 5 (split; [done|]). split; [|split; [|split]].
  - intros ->. destruct (Qlt_le_dec 0 d) as [Hpos|Hle]; [|lra].
    by destruct (Hhd Hpos) as (? & ? & ? & _).
  - done.
  - intros Hd0. lra.
  - intros h t -> Hd0. apply runEffects_initializes; [done | done | |].
    + apply initializes_iff. exists (h :: t), p, d.
      do 4 (split; [done|]). split; [lra | done].
    + unfold firstOf. by rewrite Hl.
Qed.

Lemma progress_bounded_by_initial_duration_witness :
  reachable fortyState ∧ "high1" ∈ allQueues fortyState
  ∧ ∃ p d,
      progress fortyState !! "high1" = Some p
      ∧ initialDuration fortyState !! "high1" = Some d
      ∧ 0 <= p ∧ p <= d.
Proof.
  assert (Hs : reachable fortyState).
  { apply stateAfter_reachable; [|vm_compute; eauto].
    repeat constructor. by apply mkTask_generated. }
  assert (Hq : "high1" ∈ allQueues fortyState) by (vm_compute; by left).
  split; [exact Hs|]. split; [exact Hq|].
  destruct (progress_bounded_by_initial_duration fortyState "high1" Hs Hq)
    as (l & p & d & _ & Hp & Hd & Hp0 & Hpd & _).
  exists p, d. split; [exact Hp|]. split; [exact Hd|]. split; [exact Hp0|].
  exact Hpd.
Defined.

(** * Further properties of the component *)

(** ** No operation throws *)



(** ** Queue names and entries *)

(** X2. In a reachable state the high group is [high1 .. highN] and the
    regular group [regular1 .. regularM] with N and M at least 1, so the
    queue at position [i] of a group carries the number [i + 1] in its
    name; no name occurs twice in the two groups; and every queue of the
    groups has an entry in [subQueues], [progress] and [initialDuration]. *)
Theorem queue_names_distinct s :
  reachable s →
  NoDup (allQueues s)
  ∧ (∀ i name, highPriorityQueues s !! i = Some name →
       name = "high" +:+ pretty (i + 1)%nat)
  ∧ (∀ i name, regularPriorityQueues s !! i = Some name →
       name = "regular" +:+ pretty (i + 1)%nat)
  ∧ (∀ q, q ∈ allQueues s →
       is_Some (subQueues s !! q) ∧ is_Some (progress s !! q)
       ∧ is_Some (initialDuration s !! q)).
Proof.
  intros Hs%reachable_Inv. split; [by apply Inv_NoDup|].
  pose proof Hs as [(n & _ & Hh) (m & _ & Hr) Hqs _].
  assert (Hnames : ∀ prefix k i name,
            queueNames prefix k !! i = Some name →
            name = prefix +:+ pretty (i + 1)%nat).
  { intros prefix k i name. unfold queueNames. rewrite list_lookup_fmap.
    destruct (seq 1 k !! i) as [j|] eqn:Hj; [|done].
    apply lookup_seq in Hj as [-> _]. simpl. intros [= <-].
    do 2 f_equal. lia. }
  split; [intros i name; rewrite Hh; apply Hnames|].
  split; [intros i name; rewrite Hr; apply Hnames|].
  intros q (l & p & d & -> & -> & -> & _)%Hqs. eauto.
Qed.

Lemma queue_names_distinct_witness :
  reachable rebalanceState
  ∧ NoDup (allQueues rebalanceState)
  ∧ highPriorityQueues rebalanceState !! 1%nat = Some "high2".
Proof.
  assert (Hs : reachable rebalanceState).
  { apply stateAfter_reachable; [|vm_compute; eauto].
    repeat constructor; by apply mkTask_generated. }
  split; [exact Hs|].
  destruct (queue_names_distinct rebalanceState Hs) as (Hnd & _).
  split; [exact Hnd|]. vm_compute. reflexivity.
Defined.

(** X3. In a reachable state no pending value of a queue of the groups and
    no value waiting in the main queue is negative. *)
Theorem durations_never_negative s :
  reachable s →
  (∀ q l v, q ∈ allQueues s → subQueues s !! q = Some l → v ∈ l → 0 <= v)
  ∧ (∀ t, t ∈ queue s → 0 <= value t).
Proof.
  intros Hs%reachable_Inv. split.
  - intros q l v Hq Hl Hv.
    destruct (inv_queues s Hs q Hq) as (l' & _ & _ & Hl' & _ & _ & _ & _ & Hall & _).
    rewrite Hl in Hl'. injection Hl' as <-.
    rewrite Forall_forall in Hall. by apply Hall.
  - intros t Ht. pose proof (inv_intake s Hs) as Hall.
    rewrite Forall_forall in Hall. by apply Hall.
Qed.

Lemma durations_never_negative_witness :
  reachable shrinkState
  ∧ ∀ v, v ∈ [9; 10; 20] → 0 <= v.
Proof.
  assert (Hs : reachable shrinkState).
  { apply stateAfter_reachable; [|vm_compute; eauto].
    unfold shrinkScenario. apply Forall_enabled_app;
      [repeat constructor; by apply mkTask_generated
      | apply Forall_enabled_ticks]. }
  split; [exact Hs|].
  destruct (durations_never_negative shrinkState Hs) as [Hpend _].
  intros v Hv. apply (Hpend "high2" [9; 10; 20]); [|vm_compute; reflexivity|exact Hv].
  vm_compute. right. by left.
Defined.

(** ** The progress bar *)

Lemma orZero_Some v : orZero (Some v) == v.
Proof.
  unfold orZero. destruct (Qeq_bool v 0) eqn:H; [|reflexivity].
  apply Qeq_bool_iff in H. by rewrite H.
Qed.

Lemma barWidth_bounds p d :
  0 <= p → p <= d → 0 <= barWidth p d ∧ barWidth p d <= 100.
Proof.
  intros Hp Hpd. unfold barWidth. destruct (Qeq_bool d 0) eqn:Hd.
  - split; [apply Qle_refl | done].
  - assert (Hpos : 0 < d).
    { apply Qeq_bool_neq in Hd. destruct (Qlt_le_dec 0 d); [done|].
      exfalso. apply Hd. lra. }
    assert (H1 : p / d <= 1) by (apply Qle_shift_div_r; [done | lra]).
    assert (H0 : 0 <= p / d) by (apply Qle_shift_div_l; [done | lra]).
    split; lra.
Qed.

(** X4. In a reachable state the progress bar that [QueueComponent] draws
    for a queue of the two groups is between 0 and 100 percent wide; it is
    0 when the initial duration is 0 and 100 when the progress equals a
    positive initial duration. *)
Theorem progress_bar_within_bounds s q :
  reachable s → q ∈ allQueues s →
  0 <= renderedWidth s q ∧ renderedWidth s q <= 100
  ∧ (∀ d, initialDuration s !! q = Some d → d == 0 → renderedWidth s q == 0)
  ∧ (∀ p d, progress s !! q = Some p → initialDuration s !! q = Some d →
       0 < d → p == d → renderedWidth s q == 100).
Proof.
  intros Hs%reachable_Inv Hq.
  destruct (inv_queues s Hs q Hq)
    as (l & p & d & Hl & Hp & Hd & Hp0 & Hpd & _).
  unfold renderedWidth. rewrite Hp, Hd.
  pose proof (orZero_Some p) as Ep. pose proof (orZero_Some d) as Ed.
  destruct (barWidth_bounds (orZero (Some p)) (orZero (Some d))) as [H0 H100];
    [lra | lra |].
  split; [done|]. split; [done|]. split.
  - intros d' [= <-] Hz. unfold barWidth.
    assert (Hb : Qeq_bool (orZero (Some d)) 0 = true)
      by (apply Qeq_bool_iff; lra).
    by rewrite Hb.
  - intros p' d' [= <-] [= <-] Hpos Heq. unfold barWidth.
    destruct (Qeq_bool (orZero (Some d)) 0) eqn:Hb.
    { apply Qeq_bool_iff in Hb. lra. }
    rewrite Ep, Ed, Heq. field. lra.
Qed.

Lemma progress_bar_within_bounds_witness :
  reachable fortyState ∧ "high1" ∈ allQueues fortyState
  ∧ 0 <= renderedWidth fortyState "high1"
  ∧ renderedWidth fortyState "high1" <= 100.
Proof.
  assert (Hs : reachable fortyState).
  { apply stateAfter_reachable; [|vm_compute; eauto].
    repeat constructor. by apply mkTask_generated. }
  assert (Hq : "high1" ∈ allQueues fortyState) by (vm_compute; by left).
  split; [exact Hs|]. split; [exact Hq|].
  destruct (progress_bar_within_bounds fortyState "high1" Hs Hq)
    as (H0 & H100 & _).
  split; [exact H0 | exact H100].
Defined.

(** ** Sums of pending values *)

Lemma sumOf_app l k : sumOf (l ++ k) == sumOf l + sumOf k.
Proof.
  unfold sumOf at 1. rewrite fold_left_app, fold_left_Qplus. reflexivity.
Qed.

Lemma load_insert_eq sq m l : load (<[m := l]> sq) m = sumOf l.
Proof. unfold load. by rewrite lookup_insert_eq. Qed.

Lemma totalLoad_ext sq sq' names :
  (∀ q, q ∈ names → sq' !! q = sq !! q) →
  totalLoad sq' names = totalLoad sq names.
Proof.
  intros H. unfold totalLoad. f_equal. apply list_fmap_ext.
  intros i q Hq. unfold load. rewrite H; [done|].
  by apply list_elem_of_lookup_2 in Hq.
Qed.

Lemma totalLoad_app sq l k :
  totalLoad sq (l ++ k) == totalLoad sq l + totalLoad sq k.
Proof. unfold totalLoad. rewrite fmap_app. apply sumOf_app. Qed.

Lemma totalLoad_cons sq q l :
  totalLoad sq (q :: l) == load sq q + totalLoad sq l.
Proof. unfold totalLoad. rewrite fmap_cons. apply sumOf_cons. Qed.

(** Replacing the list of one queue of a duplicate-free list of names. *)
Lemma totalLoad_insert sq names m l :
  NoDup names → m ∈ names →
  totalLoad (<[m := l]> sq) names == totalLoad sq names - load sq m + sumOf l.
Proof.
  intros Hnd Hm. apply list_elem_of_split in Hm as (pre & post & ->).
  apply NoDup_app in Hnd as (_ & Hpre & Hpost).
  apply NoDup_cons in Hpost as [Hpost _].
  rewrite !totalLoad_app, !totalLoad_cons, load_insert_eq.
  rewrite (totalLoad_ext sq (<[m := l]> sq) pre),
          (totalLoad_ext sq (<[m := l]> sq) post).
  - lra.
  - intros q Hq. apply lookup_insert_ne. by intros ->.
  - intros q Hq. apply lookup_insert_ne. intros ->. apply (Hpre q Hq). by left.
Qed.

Lemma sumOf_removelast (l : list Q) t :
  last l = Some t → sumOf l == sumOf (removelast l) + t.
Proof.
  intros H. rewrite (removelast_snoc_last l t H) at 1.
  rewrite sumOf_app, sumOf_cons. change (sumOf []) with 0. lra.
Qed.

(** ** The two groups *)

Lemma group_names s ty :
  Inv s → ∃ n, (1 ≤ n)%nat ∧ groupOf s ty = queueNames (prefixOf ty) n.
Proof. intros [Hh Hr _ _]. by destruct ty. Qed.

Lemma group_NoDup s ty : Inv s → NoDup (groupOf s ty).
Proof. intros (n & _ & ->)%(group_names s ty). apply queueNames_NoDup. Qed.

Lemma groups_disjoint s ty q :
  Inv s → q ∈ groupOf s ty → q ∉ groupOf s (otherType ty).
Proof.
  intros Hs. destruct (group_names s high Hs) as (n & _ & Hh).
  destruct (group_names s normal Hs) as (m & _ & Hr).
  destruct ty; simpl in *; rewrite Hh, Hr.
  - apply queueNames_disjoint.
  - intros H1 H2. by apply (queueNames_disjoint n m q H2).
Qed.

Lemma allQueues_groups s q :
  q ∈ allQueues s ↔ q ∈ groupOf s high ∨ q ∈ groupOf s normal.
Proof. unfold allQueues. apply elem_of_app. Qed.

(** ** Admission keeps the books *)

(** X5. Admitting the head task of the main queue in a reachable state
    succeeds; the sum of the pending values of the group of the task's type
    grows by exactly the task's value, no queue outside that group changes,
    and progress, initial durations and the two groups stay as they are. *)
Theorem admission_adds_task_value s task rest :
  reachable s → queue s = task :: rest →
  ∃ s', admitTask s = Some s'
    ∧ queue s' = rest
    ∧ totalLoad (subQueues s') (groupOf s (type task))
      == totalLoad (subQueues s) (groupOf s (type task)) + value task
    ∧ (∀ q, q ∉ groupOf s (type task) → subQueues s' !! q = subQueues s !! q)
    ∧ progress s' = progress s
    ∧ initialDuration s' = initialDuration s
    ∧ highPriorityQueues s' = highPriorityQueues s
    ∧ regularPriorityQueues s' = regularPriorityQueues s.
Proof.
  intros Hs%reachable_Inv Hq.
  destruct (admitTask_cons s task rest Hq)
    as (m & lm & Hin & Hm & _ & Hres).
  { by apply Inv_group_nonempty. }
  { intros n Hn. eapply Inv_entries, groupOf_all; eauto. }
  eexists. split; [exact Hres|]. simpl.
  split; [done|]. split; [|split; [|done]].
  - rewrite totalLoad_insert by (by apply group_NoDup || done).
    rewrite sumOf_app, sumOf_cons. unfold load. rewrite Hm. simpl.
    change (sumOf []) with 0. lra.
  - intros q Hq'. apply lookup_insert_ne. by intros ->.
Qed.

Lemma admission_adds_task_value_witness :
  reachable admittedState
  ∧ queue (enqueueTask (mkTask 7 normal) admittedState) = [mkTask 7 normal]
  ∧ ∃ s', admitTask (enqueueTask (mkTask 7 normal) admittedState) = Some s'
      ∧ queue s' = [].
Proof.
  assert (Hs : reachable admittedState).
  { apply stateAfter_reachable; [|vm_compute; eauto].
    repeat constructor. by apply mkTask_generated. }
  assert (Hs' : reachable (enqueueTask (mkTask 7 normal) admittedState)).
  { apply (reachable_step admittedState (EnqueueTask (mkTask 7 normal)));
      [exact Hs | by apply mkTask_generated | reflexivity]. }
  assert (Hq : queue (enqueueTask (mkTask 7 normal) admittedState)
               = mkTask 7 normal :: []) by (vm_compute; reflexivity).
  split; [exact Hs|]. split; [exact Hq|].
  destruct (admission_adds_task_value _ _ _ Hs' Hq) as (s' & Hadm & Hrest & _).
  exists s'. split; [exact Hadm | exact Hrest].
Defined.

(** ** Growing and shrinking a group *)

Lemma exec_addEvent ty s :
  exec (addEvent ty) s
  = Some (set_group ty (groupOf s ty ++ [nextQueueName s ty])
            (registerQueue (nextQueueName s ty) s)).
Proof. by destruct ty. Qed.

Lemma exec_removeEvent ty s :
  exec (removeEvent ty) s
  = if (length (groupOf s ty) <=? 1)%nat then Some s
    else s' ← dropQueue (groupOf s ty) s;
         Some (set_group ty (removelast (groupOf s ty)) s').
Proof. by destruct ty. Qed.

Lemma groupOf_set_group ty names s : groupOf (set_group ty names s) ty = names.
Proof. by destruct ty. Qed.

Lemma groupOf_set_group_other ty names s :
  groupOf (set_group ty names s) (otherType ty) = groupOf s (otherType ty).
Proof. by destruct ty. Qed.

Lemma nextQueueName_fresh ty s : Inv s → nextQueueName s ty ∉ allQueues s.
Proof.
  intros Hs. destruct (group_names s ty Hs) as (n & Hn & Hg).
  assert (Hnext : nextQueueName s ty ∈ queueNames (prefixOf ty) (S n)).
  { unfold nextQueueName. rewrite Hg, queueNames_length, queueNames_S.
    apply elem_of_app. right. by left. }
  assert (Hown : nextQueueName s ty ∉ groupOf s ty).
  { unfold nextQueueName. rewrite Hg, queueNames_length.
    apply queueNames_fresh. }
  destruct (group_names s (otherType ty) Hs) as (m & _ & Ho).
  intros [H|H]%allQueues_groups; destruct ty; simpl in *.
  - by apply Hown.
  - rewrite Ho in H. by apply (queueNames_disjoint m (S n) _ H).
  - rewrite Ho in H. by apply (queueNames_disjoint (S n) m _ Hnext).
  - by apply Hown.
Qed.

(** What dropping the last queue [r] of a group [rest ++ [r]] does to the
    books. *)
Lemma dropQueue_books rest r s lr :
  NoDup (rest ++ [r]) → rest ≠ [] →
  (∀ n, n ∈ rest → is_Some (subQueues s !! n)) →
  subQueues s !! r = Some lr →
  ∃ s', dropQueue (rest ++ [r]) s = Some s'
    ∧ totalLoad (subQueues s') rest
      == totalLoad (subQueues s) (rest ++ [r]) + remainderOf s r
    ∧ (∀ q, q ∉ rest → q ≠ r → subQueues s' !! q = subQueues s !! q)
    ∧ (lr = [] → currentTaskOf s r = None →
       ∀ q, q ≠ r → subQueues s' !! q = subQueues s !! q)
    ∧ subQueues s' !! r = None
    ∧ progress s' = delete r (progress s)
    ∧ initialDuration s' = delete r (initialDuration s)
    ∧ newlyCreatedQueues s' = newlyCreatedQueues s ∖ {[r]}
    ∧ queue s' = queue s
    ∧ highPriorityQueues s' = highPriorityQueues s
    ∧ regularPriorityQueues s' = regularPriorityQueues s
    ∧ decrementPaused s' = decrementPaused s.
Proof.
  intros Hnd Hne Hrest Hlr.
  apply NoDup_app in Hnd as (Hndr & Hnot & _).
  assert (Hr : ∀ q, q ∈ rest → q ≠ r).
  { intros q Hq ->. apply (Hnot r Hq). by left. }
  assert (Hsum : totalLoad (subQueues s) (rest ++ [r])
                 == totalLoad (subQueues s) rest + sumOf lr).
  { rewrite totalLoad_app, totalLoad_cons. unfold load. rewrite Hlr. simpl.
    change (totalLoad (subQueues s) []) with 0. lra. }
  unfold dropQueue. rewrite last_snoc. cbn [mbind option_bind].
  unfold shrinkSubQueues. rewrite removelast_last, Hlr. simpl default.
  destruct ((0 <? length lr)%nat
            || bool_decide (is_Some (currentTaskOf s r))) eqn:Hcond.
  - destruct (leastLoaded_pick rest (subQueues s) Hne Hrest)
      as (m & Hleast & Hm).
    destruct (Hrest m Hm) as [l Hl].
    rewrite Hleast. cbn [mbind option_bind]. rewrite Hl.
    cbn [mbind option_bind]. eexists. split; [reflexivity|]. simpl.
    split; [|split; [|split; [|split; [apply lookup_delete_eq | done]]]].
    + rewrite (totalLoad_ext
                 (<[m := l ++ option_list (currentTaskOf s r) ++ lr]> (subQueues s))).
      2:{ intros q Hq. apply lookup_delete_ne. intros Heq'. by apply (Hr q Hq). }
      rewrite totalLoad_insert by done.
      rewrite Hsum, !sumOf_app. unfold load, remainderOf. rewrite Hl. simpl.
      lra.
    + intros q Hq Hqr. rewrite lookup_delete_ne by (by intros ?).
      apply lookup_insert_ne. by intros ->.
    + intros -> Hct. rewrite Hct in Hcond. done.
  - apply orb_false_iff in Hcond as [Hlen Hct].
    assert (lr = []) as -> by (destruct lr; [done | discriminate]).
    apply bool_decide_eq_false in Hct.
    assert (Hnone : currentTaskOf s r = None).
    { destruct (currentTaskOf s r); [|done]. destruct Hct. eauto. }
    eexists. split; [reflexivity|]. simpl.
    split; [|split; [|split; [|split; [apply lookup_delete_eq | done]]]].
    + rewrite (totalLoad_ext (subQueues s)).
      2:{ intros q Hq. apply lookup_delete_ne. intros Heq'. by apply (Hr q Hq). }
      rewrite Hsum. unfold remainderOf. rewrite Hnone. simpl.
      change (sumOf []) with 0. lra.
    + intros q _ Hqr. by apply lookup_delete_ne.
    + intros _ _ q Hqr. by apply lookup_delete_ne.
Qed.

(** The last queue of a group of more than one queue, in a state of the
    invariant. *)
Lemma group_snoc s ty :
  Inv s → (1 < length (groupOf s ty))%nat →
  ∃ rest r, groupOf s ty = rest ++ [r] ∧ rest ≠ [] ∧ NoDup (rest ++ [r])
    ∧ (∀ q, q ∈ rest ++ [r] → q ∉ groupOf s (otherType ty)).
Proof.
  intros Hs Hlen. pose proof (group_NoDup s ty Hs) as Hnd.
  destruct (group_names s ty Hs) as (n & _ & Hg).
  rewrite Hg, queueNames_length in Hlen.
  destruct n as [|[|n]]; [lia..|].
  exists (queueNames (prefixOf ty) (S n)), (prefixOf ty +:+ pretty (S n + 1)%nat).
  split; [by rewrite Hg, (queueNames_S _ (S n))|].
  split; [rewrite queueNames_S; by intros [_ ?]%app_eq_nil|].
  rewrite <- (queueNames_S _ (S n)), <- Hg. split; [done|].
  intros q Hq. by apply groups_disjoint.
Qed.

(** X6. Removing a queue from a group of more than one queue in a reachable
    state succeeds and removes the last queue [r] of that group: its three
    entries are deleted and it leaves the grace set.  The sum of the pending
    values of the group afterwards is the sum before plus what is re-queued
    of the task in flight (the remaining progress of [r] when positive), so
    no pending value is lost.  The other group, its queues, the main queue
    and the progress and initial duration of every other queue are
    unchanged. *)
Theorem removal_loses_no_pending_task ty s :
  reachable s → (1 < length (groupOf s ty))%nat →
  ∃ s' r, exec (removeEvent ty) s = Some s'
    ∧ groupOf s ty = groupOf s' ty ++ [r]
    ∧ groupOf s' (otherType ty) = groupOf s (otherType ty)
    ∧ subQueues s' !! r = None
    ∧ progress s' !! r = None
    ∧ initialDuration s' !! r = None
    ∧ (r ∉ newlyCreatedQueues s')
    ∧ (totalLoad (subQueues s') (groupOf s' ty)
       == totalLoad (subQueues s) (groupOf s ty) + remainderOf s r)
    ∧ (∀ q, q ∈ groupOf s (otherType ty) →
         subQueues s' !! q = subQueues s !! q)
    ∧ (∀ q, q ≠ r →
         progress s' !! q = progress s !! q
         ∧ initialDuration s' !! q = initialDuration s !! q)
    ∧ queue s' = queue s.
Proof.
  intros Hs%reachable_Inv Hlen.
  destruct (group_snoc s ty Hs Hlen) as (rest & r & Hg & Hne & Hnd & Hdisj).
  assert (Hent : ∀ n, n ∈ rest ++ [r] → is_Some (subQueues s !! n)).
  { intros n Hn. apply (Inv_entries s Hs), (groupOf_all s ty). by rewrite Hg. }
  destruct (Hent r) as [lr Hlr]; [apply elem_of_app; right; by left|].
  destruct (dropQueue_books rest r s lr Hnd Hne) as
    (s' & Hdrop & Hsum & Hout & _ & Hsr & Hp & Hd & Hnew & Hq & Hh & Hrg & _);
    [intros n Hn; apply Hent, elem_of_app; by left | done |].
  exists (set_group ty rest s'), r.
  split.
  { rewrite exec_removeEvent.
    destruct (length (groupOf s ty) <=? 1)%nat eqn:Hle;
      [apply Nat.leb_le in Hle; lia|].
    rewrite Hg, Hdrop. cbn [mbind option_bind]. by rewrite removelast_last. }
  rewrite groupOf_set_group, groupOf_set_group_other.
  split; [done|].
  split; [by destruct ty; simpl; rewrite ?Hh, ?Hrg|].
  assert (Hfields : ∀ names,
    subQueues (set_group ty names s') = subQueues s'
    ∧ progress (set_group ty names s') = progress s'
    ∧ initialDuration (set_group ty names s') = initialDuration s'
    ∧ newlyCreatedQueues (set_group ty names s') = newlyCreatedQueues s'
    ∧ queue (set_group ty names s') = queue s') by (by destruct ty).
  destruct (Hfields rest) as (-> & -> & -> & -> & ->).
  split; [done|]. split; [by rewrite Hp, lookup_delete_eq|].
  split; [by rewrite Hd, lookup_delete_eq|].
  split; [rewrite Hnew; intros [_ Hn]%elem_of_difference;
          by apply Hn, elem_of_singleton|].
  split; [by rewrite Hsum, Hg|].
  split.
  { intros q Hq'. apply Hout.
    - intros Hin. apply (Hdisj q); [apply elem_of_app; by left | done].
    - intros ->. apply (Hdisj r); [apply elem_of_app; right; by left | done]. }
  split; [|done].
  intros q Hqr. by rewrite Hp, Hd, !lookup_delete_ne.
Qed.

Lemma removal_loses_no_pending_task_witness :
  reachable shrinkState
  ∧ (1 < length (groupOf shrinkState high))%nat
  ∧ ∃ s' r, exec (removeEvent high) shrinkState = Some s'
      ∧ groupOf shrinkState high = groupOf s' high ++ [r].
Proof.
  assert (Hs : reachable shrinkState).
  { apply stateAfter_reachable; [|vm_compute; eauto].
    repeat constructor; by apply mkTask_generated. }
  assert (Hlen : (1 < length (groupOf shrinkState high))%nat)
    by (vm_compute; lia).
  split; [exact Hs|]. split; [exact Hlen|].
  destruct (removal_loses_no_pending_task high shrinkState Hs Hlen)
    as (s' & r & Hex & Hg & _).
  exists s', r. split; [exact Hex | exact Hg].
Defined.

Lemma set_group_fields ty names s :
  subQueues (set_group ty names s) = subQueues s
  ∧ progress (set_group ty names s) = progress s
  ∧ initialDuration (set_group ty names s) = initialDuration s
  ∧ newlyCreatedQueues (set_group ty names s) = newlyCreatedQueues s
  ∧ queue (set_group ty names s) = queue s
  ∧ decrementPaused (set_group ty names s) = decrementPaused s.
Proof. by destruct ty. Qed.

Lemma guards_ext s s' q :
  subQueues s' = subQueues s → progress s' = progress s →
  initialDuration s' = initialDuration s →
  newlyCreatedQueues s' = newlyCreatedQueues s →
  isIdle s' q = isIdle s q ∧ isBusy s' q = isBusy s q.
Proof.
  intros H1 H2 H3 H4. unfold isIdle, isBusy, idleGuard, busyGuard.
  by rewrite H1, H2, H3, H4.
Qed.

(** X7. Adding a queue to a group in a reachable state appends the name
    [prefix(N+1)] to that group, and that name is not in use: it is the name
    of no queue of either group.  The new queue starts with no pending
    task, progress 0 and initial duration 0; while it is in its grace period
    the rebalancing effect counts it neither as idle nor as busy, and once
    the grace period has expired it is idle.  The other group, the main
    queue and the three entries of every existing queue are unchanged. *)
Theorem added_queue_is_fresh ty s :
  reachable s →
  ∃ s', exec (addEvent ty) s = Some s'
    ∧ (nextQueueName s ty ∉ allQueues s)
    ∧ groupOf s' ty = groupOf s ty ++ [nextQueueName s ty]
    ∧ groupOf s' (otherType ty) = groupOf s (otherType ty)
    ∧ subQueues s' !! nextQueueName s ty = Some []
    ∧ progress s' !! nextQueueName s ty = Some 0
    ∧ initialDuration s' !! nextQueueName s ty = Some 0
    ∧ isIdle s' (nextQueueName s ty) = false
    ∧ isBusy s' (nextQueueName s ty) = false
    ∧ isIdle (graceExpired (nextQueueName s ty) s') (nextQueueName s ty) = true
    ∧ (∀ q, q ∈ allQueues s →
         subQueues s' !! q = subQueues s !! q
         ∧ progress s' !! q = progress s !! q
         ∧ initialDuration s' !! q = initialDuration s !! q)
    ∧ queue s' = queue s.
Proof.
  intros Hs%reachable_Inv.
  pose proof (nextQueueName_fresh ty s Hs) as Hfresh.
  set (name := nextQueueName s ty) in *.
  eexists. split; [apply exec_addEvent|]. fold name.
  set (s1 := registerQueue name s).
  destruct (set_group_fields ty (groupOf s ty ++ [name]) s1)
    as (Hsq & Hp & Hd & Hnew & Hq & _).
  rewrite groupOf_set_group, groupOf_set_group_other, Hsq, Hp, Hd, Hq.
  split; [done|]. split; [done|]. split; [by destruct ty|].
  assert (Hl : subQueues s1 !! name = Some []) by apply lookup_insert_eq.
  assert (Hp0 : progress s1 !! name = Some 0) by apply lookup_insert_eq.
  assert (Hd0 : initialDuration s1 !! name = Some 0) by apply lookup_insert_eq.
  do 3 (split; [done|]).
  destruct (guards_ext s1 (set_group ty (groupOf s ty ++ [name]) s1) name)
    as [-> ->]; [done..|].
  assert (Hin : name ∈ newlyCreatedQueues s1).
  { apply elem_of_union. left. by apply elem_of_singleton. }
  split; [|split; [|split; [|split; [|done]]]].
  - unfold isIdle, idleGuard. rewrite Hl. simpl.
    rewrite (bool_decide_eq_true_2 _ Hin). by rewrite andb_false_r.
  - unfold isBusy, busyGuard. by rewrite Hl.
  - unfold isIdle, idleGuard. simpl. rewrite Hsq, Hp, Hd, Hnew, Hl, Hp0, Hd0.
    simpl. rewrite bool_decide_eq_false_2; [done|].
    intros [_ Hn]%elem_of_difference. by apply Hn, elem_of_singleton.
  - intros q Hq'. assert (q ≠ name) by (by intros ->).
    simpl. by rewrite !lookup_insert_ne.
Qed.

Lemma added_queue_is_fresh_witness :
  reachable shrinkState
  ∧ ∃ s', exec (addEvent high) shrinkState = Some s'
      ∧ (nextQueueName shrinkState high ∉ allQueues shrinkState)
      ∧ groupOf s' high = ["high1"; "high2"; "high3"].
Proof.
  assert (Hs : reachable shrinkState).
  { apply stateAfter_reachable; [|vm_compute; eauto].
    repeat constructor; by apply mkTask_generated. }
  split; [exact Hs|].
  destruct (added_queue_is_fresh high shrinkState Hs)
    as (s' & Hex & Hfresh & Hg & _).
  exists s'. split; [exact Hex|]. split; [exact Hfresh|].
  rewrite Hg. vm_compute. reflexivity.
Defined.

(** X8. Adding a queue to a group and removing it again, with nothing in
    between, restores the component: both groups, the main queue, the pause
    flag and the three entries of every queue are what they were, the three
    entries of the added name are gone again and the name is out of the
    grace set.  No task moves: the removed queue is empty and has no task in
    flight. *)
Theorem add_then_remove_restores ty s :
  reachable s →
  ∃ s1 s2, exec (addEvent ty) s = Some s1
    ∧ exec (removeEvent ty) s1 = Some s2
    ∧ highPriorityQueues s2 = highPriorityQueues s
    ∧ regularPriorityQueues s2 = regularPriorityQueues s
    ∧ queue s2 = queue s
    ∧ decrementPaused s2 = decrementPaused s
    ∧ (∀ q, q ∈ allQueues s →
         subQueues s2 !! q = subQueues s !! q
         ∧ progress s2 !! q = progress s !! q
         ∧ initialDuration s2 !! q = initialDuration s !! q)
    ∧ subQueues s2 !! nextQueueName s ty = None
    ∧ progress s2 !! nextQueueName s ty = None
    ∧ initialDuration s2 !! nextQueueName s ty = None
    ∧ nextQueueName s ty ∉ newlyCreatedQueues s2.
Proof.
  intros Hs%reachable_Inv.
  pose proof (nextQueueName_fresh ty s Hs) as Hfresh.
  set (name := nextQueueName s ty) in *.
  set (s0 := registerQueue name s).
  set (s1 := set_group ty (groupOf s ty ++ [name]) s0).
  destruct (set_group_fields ty (groupOf s ty ++ [name]) s0)
    as (Hsq & Hp & Hd & Hnew & Hq & Hpa).
  fold s1 in Hsq, Hp, Hd, Hnew, Hq, Hpa.
  assert (Hg1 : groupOf s1 ty = groupOf s ty ++ [name])
    by apply groupOf_set_group.
  assert (Hnd : NoDup (groupOf s ty ++ [name])).
  { apply NoDup_app. split; [by apply group_NoDup|]. split; [|apply NoDup_singleton].
    intros q Hq' ->%list_elem_of_singleton. by apply Hfresh, (groupOf_all s ty). }
  assert (Hl : subQueues s1 !! name = Some [])
    by (rewrite Hsq; apply lookup_insert_eq).
  assert (Hct : currentTaskOf s1 name = None).
  { unfold currentTaskOf. rewrite Hp. unfold s0. simpl.
    by rewrite lookup_insert_eq. }
  destruct (dropQueue_books (groupOf s ty) name s1 [] Hnd) as
    (s' & Hdrop & _ & _ & Hsame & Hsr & Hp' & Hd' & Hnew' & Hq' & Hh & Hrg & Hpa');
    [by apply Inv_group_nonempty | | done |].
  { intros n Hn. rewrite Hsq. unfold s0. simpl.
    rewrite lookup_insert_ne by (intros <-; by apply Hfresh, (groupOf_all s ty)).
    by apply (Inv_entries s Hs), (groupOf_all s ty). }
  pose proof (Inv_group_nonempty s ty Hs) as Hne.
  exists s1, (set_group ty (groupOf s ty) s').
  split; [apply exec_addEvent|].
  split.
  { rewrite exec_removeEvent, Hg1, length_app. simpl.
    destruct (groupOf s ty) as [|a g] eqn:Hg; [done|].
    replace (length (a :: g) + 1 <=? 1)%nat with false
      by (symmetry; apply Nat.leb_gt; simpl; lia).
    rewrite Hdrop. cbn [mbind option_bind]. by rewrite removelast_last. }
  destruct (set_group_fields ty (groupOf s ty) s')
    as (-> & -> & -> & -> & -> & ->).
  split; [destruct ty; simpl; by rewrite ?Hh, ?Hrg|].
  split; [destruct ty; simpl; by rewrite ?Hh, ?Hrg|].
  split; [by rewrite Hq', Hq|]. split; [by rewrite Hpa', Hpa|].
  split.
  { intros q Hq''. assert (q ≠ name) by (by intros ->).
    rewrite (Hsame eq_refl Hct q), Hp', Hd', Hsq, Hp, Hd by done.
    rewrite !lookup_delete_ne by done. unfold s0. simpl.
    by rewrite !lookup_insert_ne. }
  split; [done|]. split; [by rewrite Hp', lookup_delete_eq|].
  split; [by rewrite Hd', lookup_delete_eq|].
  rewrite Hnew'. intros [_ Hn]%elem_of_difference.
  by apply Hn, elem_of_singleton.
Qed.

Lemma add_then_remove_restores_witness :
  reachable shrinkState
  ∧ ∃ s1 s2, exec (addEvent high) shrinkState = Some s1
      ∧ exec (removeEvent high) s1 = Some s2
      ∧ highPriorityQueues s2 = highPriorityQueues shrinkState.
Proof.
  assert (Hs : reachable shrinkState).
  { apply stateAfter_reachable; [|vm_compute; eauto].
    repeat constructor; by apply mkTask_generated. }
  split; [exact Hs|].
  destruct (add_then_remove_restores high shrinkState Hs)
    as (s1 & s2 & Hadd & Hrem & Hh & _).
  exists s1, s2. split; [exact Hadd|]. split; [exact Hrem | exact Hh].
Defined.

(** ** Rebalancing keeps the books *)

Lemma redistributeTasks_books snap g cur s' :
  NoDup g → redistributeTasks snap g cur = Some s' →
  totalLoad (subQueues s') g == totalLoad (subQueues cur) g
  ∧ (∀ q, q ∉ g → subQueues s' !! q = subQueues cur !! q)
  ∧ (∀ q, q ∈ newlyCreatedQueues snap →
       subQueues s' !! q = subQueues cur !! q)
  ∧ s' = set_subQueues (subQueues s') cur.
Proof.
  intros Hnd [->|(i & b & lb & t & li & Hi & Hb & Hidle & Hbusy & Hlb & Hlast
                  & Hli & ->)]%redistributeTasks_cases.
  { split; [reflexivity|]. split; [done|]. split; [done|].
    by rewrite set_subQueues_id. }
  simpl. pose proof (idle_not_busy snap i b Hidle Hbusy) as Hne.
  apply isIdle_iff in Hidle as (_ & _ & _ & Hinew).
  apply isBusy_iff in Hbusy as (_ & _ & _ & Hbnew).
  split; [|split; [|split; [|state_eq]]].
  - rewrite !totalLoad_insert by done.
    assert (load (<[b := removelast lb]> (subQueues cur)) i = sumOf li) as ->
      by (unfold load; by rewrite Hli).
    assert (load (subQueues cur) b = sumOf lb) as ->
      by (unfold load; by rewrite Hlb).
    rewrite (sumOf_removelast lb t Hlast), sumOf_cons. lra.
  - intros q Hq. rewrite !lookup_insert_ne; [done|by intros ->..].
  - intros q Hq. rewrite !lookup_insert_ne; [done|by intros ->..].
Qed.

(** A pass touches only a queue that was idle or busy in the render. *)
Lemma redistributeTasks_bystander snap g cur s' q :
  redistributeTasks snap g cur = Some s' →
  isIdle snap q = false → isBusy snap q = false →
  subQueues s' !! q = subQueues cur !! q.
Proof.
  intros [->|(i & b & lb & t & li & _ & _ & Hidle & Hbusy & _ & _ & _ & ->)]
    %redistributeTasks_cases Hqi Hqb; [done|].
  simpl. rewrite !lookup_insert_ne; [done|intros ->; congruence..].
Qed.

(** X9. The rebalancing effect of a reachable state succeeds and changes
    nothing but pending lists: in each of the two groups the sum of the
    pending values is the same before and after, so a pass only moves work
    between the queues of one group; a queue that is neither idle nor busy,
    a queue in its grace period and a name outside the two groups keep
    their pending lists. *)
Theorem rebalancing_moves_within_group s :
  reachable s →
  ∃ s', exec RebalancePass s = Some s'
    ∧ (∀ ty, totalLoad (subQueues s') (groupOf s ty)
             == totalLoad (subQueues s) (groupOf s ty))
    ∧ (∀ q, isIdle s q = false → isBusy s q = false →
         subQueues s' !! q = subQueues s !! q)
    ∧ (∀ q, q ∈ newlyCreatedQueues s → subQueues s' !! q = subQueues s !! q)
    ∧ (∀ q, q ∉ allQueues s → subQueues s' !! q = subQueues s !! q)
    ∧ s' = set_subQueues (subQueues s') s.
Proof.
  intros Hs%reachable_Inv.
  destruct (exec_total RebalancePass s Hs) as [s' Hex].
  exists s'. split; [done|]. simpl in Hex. unfold rebalanceEffect in Hex.
  destruct (redistributeTasks s (highPriorityQueues s) s) as [s1|] eqn:H1;
    [|done].
  cbn [mbind option_bind] in Hex.
  destruct (redistributeTasks_books s _ s s1 (group_NoDup s high Hs) H1)
    as (Hsum1 & Hout1 & Hnew1 & Hs1).
  destruct (redistributeTasks_books s _ s1 s' (group_NoDup s normal Hs) Hex)
    as (Hsum2 & Hout2 & Hnew2 & Hs2).
  split; [|split; [|split; [|split]]].
  - intros [|]; simpl.
    + rewrite <- Hsum1. rewrite (totalLoad_ext (subQueues s1)); [reflexivity|].
      intros q Hq. apply Hout2. by apply (groups_disjoint s high).
    + rewrite Hsum2. rewrite (totalLoad_ext (subQueues s)); [reflexivity|].
      intros q Hq. apply Hout1. by apply (groups_disjoint s normal).
  - intros q Hqi Hqb.
    rewrite (redistributeTasks_bystander _ _ _ _ q Hex Hqi Hqb).
    by apply (redistributeTasks_bystander _ _ _ _ q H1).
  - intros q Hq. by rewrite Hnew2, Hnew1.
  - intros q Hq. rewrite Hout2, Hout1; [done|..];
      intros Hin; apply Hq, allQueues_groups; auto.
  - rewrite Hs2 at 1. rewrite Hs1. state_eq.
Qed.

Lemma rebalancing_moves_within_group_witness :
  reachable rebalanceState
  ∧ ∃ s', exec RebalancePass rebalanceState = Some s'
      ∧ totalLoad (subQueues s') (groupOf rebalanceState high) == 120.
Proof.
  assert (Hs : reachable rebalanceState).
  { apply stateAfter_reachable; [|vm_compute; eauto].
    repeat constructor; by apply mkTask_generated. }
  split; [exact Hs|].
  destruct (rebalancing_moves_within_group rebalanceState Hs)
    as (s' & Hex & Hsum & _).
  exists s'. split; [exact Hex|].
  rewrite (Hsum high). vm_compute. reflexivity.
Defined.

(** X10. In every reachable state every value the component holds is an
    integer multiple of 0.2: the pending values of every queue, every
    progress, every initial duration and the values of the tasks in the main
    queue.  (The buttons generate integers, and the interval takes 0.4 off
    at a time.) *)
Theorem values_are_multiples_of_a_fifth s :
  reachable s →
  (∀ q l v, subQueues s !! q = Some l → v ∈ l → onGrid v)
  ∧ (∀ q p, progress s !! q = Some p → onGrid p)
  ∧ (∀ q d, initialDuration s !! q = Some d → onGrid d)
  ∧ (∀ t, t ∈ queue s → onGrid (value t)).
Proof.
  intros [H1 H2 H3 H4]%reachable_Grid.
  split; [|split; [|split]].
  - intros q l v Hl Hv. pose proof (H1 q l Hl) as Hall.
    rewrite Forall_forall in Hall. by apply Hall.
  - apply H2.
  - apply H3.
  - by apply Forall_forall.
Qed.

Lemma values_are_multiples_of_a_fifth_witness :
  reachable shrinkState
  ∧ ∀ q p, progress shrinkState !! q = Some p → onGrid p.
Proof.
  assert (Hs : reachable shrinkState).
  { apply stateAfter_reachable; [|vm_compute; eauto].
    repeat constructor; by apply mkTask_generated. }
  split; [exact Hs|].
  exact (proj1 (proj2 (values_are_multiples_of_a_fifth shrinkState Hs))).
Defined.

(** ** The countdown in exact arithmetic *)

Lemma Math_max_0_l x : x <= 0 → Math_max 0 x == 0.
Proof.
  intros Hx. unfold Math_max. destruct (Qle_bool 0 x) eqn:Hb; [|reflexivity].
  apply Qle_bool_iff in Hb. lra.
Qed.

Lemma Math_max_0_r x : 0 <= x → Math_max 0 x == x.
Proof.
  intros Hx. unfold Math_max. destruct (Qle_bool 0 x) eqn:Hb; [reflexivity|].
  apply Qle_bool_iff in Hx. congruence.
Qed.

Lemma tickProgress_grid p :
  onGrid p → 0 <= p →
  tickProgress p == Math_max 0 (p - (2 # 5))
  ∧ onGrid (tickProgress p) ∧ 0 <= tickProgress p.
Proof.
  intros Hg Hp. unfold tickProgress. destruct (Qltb 0 p) eqn:Hb.
  - destruct (decrement_grid p Hg) as [Heq Hg']. split; [done|].
    split; [done|]. by apply decrement_bounds.
  - apply Qltb_ge in Hb. split; [|split; [apply onGrid_0 | apply Qle_refl]].
    rewrite Math_max_0_l; [reflexivity | lra].
Qed.

Lemma tickProgress_iter p : ∀ k,
  onGrid p → 0 <= p →
  Nat.iter k tickProgress p
  == Math_max 0 (p - inject_Z (Z.of_nat k) * (2 # 5)).
Proof.
  intros k. revert p. induction k as [|k IH]; intros p Hg Hp.
  - change (Nat.iter 0 tickProgress p) with p.
    change (inject_Z (Z.of_nat 0)) with 0.
    rewrite Math_max_0_r; lra.
  - rewrite Nat.iter_succ_r.
    destruct (tickProgress_grid p Hg Hp) as (Heq & Hg' & Hp').
    rewrite (IH _ Hg' Hp'), Nat2Z.inj_succ. unfold Z.succ.
    rewrite inject_Z_plus. change (inject_Z 1) with 1.
    assert (Hk : 0 <= inject_Z (Z.of_nat k)).
    { change 0 with (inject_Z 0). rewrite <- Zle_Qle. lia. }
    revert Hk. generalize (inject_Z (Z.of_nat k)). intros a Ha.
    destruct (Qlt_le_dec p (2 # 5)) as [Hlt|Hge].
    + rewrite Math_max_0_l in Heq by lra.
      rewrite !Math_max_0_l; [reflexivity | nra | rewrite Heq; nra].
    + rewrite Math_max_0_r in Heq by lra.
      apply Math_max_compat. rewrite Heq. lra.
Qed.

(** The tick on binary64 numbers and the exact one agree on every value
    the component can hold: the double of the exact result is the result on
    the double. *)
Lemma tickProgress_isValue v : isValue v → isValue (tickProgress v).
Proof.
  intros Hv. unfold tickProgress.
  destruct (Qltb 0 v); [by apply isValue_decrement | apply isValue_0].
Qed.

Lemma f64_tick_commutes v :
  isValue v → f64_tickProgress (f64_of_Q v) = f64_of_Q (tickProgress v).
Proof.
  intros (k & Hk & ->). apply FloatAxioms.Leibniz.eqb_spec. revert k Hk.
  apply (range_covered
           (λ k, PrimFloat.Leibniz.eqb
                   (f64_tickProgress (f64_of_Q (Qred (inject_Z k / 5))))
                   (f64_of_Q (tickProgress (Qred (inject_Z k / 5))))) 1000).
  vm_compute. reflexivity.
Qed.

Lemma f64_ticks_commute k : ∀ v,
  isValue v →
  Nat.iter k f64_tickProgress (f64_of_Q v)
  = f64_of_Q (Nat.iter k tickProgress v).
Proof.
  induction k as [|k IH]; intros v Hv; [done|].
  rewrite !Nat.iter_succ_r, (f64_tick_commutes v Hv).
  by apply IH, tickProgress_isValue.
Qed.

(** X11. On a reachable state that is not paused, for a queue of the two
    groups with pending tasks and progress [p]: [k] ticks in a row succeed
    and leave the pending lists and the initial durations unchanged.  The
    progress then stands for exactly [max 0 (p - 0.4 k)], and it is the
    double that [k] ticks on binary64 numbers compute from the double of
    [p]: on the values the component holds, the rounding to two decimals
    brings each difference back to the double nearest to its exact value.
    The progress is 0 after [k] ticks exactly when [p <= 0.4 k]. *)
Theorem ticks_subtract_exactly s q l p k :
  reachable s → decrementPaused s = false → q ∈ allQueues s →
  subQueues s !! q = Some l → l ≠ [] → progress s !! q = Some p →
  ∃ s' p',
    execAll (replicate k ProgressTick) s = Some s'
    ∧ progress s' !! q = Some p'
    ∧ p' == Math_max 0 (p - inject_Z (Z.of_nat k) * (2 # 5))
    ∧ (p' == 0 ↔ p <= inject_Z (Z.of_nat k) * (2 # 5))
    ∧ subQueues s' = subQueues s
    ∧ initialDuration s' = initialDuration s
    ∧ Nat.iter k f64_tickProgress (f64_of_Q p) = f64_of_Q p'.
Proof.
  intros Hs Hpause Hq Hl Hne Hp.
  pose proof (reachable_Inv s Hs) as Hinv.
  pose proof (reachable_Grid s Hs) as Hgrid.
  destruct (progressTicks q l Hne k s p (Inv_entries s Hinv) Hpause Hq Hl Hp)
    as (u & Hrun & Hu).
  assert (Hg : onGrid p) by (by apply (grid_progress s Hgrid q)).
  assert (Hp0 : 0 <= p).
  { destruct (inv_queues s Hinv q Hq) as (? & p' & ? & _ & Hp' & _ & ? & _).
    rewrite Hp in Hp'. by injection Hp' as <-. }
  pose proof (tickProgress_iter p k Hg Hp0) as Hiter.
  assert (Hv : isValue p).
  { pose proof (reachable_Values isValue isValue_0 isValue_generated
                  isValue_decrement s Hs) as [_ Hprog _ _].
    by apply (Hprog q). }
  exists (set_progress u s), (Nat.iter k tickProgress p).
  split; [done|]. split; [done|]. split; [done|].
  split; [|split; [done|split; [done | by apply f64_ticks_commute]]].
  rewrite Hiter. generalize (inject_Z (Z.of_nat k) * (2 # 5)). intros c.
  destruct (Qlt_le_dec (p - c) 0) as [Hlt|Hge].
  - rewrite Math_max_0_l by lra. split; [lra | reflexivity].
  - rewrite Math_max_0_r by done. split; lra.
Qed.

Lemma ticks_subtract_exactly_witness :
  reachable fortyState
  ∧ decrementPaused fortyState = false
  ∧ "high1" ∈ allQueues fortyState
  ∧ subQueues fortyState !! "high1" = Some [40]
  ∧ [40] ≠ []
  ∧ progress fortyState !! "high1" = Some 40
  ∧ ∃ s' p',
      execAll (replicate 7 ProgressTick) fortyState = Some s'
      ∧ progress s' !! "high1" = Some p'
      ∧ p' == 186 # 5.
Proof.
  assert (Hs : reachable fortyState).
  { apply stateAfter_reachable; [|vm_compute; eauto].
    repeat constructor; by apply mkTask_generated. }
  assert (Hpause : decrementPaused fortyState = false)
    by (vm_compute; reflexivity).
  assert (Hq : "high1" ∈ allQueues fortyState) by (vm_compute; by left).
  assert (Hl : subQueues fortyState !! "high1" = Some [40])
    by (vm_compute; reflexivity).
  assert (Hne : [40] ≠ @nil Q) by discriminate.
  assert (Hp : progress fortyState !! "high1" = Some 40)
    by (vm_compute; reflexivity).
  split; [exact Hs|]. split; [exact Hpause|]. split; [exact Hq|].
  split; [exact Hl|]. split; [exact Hne|]. split; [exact Hp|].
  destruct (ticks_subtract_exactly fortyState "high1" [40] 40 7
              Hs Hpause Hq Hl Hne Hp) as (s' & p' & Hrun & Hp' & Heq & _).
  exists s', p'. split; [exact Hrun|]. split; [exact Hp'|].
  rewrite Heq. vm_compute. reflexivity.
Defined.

(** ** One tick, whatever the state *)

(** X12. A tick of the interval in a reachable state succeeds and changes
    nothing but the progress map.  For every queue of the two groups the
    new progress is at least 0 and at most the old one; while the pause is
    on nothing changes at all. *)
Theorem tick_only_lowers_progress s :
  reachable s →
  ∃ s', exec ProgressTick s = Some s'
    ∧ s' = set_progress (progress s') s
    ∧ (decrementPaused s = true → s' = s)
    ∧ ∀ q p, q ∈ allQueues s → progress s !! q = Some p →
        ∃ p', progress s' !! q = Some p' ∧ 0 <= p' ∧ p' <= p.
Proof.
  intros Hs%reachable_Inv. simpl.
  destruct (decrementPaused s) eqn:Hpause.
  { rewrite (progressTick_paused s Hpause). exists s.
    split; [done|]. split; [state_eq|]. split; [done|].
    intros q p Hq Hp. exists p. split; [done|].
    destruct (inv_queues s Hs q Hq) as (? & p' & ? & _ & Hp' & _ & ? & _).
    rewrite Hp in Hp'. injection Hp' as <-. split; [done | apply Qle_refl]. }
  destruct (progressTick_running s Hpause (Inv_entries s Hs)) as (u & -> & Hu).
  eexists. split; [reflexivity|]. split; [state_eq|]. split; [done|].
  intros q p Hq Hp. simpl. rewrite Hu, decide_True by done.
  eexists. split; [reflexivity|].
  destruct (inv_queues s Hs q Hq) as (? & p' & ? & _ & Hp' & _ & Hp0 & _).
  rewrite Hp in Hp'. injection Hp' as <-.
  unfold nextProgress. rewrite Hp.
  destruct ((0 <? length (default [] (subQueues s !! q)))%nat && Qltb 0 p).
  - by apply decrement_bounds.
  - split; [apply Qle_refl | done].
Qed.

Lemma tick_only_lowers_progress_witness :
  reachable fortyState
  ∧ ∃ s', exec ProgressTick fortyState = Some s'
      ∧ s' = set_progress (progress s') fortyState.
Proof.
  assert (Hs : reachable fortyState).
  { apply stateAfter_reachable; [|vm_compute; eauto].
    repeat constructor; by apply mkTask_generated. }
  split; [exact Hs|].
  destruct (tick_only_lowers_progress fortyState Hs) as (s' & Hex & Hs' & _).
  exists s'. split; [exact Hex | exact Hs'].
Defined.

(** ** The countdown on binary64 numbers *)

Lemma f64_agrees_iter fuel : ∀ x p k,
  f64_agrees fuel x p = true → (k ≤ fuel)%nat →
  PrimFloat.eqb (Nat.iter k f64_tickProgress x)
    (f64_of_Q (Nat.iter k tickProgress p)) = true.
Proof.
  induction fuel as [|fuel IH]; intros x p k Hagree Hk.
  - assert (k = 0%nat) as -> by lia. simpl in *.
    by apply andb_true_iff in Hagree as [? _].
  - cbn [f64_agrees] in Hagree. apply andb_true_iff in Hagree as [H0 Hrest].
    destruct k as [|k]; [done|].
    rewrite !Nat.iter_succ_r. apply IH; [done | lia].
Qed.

Lemma generated_values_covered (P : Z → bool) :
  forallb P (Z.of_nat <$> seq 0 200) = true →
  ∀ v, (0 ≤ v < 200)%Z → P v = true.
Proof.
  intros Hall v Hv. rewrite forallb_forall in Hall. apply Hall.
  apply list_elem_of_In, list_elem_of_fmap. exists (Z.to_nat v).
  split; [lia|]. apply elem_of_seq. lia.
Qed.

Lemma exactTicks_spec v k :
  (0 ≤ v)%Z →
  inject_Z v <= inject_Z (Z.of_nat k) * (2 # 5) ↔ (exactTicks v ≤ k)%nat.
Proof.
  intros Hv. unfold exactTicks, Qle, Qmult, inject_Z. simpl.
  pose proof (Z.div_mod (5 * v + 1) 2) as Hdiv.
  pose proof (Z.mod_pos_bound (5 * v + 1) 2) as Hmod.
  split; intros H; lia.
Qed.

(** X13. The model computes with exact rationals where the component
    computes with binary64 numbers.  For every task value the buttons can
    generate (an integer from 0 to 199), the binary64 countdown of the
    interval and the exact one agree at every tick: after each of the first
    500 ticks the double is the one nearest to the exact value, and the
    double reaches 0 after exactly [v / 0.4] ticks, rounded up, as the exact
    value does. *)
Theorem binary64_countdown_is_exact v :
  (0 ≤ v < 200)%Z →
  (∀ k, (k ≤ 500)%nat →
     PrimFloat.eqb (Nat.iter k f64_tickProgress (f64_of_Z v))
       (f64_of_Q (Nat.iter k tickProgress (inject_Z v))) = true)
  ∧ f64_ticks f64_tickProgress 500 (f64_of_Z v) = Some (exactTicks v)
  ∧ (∀ k, Nat.iter k tickProgress (inject_Z v) == 0 ↔ (exactTicks v ≤ k)%nat).
Proof.
  intros Hv. split; [|split].
  - intros k Hk. apply (f64_agrees_iter 500); [|done].
    revert v Hv. apply generated_values_covered. vm_compute. reflexivity.
  - eapply bool_decide_eq_true_1.
    revert v Hv.
    apply (generated_values_covered
             (λ v, bool_decide (f64_ticks f64_tickProgress 500 (f64_of_Z v)
                                = Some (exactTicks v)))).
    vm_compute. reflexivity.
  - intros k. rewrite <- exactTicks_spec by lia.
    assert (Hg : onGrid (inject_Z v)).
    { exists (5 * v)%Z. rewrite inject_Z_mult. change (inject_Z 5) with 5.
      field. }
    assert (H0 : 0 <= inject_Z v).
    { change 0 with (inject_Z 0). rewrite <- Zle_Qle. lia. }
    rewrite (tickProgress_iter _ k Hg H0).
    revert H0. generalize (inject_Z (Z.of_nat k) * (2 # 5)) (inject_Z v).
    intros c p Hp.
    destruct (Qlt_le_dec (p - c) 0) as [Hlt|Hge].
    + rewrite Math_max_0_l by lra. split; [lra | reflexivity].
    + rewrite Math_max_0_r by done. split; lra.
Qed.

Lemma binary64_countdown_is_exact_witness :
  (0 ≤ 40 < 200)%Z
  ∧ f64_ticks f64_tickProgress 500 (f64_of_Z 40) = Some 100%nat.
Proof.
  assert (Hv : (0 ≤ 40 < 200)%Z) by lia.
  split; [exact Hv|].
  exact (proj1 (proj2 (binary64_countdown_is_exact 40 Hv))).
Defined.

(** ** The earlier version of the component *)

Lemma legacy_fewest sq l2 l3 l4 :
  sq !! "regular2" = Some l2 → sq !! "regular3" = Some l3 →
  sq !! "regular4" = Some l4 →
  ∃ m lm, Legacy.fewest Legacy.queueNames sq = Some m
    ∧ m ∈ Legacy.queueNames ∧ sq !! m = Some lm
    ∧ (length lm ≤ length l2 ∧ length lm ≤ length l3
       ∧ length lm ≤ length l4)%nat.
Proof.
  intros H2 H3 H4. unfold Legacy.fewest, Legacy.queueNames.
  simpl. rewrite H2. simpl.
  rewrite Nat.ltb_irrefl, H3. simpl.
  destruct (Nat.ltb_spec (length l3) (length l2)) as [H32|H32];
    unfold Legacy.fewestStep; simpl; rewrite H4; simpl.
  - destruct (Nat.ltb_spec (length l4) (length l3)) as [H43|H43]; simpl.
    + exists "regular4", l4. split; [done|].
      split; [by do 2 right; left|]. split; [done | lia].
    + exists "regular3", l3. split; [done|].
      split; [by right; left|]. split; [done | lia].
  - destruct (Nat.ltb_spec (length l4) (length l2)) as [H42|H42]; simpl.
    + exists "regular4", l4. split; [done|].
      split; [by do 2 right; left|]. split; [done | lia].
    + exists "regular2", l2. split; [done|].
      split; [by left|]. split; [done | lia].
Qed.

Lemma legacy_pending_insert sq m l a :
  Legacy.pending (<[m := l]> sq) a
  = if decide (a = m) then length l else Legacy.pending sq a.
Proof.
  unfold Legacy.pending. destruct (decide (a = m)) as [->|Hne].
  - by rewrite lookup_insert_eq.
  - by rewrite lookup_insert_ne.
Qed.

(** X14. The earlier component, when its four queues exist, admits the head
    task of the main queue by appending its value to one queue and starts
    the pause: a high-priority task goes to [high]; a normal task goes to a
    regular queue that holds the fewest pending tasks, whatever their
    values, and if no regular queue held more than [bound] tasks more than
    another before ([bound] at least 1), none does afterwards. *)
Theorem legacy_admitTask_fewest_tasks s task rest :
  Legacy.queue s = task :: rest →
  (∀ n, n ∈ "high" :: Legacy.queueNames →
     is_Some (Legacy.subQueues s !! n)) →
  ∃ m lm s',
    Legacy.admitTask s = Some s'
    ∧ Legacy.subQueues s !! m = Some lm
    ∧ Legacy.subQueues s' = <[m := lm ++ [value task]]> (Legacy.subQueues s)
    ∧ Legacy.queue s' = rest
    ∧ Legacy.decrementPaused s' = true
    ∧ Legacy.progress s' = Legacy.progress s
    ∧ Legacy.initialDuration s' = Legacy.initialDuration s
    ∧ (type task = high → m = "high")
    ∧ (type task = normal →
         m ∈ Legacy.queueNames
         ∧ (∀ n, n ∈ Legacy.queueNames →
              (Legacy.pending (Legacy.subQueues s) m
               ≤ Legacy.pending (Legacy.subQueues s) n)%nat)
         ∧ ∀ bound, (1 ≤ bound)%nat →
             Legacy.balanced bound (Legacy.subQueues s) →
             Legacy.balanced bound (Legacy.subQueues s')).
Proof.
  intros Hq Hent. unfold Legacy.admitTask. rewrite Hq.
  destruct (type task) eqn:Hty.
  - destruct (Hent "high") as [lh Hh]; [by left|].
    rewrite Hh. cbn [mbind option_bind].
    exists "high", lh. eexists. split; [reflexivity|]. simpl.
    do 6 (split; [done|]). split; [done|]. done.
  - destruct (Hent "regular2") as [l2 H2]; [by right; left|].
    destruct (Hent "regular3") as [l3 H3]; [by do 2 right; left|].
    destruct (Hent "regular4") as [l4 H4]; [by do 3 right; left|].
    destruct (legacy_fewest _ l2 l3 l4 H2 H3 H4)
      as (m & lm & Hfew & Hm & Hlm & Hmin2 & Hmin3 & Hmin4).
    rewrite Hfew. cbn [mbind option_bind]. rewrite Hlm.
    cbn [mbind option_bind].
    exists m, lm. eexists. split; [reflexivity|]. simpl.
    do 6 (split; [done|]). split; [done|]. intros _.
    assert (Hmin : ∀ n, n ∈ Legacy.queueNames →
              (length lm ≤ Legacy.pending (Legacy.subQueues s) n)%nat).
    { intros n Hn. unfold Legacy.pending, Legacy.queueNames in *.
      repeat (apply elem_of_cons in Hn as [->|Hn];
              [by rewrite ?H2, ?H3, ?H4|]).
      inversion Hn. }
    split; [done|]. split.
    { intros n Hn. unfold Legacy.pending at 1. rewrite Hlm. by apply Hmin. }
    intros bound Hb Hbal a b Ha Hb'.
    rewrite !legacy_pending_insert, length_app. simpl.
    pose proof (Hbal a m Ha Hm) as Ham.
    unfold Legacy.pending at 2 in Ham. rewrite Hlm in Ham. simpl in Ham.
    destruct (decide (a = m)), (decide (b = m)); try lia.
    + pose proof (Hmin b Hb'). lia.
    + by apply Hbal.
Qed.

Lemma legacy_admitTask_fewest_tasks_witness :
  Legacy.queue legacyWaiting = mkTask 5 normal :: []
  ∧ (∀ n, n ∈ "high" :: Legacy.queueNames →
       is_Some (Legacy.subQueues legacyWaiting !! n))
  ∧ ∃ m lm s',
      Legacy.admitTask legacyWaiting = Some s'
      ∧ Legacy.subQueues legacyWaiting !! m = Some lm
      ∧ Legacy.subQueues s'
        = <[m := lm ++ [5]]> (Legacy.subQueues legacyWaiting).
Proof.
  assert (Hq : Legacy.queue legacyWaiting = mkTask 5 normal :: [])
    by reflexivity.
  assert (Hent : ∀ n, n ∈ "high" :: Legacy.queueNames →
            is_Some (Legacy.subQueues legacyWaiting !! n)).
  { intros n Hn. unfold Legacy.queueNames in Hn.
    repeat (apply elem_of_cons in Hn as [->|Hn]; [vm_compute; eauto|]).
    inversion Hn. }
  split; [exact Hq|]. split; [exact Hent|].
  destruct (legacy_admitTask_fewest_tasks legacyWaiting _ _ Hq Hent)
    as (m & lm & s' & Hadm & Hlm & Hsq & _).
  exists m, lm, s'. split; [exact Hadm|]. split; [exact Hlm | exact Hsq].
Defined.

Lemma legacy_decrement_grid p : onGrid p → Legacy.decrement p == decrement p.
Proof.
  intros Hg. destruct (decrement_grid p Hg) as [Heq _]. rewrite Heq.
  unfold Legacy.decrement. apply Math_max_compat. lra.
Qed.

(** X15. The interval of the earlier component takes 0.4 off without
    rounding.  On the multiples of 0.2 this is, in exact arithmetic, the
    decrement of the later component.  On binary64 numbers it is not: for
    every task value [v] the buttons can generate, the unrounded countdown
    reaches 0 after [v / 0.4] ticks rounded up, plus one more tick for 2, 4
    and the even values from 20 to 74, for which the subtractions leave a
    positive remainder.  (The rounded countdown of the later component
    takes the exact number of ticks for every such [v].) *)
Theorem legacy_countdown_drifts v :
  (0 ≤ v < 200)%Z →
  f64_ticks Legacy.f64_tickProgress 500 (f64_of_Z v)
  = Some (exactTicks v + (if driftsAt v then 1 else 0))%nat
  ∧ ∀ p, onGrid p → Legacy.decrement p == decrement p.
Proof.
  intros Hv. split; [|apply legacy_decrement_grid].
  eapply bool_decide_eq_true_1. revert v Hv.
  apply (generated_values_covered
           (λ v, bool_decide
                   (f64_ticks Legacy.f64_tickProgress 500 (f64_of_Z v)
                    = Some (exactTicks v + (if driftsAt v then 1 else 0))%nat))).
  vm_compute. reflexivity.
Qed.

Lemma legacy_countdown_drifts_witness :
  (0 ≤ 40 < 200)%Z
  ∧ f64_ticks Legacy.f64_tickProgress 500 (f64_of_Z 40) = Some 101%nat.
Proof.
  assert (Hv : (0 ≤ 40 < 200)%Z) by lia.
  split; [exact Hv|].
  exact (proj1 (legacy_countdown_drifts 40 Hv)).
Defined.

(** ** From admission to the first tick *)

Lemma rebalanceEffect_bystander snap cur s' q :
  rebalanceEffect snap cur = Some s' →
  isIdle snap q = false → isBusy snap q = false →
  subQueues s' !! q = subQueues cur !! q
  ∧ s' = set_subQueues (subQueues s') cur.
Proof.
  unfold rebalanceEffect. intros Hreb Hqi Hqb.
  destruct (redistributeTasks snap (highPriorityQueues snap) cur) as [c1|] eqn:H1;
    [|done].
  cbn [mbind option_bind] in Hreb.
  rewrite (redistributeTasks_bystander _ _ _ _ q Hreb Hqi Hqb).
  rewrite (redistributeTasks_bystander _ _ _ _ q H1 Hqi Hqb).
  split; [done|].
  apply redistributeTasks_cases in Hreb as [->|(? & ? & ? & ? & ? & _ & _ & _
    & _ & _ & _ & _ & ->)];
  apply redistributeTasks_cases in H1 as [->|(? & ? & ? & ? & ? & _ & _ & _
    & _ & _ & _ & _ & ->)]; state_eq.
Qed.

(** X16. Admission and the effects of the render that follows, together.
    In a reachable state with a task at the head of the main queue,
    [admitTask] succeeds, and so do the effects of the next render; the
    pause that the admission started is still on after them.  If the chosen
    queue was empty, the task is then its only pending task and is
    initialized: progress and initial duration are the value of the task,
    and no rebalancing pass has moved it. *)
Theorem admitted_task_is_initialized s task rest :
  reachable s → queue s = task :: rest →
  ∃ m lm s1 s2,
    exec AdmitTask s = Some s1
    ∧ exec EffectsPass s1 = Some s2
    ∧ m ∈ groupOf s (type task)
    ∧ subQueues s !! m = Some lm
    ∧ subQueues s1 !! m = Some (lm ++ [value task])
    ∧ decrementPaused s2 = true
    ∧ (lm = [] →
         subQueues s2 !! m = Some [value task]
         ∧ progress s2 !! m = Some (value task)
         ∧ initialDuration s2 !! m = Some (value task)).
Proof.
  intros Hs Hq. pose proof (reachable_Inv s Hs) as Hinv.
  destruct (admitTask_cons s task rest Hq)
    as (m & lm & Hin & Hm & _ & Hadm).
  { by apply Inv_group_nonempty. }
  { intros n Hn. eapply Inv_entries, groupOf_all; eauto. }
  set (s1 := set_decrementPaused true
               (set_queue rest
                  (set_subQueues (<[m := lm ++ [value task]]> (subQueues s)) s)))
    in *.
  assert (Hall : m ∈ allQueues s1) by (by apply (groupOf_all s (type task))).
  assert (Hinv1 : Inv s1) by (by apply (exec_Inv AdmitTask s)).
  assert (Hl1 : subQueues s1 !! m = Some (lm ++ [value task]))
    by apply lookup_insert_eq.
  destruct (completionEffect_step s1 Hinv1) as (sa & Ha & HOKa & HRela & Hfa).
  destruct (exec_total EffectsPass s1 Hinv1) as [s2 H2].
  exists m, lm, s1, s2. do 5 (split; [done|]).
  simpl in H2. unfold runEffects in H2. rewrite Ha in H2.
  cbn [mbind option_bind] in H2.
  destruct (rebalanceEffect s1 sa) as [sb|] eqn:Hb; [|done].
  cbn [mbind option_bind] in H2.
  unfold initializationEffect in H2.
  destruct (initialization_fold s1 (allQueues s1) sb (Inv_entries s1 Hinv1))
    as (pr' & dur' & Hfold & Hpr & Hdur).
  rewrite Hfold in H2. injection H2 as <-.
  assert (Hfb : sb = set_subQueues (subQueues sb) sa).
  { by destruct (rebalanceEffect_step s1 sa sb Hinv1 Hb) as (_ & _ & ?);
      [intros q _; apply HRela | |]. }
  split.
  { simpl. rewrite Hfb. simpl. by rewrite Hfa. }
  intros ->. change ([] ++ [value task]) with [value task] in Hl1.
  destruct (inv_queues s Hinv m (groupOf_all s _ m Hin))
    as (l & p & d & Hl & Hp & Hd & Hp0 & Hpd & _ & Hhd).
  rewrite Hm in Hl. injection Hl as <-.
  assert (Hd0 : d == 0).
  { destruct (Qlt_le_dec 0 d) as [Hpos|Hle]; [|lra].
    by destruct (Hhd Hpos) as (? & ? & ? & _). }
  assert (Hp0' : p == 0) by lra.
  assert (Hinit : initializes s1 m = true).
  { apply initializes_iff. exists [value task], p, d. by repeat split. }
  assert (Hcomp : completes s1 m = false).
  { apply not_true_is_false.
    intros (? & ? & d' & _ & _ & Hd' & _ & _ & Hpos)%completes_iff.
    simpl in Hd'. rewrite Hd in Hd'. injection Hd' as <-. lra. }
  assert (Hidle : isIdle s1 m = false).
  { apply not_true_is_false. intros (Hl' & _)%isIdle_iff.
    rewrite Hl1 in Hl'. discriminate. }
  assert (Hbusy : isBusy s1 m = false).
  { apply not_true_is_false. intros (l' & Hl' & Hlen & _)%isBusy_iff.
    rewrite Hl1 in Hl'. injection Hl' as <-. simpl in Hlen. lia. }
  assert (Hfirst : firstOf s1 m = Some (value task)).
  { unfold firstOf. by rewrite Hl1. }
  simpl. rewrite Hpr, Hdur, bool_decide_eq_true_2, Hinit by done. simpl.
  split; [|done].
  destruct (rebalanceEffect_bystander s1 sa sb m Hb Hidle Hbusy) as [-> _].
  destruct (HRela m) as [_ [[-> _]|[Hc _]]]; [done | congruence].
Qed.

Lemma admitted_task_is_initialized_witness :
  reachable waitingState
  ∧ queue waitingState = [mkTask 10 high]
  ∧ ∃ m lm s1 s2,
      exec AdmitTask waitingState = Some s1
      ∧ exec EffectsPass s1 = Some s2
      ∧ m ∈ groupOf waitingState high
      ∧ subQueues waitingState !! m = Some lm.
Proof.
  assert (Hs : reachable waitingState).
  { apply stateAfter_reachable; [|vm_compute; eauto].
    repeat constructor; by apply mkTask_generated. }
  assert (Hq : queue waitingState = mkTask 10 high :: [])
    by (vm_compute; reflexivity).
  split; [exact Hs|]. split; [exact Hq|].
  destruct (admitted_task_is_initialized waitingState _ _ Hs Hq)
    as (m & lm & s1 & s2 & H1 & H2 & Hm & Hlm & _).
  exists m, lm, s1, s2.
  split; [exact H1|]. split; [exact H2|]. split; [exact Hm | exact Hlm].
Defined.

(** ** The life of a task *)

Lemma execAll_app es1 es2 s :
  execAll (es1 ++ es2) s = s1 ← execAll es1 s; execAll es2 s1.
Proof.
  revert s. induction es1 as [|e es1 IH]; intros s; [done|].
  simpl. destruct (exec e s) as [s'|]; [apply IH | done].
Qed.

(** X17. A task that has started is finished within its number of ticks.
    On a reachable state that is not paused, for a queue of the two groups
    whose head task is initialized (positive initial duration) with
    progress [p]: whenever [p <= 0.4 k], [k] ticks followed by the
    completion and the initialization effect succeed, the head task is then
    removed and the rest of the pending list is unchanged, and the next
    pending task, if there is one, is initialized with its own value as
    progress and initial duration; with no next task both are 0. *)
Theorem started_task_finishes s q h rest p d k :
  reachable s → decrementPaused s = false → q ∈ allQueues s →
  subQueues s !! q = Some (h :: rest) →
  progress s !! q = Some p → initialDuration s !! q = Some d → 0 < d →
  p <= inject_Z (Z.of_nat k) * (2 # 5) →
  ∃ s' p' d',
    execAll (replicate k ProgressTick ++ [CompletionPass; InitializationPass]) s
      = Some s'
    ∧ subQueues s' !! q = Some rest
    ∧ progress s' !! q = Some p'
    ∧ initialDuration s' !! q = Some d'
    ∧ match rest with
      | [] => p' == 0 ∧ d' == 0
      | next :: _ => p' = next ∧ d' = next
      end.
Proof.
  intros Hs Hpause Hq Hl Hp Hd Hd0 Hk.
  pose proof (reachable_Inv s Hs) as Hinv.
  pose proof (reachable_Grid s Hs) as Hgrid.
  assert (Hne : h :: rest ≠ []) by done.
  destruct (progressTicks q (h :: rest) Hne k s p (Inv_entries s Hinv)
              Hpause Hq Hl Hp) as (u & Hrun & Hu).
  assert (Hzero : Nat.iter k tickProgress p == 0).
  { assert (Hp0 : 0 <= p).
    { destruct (inv_queues s Hinv q Hq) as (? & p' & ? & _ & Hp' & _ & ? & _).
      rewrite Hp in Hp'. by injection Hp' as <-. }
    rewrite tickProgress_iter by (done || by apply (grid_progress s Hgrid q)).
    apply Math_max_0_l. lra. }
  set (s1 := set_progress u s) in *.
  assert (Hs1 : reachable s1).
  { apply (execAll_reachable (replicate k ProgressTick) s);
      [done | apply Forall_enabled_ticks | done]. }
  pose proof (reachable_Inv s1 Hs1) as Hinv1.
  destruct (completion_fold s1 (allQueues s1) s1 (Inv_NoDup s1 Hinv1)
              (Inv_entries s1 Hinv1) (Inv_entries s1 Hinv1))
    as (sq' & dur' & Hfold & Hsq & Hdur).
  set (s2 := set_initialDuration dur' (set_subQueues sq' s1)) in *.
  assert (Hc : completes s1 q = true).
  { apply completes_iff. exists (h :: rest), (Nat.iter k tickProgress p), d.
    by repeat split. }
  assert (Hl2 : subQueues s2 !! q = Some rest).
  { simpl. rewrite Hsq, bool_decide_eq_true_2, Hc by done. simpl.
    by rewrite Hl. }
  assert (Hd2 : initialDuration s2 !! q = Some 0).
  { simpl. by rewrite Hdur, bool_decide_eq_true_2, Hc by done. }
  assert (Hp2 : progress s2 !! q = Some (Nat.iter k tickProgress p)) by done.
  assert (Hinv2 : Inv s2) by (by apply (exec_Inv CompletionPass s1)).
  destruct (initialization_fold s2 (allQueues s2) s2 (Inv_entries s2 Hinv2))
    as (pr3 & dur3 & Hfold3 & Hpr3 & Hdur3).
  assert (Hq2 : q ∈ allQueues s2) by done.
  exists (set_initialDuration dur3 (set_progress pr3 s2)).
  destruct rest as [|next rest'].
  - assert (Hi : initializes s2 q = false).
    { apply not_true_is_false.
      intros (l' & p' & d' & Hl' & _ & _ & Hne' & _)%initializes_iff.
      rewrite Hl2 in Hl'. congruence. }
    exists (Nat.iter k tickProgress p), 0. split.
    + rewrite execAll_app, Hrun. cbn [mbind option_bind execAll exec].
      unfold completionEffect. rewrite Hfold. cbn [mbind option_bind].
      unfold initializationEffect. by rewrite Hfold3.
    + simpl. rewrite Hpr3, Hdur3, bool_decide_eq_true_2, Hi by done. simpl.
      rewrite Hdur, bool_decide_eq_true_2, Hc by done. simpl.
      rewrite Hsq, bool_decide_eq_true_2, Hc by done. simpl. rewrite Hl.
      do 3 (split; [done|]). split; [done | reflexivity].
  - assert (Hi : initializes s2 q = true).
    { apply initializes_iff.
      exists (next :: rest'), (Nat.iter k tickProgress p), 0.
      repeat split; try done. }
    assert (Hf : firstOf s2 q = Some next).
    { unfold firstOf. by rewrite Hl2. }
    exists next, next. split.
    + rewrite execAll_app, Hrun. cbn [mbind option_bind execAll exec].
      unfold completionEffect. rewrite Hfold. cbn [mbind option_bind].
      unfold initializationEffect. by rewrite Hfold3.
    + cbn [subQueues progress initialDuration set_initialDuration set_progress].
      rewrite Hpr3, Hdur3, bool_decide_eq_true_2, Hi by done.
      cbn [andb]. rewrite Hf. done.
Qed.

Lemma started_task_finishes_witness :
  reachable fortyState
  ∧ decrementPaused fortyState = false
  ∧ "high1" ∈ allQueues fortyState
  ∧ subQueues fortyState !! "high1" = Some [40]
  ∧ progress fortyState !! "high1" = Some 40
  ∧ initialDuration fortyState !! "high1" = Some 40
  ∧ 0 < 40
  ∧ 40 <= inject_Z (Z.of_nat 100) * (2 # 5)
  ∧ ∃ s',
      execAll (replicate 100 ProgressTick
               ++ [CompletionPass; InitializationPass]) fortyState = Some s'
      ∧ subQueues s' !! "high1" = Some [].
Proof.
  assert (Hs : reachable fortyState).
  { apply stateAfter_reachable; [|vm_compute; eauto].
    repeat constructor. by apply mkTask_generated. }
  assert (Hq : "high1" ∈ allQueues fortyState) by (vm_compute; by left).
  assert (Hpause : decrementPaused fortyState = false)
    by (vm_compute; reflexivity).
  assert (Hl : subQueues fortyState !! "high1" = Some [40])
    by (vm_compute; reflexivity).
  assert (Hp : progress fortyState !! "high1" = Some 40)
    by (vm_compute; reflexivity).
  assert (Hd : initialDuration fortyState !! "high1" = Some 40)
    by (vm_compute; reflexivity).
  assert (Hd0 : 0 < 40) by reflexivity.
  assert (Hk : 40 <= inject_Z (Z.of_nat 100) * (2 # 5))
    by (vm_compute; discriminate).
  split; [exact Hs|]. split; [exact Hpause|]. split; [exact Hq|].
  split; [exact Hl|]. split; [exact Hp|]. split; [exact Hd|].
  split; [exact Hd0|]. split; [exact Hk|].
  destruct (started_task_finishes fortyState "high1" 40 [] 40 40 100
              Hs Hpause Hq Hl Hp Hd Hd0 Hk)
    as (s' & p' & d' & Hrun & Hrest & _).
  exists s'. split; [exact Hrun | exact Hrest].
Defined.
